(** * Photon-ALP conversion: transfer matrices and line-of-sight integrals

    A shallow embedding of [conversion.py] (classes [PhotALPs],
    [PhotALPs_ICM] and [PhotALPs_GMF]) and the properties of its per-domain
    transfer matrices and of the two propagation entry points.

    Numbers.  The source computes in IEEE doubles ([float], [numpy.float64])
    and in pairs of doubles ([complex], [numpy.complex128]).  The embedding
    idealises a double as a real number of [R] and a complex double as a
    pair of reals: rounding, overflow, infinities and NaN are outside the
    model.  A division of Python floats by zero raises [ZeroDivisionError]
    and is modelled as such ([pydiv]).  Where the scalars of a quotient
    may be numpy's, the quotient is written with the division of [R] and
    stands for the source only where its divisor is not zero.  There are
    two such places.  The argument of [arctan] in [__setDeltas] has the
    divisor [Dpar - Da]: at [Dpar = Da] the source raises
    [ZeroDivisionError] on Python floats and yields an infinity or NaN on
    numpy scalars, and the properties that rest on the mixing angle carry
    the hypothesis [Dpar <> Da].  The two quotients of [set_coordinates]
    have the divisors [|sin b|] and [|cos b|], and are used for an
    extragalactic source only.

    Collaborators.  The optical-depth table, the Delta provider ([deltas]),
    the galactic field model ([gmf]), the coordinate transformation
    ([kapteyn.wcs]) and the quadrature rule ([scipy.integrate.simps]) are
    not part of the file; they are taken as records of functions. *)

From Stdlib Require Import Reals Lra Lia ZArith List.
From Stdlib Require Import RNsatz.
From Stdlib Require Ncring Cring Integral_domain.
Import ListNotations.
Open Scope R_scope.

(** ** Complex scalars *)

Record C : Type := mkC { re : R; im : R }.

Definition RtoC (x : R) : C := mkC x 0.
Coercion RtoC : R >-> C.

(** The literal [1.j]. *)
Definition Ci : C := mkC 0 1.

Definition Cadd (a b : C) : C := mkC (re a + re b) (im a + im b).
Definition Copp (a : C) : C := mkC (- re a) (- im a).
Definition Csub (a b : C) : C := mkC (re a - re b) (im a - im b).
Definition Cmul (a b : C) : C :=
  mkC (re a * re b - im a * im b) (re a * im b + im a * re b).
Definition Cconj (a : C) : C := mkC (re a) (- im a).
Definition Cnorm2 (a : C) : R := re a * re a + im a * im a.
Definition Cinv (a : C) : C := mkC (re a / Cnorm2 a) (- im a / Cnorm2 a).
Definition Cdiv (a b : C) : C := Cmul a (Cinv b).

(** [numpy.exp] on a complex argument. *)
Definition Cexp (a : C) : C :=
  mkC (exp (re a) * cos (im a)) (exp (re a) * sin (im a)).

(** [numpy.sqrt] on a complex argument: the principal square root, whose
    imaginary part takes the sign of the argument's imaginary part (the
    positive one at [+0.j]). *)
Definition Csqrt (a : C) : C :=
  let r := sqrt (Cnorm2 a) in
  mkC (sqrt ((r + re a) / 2))
      ((if Rle_dec 0 (im a) then 1 else -1) * sqrt ((r - re a) / 2)).

Declare Scope C_scope.
Delimit Scope C_scope with C.
Bind Scope C_scope with C.
Infix "+" := Cadd : C_scope.
Infix "-" := Csub : C_scope.
Infix "*" := Cmul : C_scope.
Infix "/" := Cdiv : C_scope.
Notation "- x" := (Copp x) : C_scope.

(** ** 3x3 complex arrays *)

Inductive ix : Type := I0 | I1 | I2.

Record Mat : Type := mkMat {
  m00 : C; m01 : C; m02 : C;
  m10 : C; m11 : C; m12 : C;
  m20 : C; m21 : C; m22 : C }.

(** [A[i,j]] *)
Definition mget (A : Mat) (i j : ix) : C :=
  match i, j with
  | I0, I0 => m00 A | I0, I1 => m01 A | I0, I2 => m02 A
  | I1, I0 => m10 A | I1, I1 => m11 A | I1, I2 => m12 A
  | I2, I0 => m20 A | I2, I1 => m21 A | I2, I2 => m22 A
  end.

(** [A[i,j] = v], the array updated in place *)
Definition mset (A : Mat) (i j : ix) (v : C) : Mat :=
  match i, j with
  | I0, I0 => mkMat v (m01 A) (m02 A) (m10 A) (m11 A) (m12 A) (m20 A) (m21 A) (m22 A)
  | I0, I1 => mkMat (m00 A) v (m02 A) (m10 A) (m11 A) (m12 A) (m20 A) (m21 A) (m22 A)
  | I0, I2 => mkMat (m00 A) (m01 A) v (m10 A) (m11 A) (m12 A) (m20 A) (m21 A) (m22 A)
  | I1, I0 => mkMat (m00 A) (m01 A) (m02 A) v (m11 A) (m12 A) (m20 A) (m21 A) (m22 A)
  | I1, I1 => mkMat (m00 A) (m01 A) (m02 A) (m10 A) v (m12 A) (m20 A) (m21 A) (m22 A)
  | I1, I2 => mkMat (m00 A) (m01 A) (m02 A) (m10 A) (m11 A) v (m20 A) (m21 A) (m22 A)
  | I2, I0 => mkMat (m00 A) (m01 A) (m02 A) (m10 A) (m11 A) (m12 A) v (m21 A) (m22 A)
  | I2, I1 => mkMat (m00 A) (m01 A) (m02 A) (m10 A) (m11 A) (m12 A) (m20 A) v (m22 A)
  | I2, I2 => mkMat (m00 A) (m01 A) (m02 A) (m10 A) (m11 A) (m12 A) (m20 A) (m21 A) v
  end.

(** [np.zeros((3,3), np.complex)] *)
Definition mzeros : Mat :=
  mkMat (RtoC 0) (RtoC 0) (RtoC 0) (RtoC 0) (RtoC 0) (RtoC 0) (RtoC 0) (RtoC 0) (RtoC 0).

(** [np.diag(np.diag(np.ones((3,3), np.complex)))] *)
Definition meye : Mat :=
  mkMat (RtoC 1) (RtoC 0) (RtoC 0) (RtoC 0) (RtoC 1) (RtoC 0) (RtoC 0) (RtoC 0) (RtoC 1).

Definition madd (A B : Mat) : Mat :=
  mkMat (m00 A + m00 B)%C (m01 A + m01 B)%C (m02 A + m02 B)%C
        (m10 A + m10 B)%C (m11 A + m11 B)%C (m12 A + m12 B)%C
        (m20 A + m20 B)%C (m21 A + m21 B)%C (m22 A + m22 B)%C.

Definition msub (A B : Mat) : Mat :=
  mkMat (m00 A - m00 B)%C (m01 A - m01 B)%C (m02 A - m02 B)%C
        (m10 A - m10 B)%C (m11 A - m11 B)%C (m12 A - m12 B)%C
        (m20 A - m20 B)%C (m21 A - m21 B)%C (m22 A - m22 B)%C.

(** scalar times array *)
Definition mscale (k : C) (A : Mat) : Mat :=
  mkMat (k * m00 A)%C (k * m01 A)%C (k * m02 A)%C
        (k * m10 A)%C (k * m11 A)%C (k * m12 A)%C
        (k * m20 A)%C (k * m21 A)%C (k * m22 A)%C.

(** [np.dot(A, B)] *)
Definition mdot (A B : Mat) : Mat :=
  mkMat (m00 A * m00 B + m01 A * m10 B + m02 A * m20 B)%C
        (m00 A * m01 B + m01 A * m11 B + m02 A * m21 B)%C
        (m00 A * m02 B + m01 A * m12 B + m02 A * m22 B)%C
        (m10 A * m00 B + m11 A * m10 B + m12 A * m20 B)%C
        (m10 A * m01 B + m11 A * m11 B + m12 A * m21 B)%C
        (m10 A * m02 B + m11 A * m12 B + m12 A * m22 B)%C
        (m20 A * m00 B + m21 A * m10 B + m22 A * m20 B)%C
        (m20 A * m01 B + m21 A * m11 B + m22 A * m21 B)%C
        (m20 A * m02 B + m21 A * m12 B + m22 A * m22 B)%C.

(** [A.transpose().conjugate()] *)
Definition mdagger (A : Mat) : Mat :=
  mkMat (Cconj (m00 A)) (Cconj (m10 A)) (Cconj (m20 A))
        (Cconj (m01 A)) (Cconj (m11 A)) (Cconj (m21 A))
        (Cconj (m02 A)) (Cconj (m12 A)) (Cconj (m22 A)).

(** [np.sum(np.diag(A))] *)
Definition mtrace (A : Mat) : C := (m00 A + m11 A + m22 A)%C.

(** The Frobenius norm, the measure of the unitarity defect. *)
Definition mnorm (A : Mat) : R :=
  sqrt (Cnorm2 (m00 A) + Cnorm2 (m01 A) + Cnorm2 (m02 A)
      + Cnorm2 (m10 A) + Cnorm2 (m11 A) + Cnorm2 (m12 A)
      + Cnorm2 (m20 A) + Cnorm2 (m21 A) + Cnorm2 (m22 A)).

(** A transfer operator is unitary when it is inverted by its adjoint. *)
Definition unitary (U : Mat) : Prop :=
  mdot U (mdagger U) = meye /\ mdot (mdagger U) U = meye.

(** The five entries of [self.T1] that no method assigns hold the zeros
    [__init__] put there. *)
Definition T1_clean (t : Mat) : Prop :=
  m02 t = RtoC 0 /\ m12 t = RtoC 0 /\ m20 t = RtoC 0 /\ m21 t = RtoC 0 /\ m22 t = RtoC 0.


(** ** Exceptions *)

Inductive PyError : Type :=
| ZeroDivisionError
| ValueError
| OverflowError.

Inductive outcome (A : Type) : Type :=
| Returned (a : A)
| Raised (e : PyError).
Arguments Returned {A} a.
Arguments Raised {A} e.

Definition bind {A B : Type} (c : outcome A) (k : A -> outcome B) : outcome B :=
  match c with
  | Returned a => k a
  | Raised e => Raised e
  end.

Notation "x <- c ;; k" := (bind c (fun x => k))
  (at level 61, c at next level, right associativity).

(** [x / y] on Python floats. *)
Definition pydiv (x y : R) : outcome R :=
  if Req_dec_T y 0 then Raised ZeroDivisionError else Returned (x / y).

(** [int(x)]: truncation towards zero. *)
Definition py_int (x : R) : Z :=
  if Rle_dec 0 x then Int_part x else (- Int_part (- x))%Z.

(** ** class PhotALPs: conversion with absorption (IGMF) *)

Module PhotALPs.

(** The attributes of an instance.  [tau], the optical-depth table, is the
    collaborator [opt_depth] below; [Ln] is first assigned by [SetDomainN]. *)
Record state : Type := mkState {
  Ld : R; xi : R; dz : R;
  E0 : R; Nd : Z; z : R;
  mfn_print : R; dtau : R; Psin : R; dn : R;
  EW1n : R; EW2n : C; EW3n : C; Dn : C;
  Ln : R;
  T1 : Mat; T2 : Mat; T3 : Mat; Un : Mat }.

Definition set_z (s : state) (v : R) : state :=
  mkState (Ld s) (xi s) (dz s) (E0 s) (Nd s) v (mfn_print s) (dtau s) (Psin s) (dn s)
          (EW1n s) (EW2n s) (EW3n s) (Dn s) (Ln s) (T1 s) (T2 s) (T3 s) (Un s).
Definition set_Nd (s : state) (v : Z) : state :=
  mkState (Ld s) (xi s) (dz s) (E0 s) v (z s) (mfn_print s) (dtau s) (Psin s) (dn s)
          (EW1n s) (EW2n s) (EW3n s) (Dn s) (Ln s) (T1 s) (T2 s) (T3 s) (Un s).
Definition set_mfn_print (s : state) (v : R) : state :=
  mkState (Ld s) (xi s) (dz s) (E0 s) (Nd s) (z s) v (dtau s) (Psin s) (dn s)
          (EW1n s) (EW2n s) (EW3n s) (Dn s) (Ln s) (T1 s) (T2 s) (T3 s) (Un s).
Definition set_dtau (s : state) (v : R) : state :=
  mkState (Ld s) (xi s) (dz s) (E0 s) (Nd s) (z s) (mfn_print s) v (Psin s) (dn s)
          (EW1n s) (EW2n s) (EW3n s) (Dn s) (Ln s) (T1 s) (T2 s) (T3 s) (Un s).
Definition set_dn (s : state) (v : R) : state :=
  mkState (Ld s) (xi s) (dz s) (E0 s) (Nd s) (z s) (mfn_print s) (dtau s) (Psin s) v
          (EW1n s) (EW2n s) (EW3n s) (Dn s) (Ln s) (T1 s) (T2 s) (T3 s) (Un s).
Definition set_EW1n (s : state) (v : R) : state :=
  mkState (Ld s) (xi s) (dz s) (E0 s) (Nd s) (z s) (mfn_print s) (dtau s) (Psin s) (dn s)
          v (EW2n s) (EW3n s) (Dn s) (Ln s) (T1 s) (T2 s) (T3 s) (Un s).
Definition set_EW2n (s : state) (v : C) : state :=
  mkState (Ld s) (xi s) (dz s) (E0 s) (Nd s) (z s) (mfn_print s) (dtau s) (Psin s) (dn s)
          (EW1n s) v (EW3n s) (Dn s) (Ln s) (T1 s) (T2 s) (T3 s) (Un s).
Definition set_EW3n (s : state) (v : C) : state :=
  mkState (Ld s) (xi s) (dz s) (E0 s) (Nd s) (z s) (mfn_print s) (dtau s) (Psin s) (dn s)
          (EW1n s) (EW2n s) v (Dn s) (Ln s) (T1 s) (T2 s) (T3 s) (Un s).
Definition set_Dn (s : state) (v : C) : state :=
  mkState (Ld s) (xi s) (dz s) (E0 s) (Nd s) (z s) (mfn_print s) (dtau s) (Psin s) (dn s)
          (EW1n s) (EW2n s) (EW3n s) v (Ln s) (T1 s) (T2 s) (T3 s) (Un s).
Definition set_Ln (s : state) (v : R) : state :=
  mkState (Ld s) (xi s) (dz s) (E0 s) (Nd s) (z s) (mfn_print s) (dtau s) (Psin s) (dn s)
          (EW1n s) (EW2n s) (EW3n s) (Dn s) v (T1 s) (T2 s) (T3 s) (Un s).
Definition set_T1 (s : state) (v : Mat) : state :=
  mkState (Ld s) (xi s) (dz s) (E0 s) (Nd s) (z s) (mfn_print s) (dtau s) (Psin s) (dn s)
          (EW1n s) (EW2n s) (EW3n s) (Dn s) (Ln s) v (T2 s) (T3 s) (Un s).
Definition set_T2 (s : state) (v : Mat) : state :=
  mkState (Ld s) (xi s) (dz s) (E0 s) (Nd s) (z s) (mfn_print s) (dtau s) (Psin s) (dn s)
          (EW1n s) (EW2n s) (EW3n s) (Dn s) (Ln s) (T1 s) v (T3 s) (Un s).
Definition set_T3 (s : state) (v : Mat) : state :=
  mkState (Ld s) (xi s) (dz s) (E0 s) (Nd s) (z s) (mfn_print s) (dtau s) (Psin s) (dn s)
          (EW1n s) (EW2n s) (EW3n s) (Dn s) (Ln s) (T1 s) (T2 s) v (Un s).
Definition set_Un (s : state) (v : Mat) : state :=
  mkState (Ld s) (xi s) (dz s) (E0 s) (Nd s) (z s) (mfn_print s) (dtau s) (Psin s) (dn s)
          (EW1n s) (EW2n s) (EW3n s) (Dn s) (Ln s) (T1 s) (T2 s) (T3 s) v.

(** [__init__(Ldom1, xi)]; [Ln] has no value yet and is read nowhere before
    [SetDomainN] assigns it. *)
Definition init (Ldom1 xi0 : R) : state :=
  mkState Ldom1 xi0 (1.17e-3 * Ldom1 / 5)
          0 0%Z 0
          0 0 0 0
          0 (RtoC 0) (RtoC 0) (RtoC 0)
          0
          mzeros mzeros mzeros mzeros.

(** [math.ceil] *)
Definition py_ceil (x : R) : Z := (- Int_part (- x))%Z.

(** [readz(z)]: the redshift and the number of domains.  The quotient by
    [self.Ld] is one of Python floats. *)
Definition readz (self : state) (z0 : R) : outcome state :=
  let self := set_z self z0 in
  q <- pydiv (0.85e3 * 5) (Ld self) ;;
  Returned (set_Nd self (py_int (IZR (py_ceil (q * z0))))).

(** [SetT1n]: four entries of the shared array [self.T1] are assigned, the
    other five keep what they held. *)
Definition SetT1n (self : state) : state :=
  let s := sin (Psin self) in
  let c := cos (Psin self) in
  let t := T1 self in
  let t := mset t I0 I0 (RtoC (c * c)) in
  let t := mset t I0 I1 (RtoC (-1 * s * c)) in
  let t := mset t I1 I0 (mget t I0 I1) in
  let t := mset t I1 I1 (RtoC (s * s)) in
  set_T1 self t.

Definition SetT2n (self : state) : state :=
  let s := sin (Psin self) in
  let c := cos (Psin self) in
  let t := T2 self in
  let t := mset t I0 I0 (0.5 * (1 + Dn self) / Dn self * s * s)%C in
  let t := mset t I0 I1 (0.5 * (1 + Dn self) / Dn self * s * c)%C in
  let t := mset t I0 I2 (- Ci * dn self / Dn self * s)%C in
  let t := mset t I1 I0 (mget t I0 I1) in
  let t := mset t I2 I0 (mget t I0 I2) in
  let t := mset t I1 I1 (0.5 * (1 + Dn self) / Dn self * c * c)%C in
  let t := mset t I1 I2 (- Ci * dn self / Dn self * c)%C in
  let t := mset t I2 I1 (mget t I1 I2) in
  let t := mset t I2 I2 (0.5 * (-1 + Dn self) / Dn self)%C in
  set_T2 self t.

Definition SetT3n (self : state) : state :=
  let s := sin (Psin self) in
  let c := cos (Psin self) in
  let t := T3 self in
  let t := mset t I0 I0 (0.5 * (-1 + Dn self) / Dn self * s * s)%C in
  let t := mset t I0 I1 (0.5 * (-1 + Dn self) / Dn self * s * c)%C in
  let t := mset t I0 I2 (Ci * dn self / Dn self * s)%C in
  let t := mset t I1 I0 (mget t I0 I1) in
  let t := mset t I2 I0 (mget t I0 I2) in
  let t := mset t I1 I1 (0.5 * (-1 + Dn self) / Dn self * c * c)%C in
  let t := mset t I1 I2 (Ci * dn self / Dn self * c)%C in
  let t := mset t I2 I1 (mget t I1 I2) in
  let t := mset t I2 I2 (0.5 * (1 + Dn self) / Dn self)%C in
  set_T3 self t.

(** [SetUn]: a fresh array is bound to [self.Un]. *)
Definition SetUn (self : state) : state :=
  set_Un self
    (madd (madd (mscale (RtoC (exp (EW1n self * Ln self))) (T1 self))
                (mscale (Cexp (EW2n self * Ln self)%C) (T2 self)))
          (mscale (Cexp (EW3n self * Ln self)%C) (T3 self))).

Section WithTau.

(** [self.tau.opt_depth(z, E)], the optical-depth table. *)
Variable opt_depth : R -> R -> R.

(** The mean free path of the [n]-th domain: the optical-depth step when it
    is not zero, the fallback otherwise. *)
Definition mfn_of (difftau Ln0 : R) : R :=
  if Req_dec_T difftau 0 then Ln0 / 1e-20 else Ln0 / difftau.

(** [SetDomainN(n)].  The two quotients of Python floats that can meet a
    zero divisor are the domain length and the quotients by [mfn]; an
    exception leaves the method at that point.  (In the fallback branch
    [mfn] is a Python float; in the other branch it has the type the
    optical-depth table returns, and is taken to be one as well.) *)
Definition SetDomainN (self : state) (n : Z) : outcome (state * Mat) :=
  let nr := IZR n in
  let difftau := opt_depth (nr * dz self) (E0 self)
                 - opt_depth ((nr - 1) * dz self) (E0 self) in
  Ln0 <- pydiv (4.29e3 * dz self) (1 + 1.45 * (nr - 1) * dz self) ;;
  let self := set_Ln self Ln0 in
  let mfn := mfn_of difftau (Ln self) in
  let self := set_mfn_print self mfn in
  let self := set_dtau self difftau in
  let self := set_dn self (0.11 * xi self * mfn * (1 + (nr - 1) * dz self) ^ 2) in
  let self := set_Dn self (RtoC (1 - 4 * dn self ^ 2) + 0 * Ci)%C in
  let self := set_Dn self (Csqrt (Dn self)) in
  e1 <- pydiv (-0.5) mfn ;;
  let self := set_EW1n self e1 in
  e2 <- pydiv (-0.25) mfn ;;
  let self := set_EW2n self (e2 * (1 + Dn self))%C in
  e3 <- pydiv (-0.25) mfn ;;
  let self := set_EW3n self (e3 * (1 - Dn self))%C in
  let self := SetT1n self in
  let self := SetT2n self in
  let self := SetT3n self in
  let self := SetUn self in
  Returned (self, Un self).

(** The length, the optical-depth step, the mean free path and the coupling
    term of the [n]-th domain, as [SetDomainN] computes them. *)
Definition Ln_of (self : state) (n : Z) : R :=
  4.29e3 * dz self / (1 + 1.45 * (IZR n - 1) * dz self).

Definition difftau_of (self : state) (n : Z) : R :=
  opt_depth (IZR n * dz self) (E0 self) - opt_depth ((IZR n - 1) * dz self) (E0 self).

Definition mfn_at (self : state) (n : Z) : R :=
  mfn_of (difftau_of self n) (Ln_of self n).

Definition dn_of (self : state) (n : Z) : R :=
  0.11 * xi self * mfn_at self n * (1 + (IZR n - 1) * dz self) ^ 2.

End WithTau.

End PhotALPs.

(** ** The Delta provider (module [deltas]) *)

Record DeltaProvider : Type := mkDeltas {
  Delta_pl_kpc : R -> R -> R;    (* plasma term, from (n, E) *)
  Delta_QED_kpc : R -> R -> R;   (* dispersive term, from (B, E) *)
  Delta_ag_kpc : R -> R -> R;    (* photon-ALP coupling term, from (g, B) *)
  Delta_a_kpc : R -> R -> R      (* ALP mass term, from (m, E) *) }.

(** ** class PhotALPs_ICM: conversion without absorption *)

Module PhotALPs_ICM.

(** The attributes of an instance; the second group is first assigned by
    [__setDeltas] and [__setEW], which every reader runs after. *)
Record state : Type := mkState {
  Nd : R; Lcoh : R; E : R; B : R; g : R; m : R; n : R; xi : R; Psin : R;
  T1 : Mat; T2 : Mat; T3 : Mat; Un : Mat;
  Dperp : R; Dpar : R; Dag : R; Da : R; alph : R; Dosc : R;
  EW1 : R; EW2 : R; EW3 : R }.

Definition set_E (s : state) (v : R) : state :=
  mkState (Nd s) (Lcoh s) v (B s) (g s) (m s) (n s) (xi s) (Psin s)
          (T1 s) (T2 s) (T3 s) (Un s)
          (Dperp s) (Dpar s) (Dag s) (Da s) (alph s) (Dosc s) (EW1 s) (EW2 s) (EW3 s).
Definition set_B (s : state) (v : R) : state :=
  mkState (Nd s) (Lcoh s) (E s) v (g s) (m s) (n s) (xi s) (Psin s)
          (T1 s) (T2 s) (T3 s) (Un s)
          (Dperp s) (Dpar s) (Dag s) (Da s) (alph s) (Dosc s) (EW1 s) (EW2 s) (EW3 s).
Definition set_Psin (s : state) (v : R) : state :=
  mkState (Nd s) (Lcoh s) (E s) (B s) (g s) (m s) (n s) (xi s) v
          (T1 s) (T2 s) (T3 s) (Un s)
          (Dperp s) (Dpar s) (Dag s) (Da s) (alph s) (Dosc s) (EW1 s) (EW2 s) (EW3 s).
Definition set_T1 (s : state) (v : Mat) : state :=
  mkState (Nd s) (Lcoh s) (E s) (B s) (g s) (m s) (n s) (xi s) (Psin s)
          v (T2 s) (T3 s) (Un s)
          (Dperp s) (Dpar s) (Dag s) (Da s) (alph s) (Dosc s) (EW1 s) (EW2 s) (EW3 s).
Definition set_T2 (s : state) (v : Mat) : state :=
  mkState (Nd s) (Lcoh s) (E s) (B s) (g s) (m s) (n s) (xi s) (Psin s)
          (T1 s) v (T3 s) (Un s)
          (Dperp s) (Dpar s) (Dag s) (Da s) (alph s) (Dosc s) (EW1 s) (EW2 s) (EW3 s).
Definition set_T3 (s : state) (v : Mat) : state :=
  mkState (Nd s) (Lcoh s) (E s) (B s) (g s) (m s) (n s) (xi s) (Psin s)
          (T1 s) (T2 s) v (Un s)
          (Dperp s) (Dpar s) (Dag s) (Da s) (alph s) (Dosc s) (EW1 s) (EW2 s) (EW3 s).
Definition set_Un (s : state) (v : Mat) : state :=
  mkState (Nd s) (Lcoh s) (E s) (B s) (g s) (m s) (n s) (xi s) (Psin s)
          (T1 s) (T2 s) (T3 s) v
          (Dperp s) (Dpar s) (Dag s) (Da s) (alph s) (Dosc s) (EW1 s) (EW2 s) (EW3 s).

(** [__init__(Lcoh, B, r_abell, E_GeV, g, m, n)]: the number of domains is a
    quotient of Python floats. *)
Definition init (Lcoh0 B0 r_abell E_GeV g0 m0 n0 : R) : outcome state :=
  nd <- pydiv r_abell Lcoh0 ;;
  Returned (mkState nd Lcoh0 E_GeV B0 g0 m0 n0 (g0 * B0) 0
                    mzeros mzeros mzeros mzeros
                    0 0 0 0 0 0 0 0 0).

Section WithDeltas.

Variable deltas : DeltaProvider.

(** [__setDeltas]: the six terms of the mixing matrix.  The quotient under
    [arctan] stands for that of the source where [Dpar0 <> Da0]; at
    [Dpar0 = Da0] the source raises [ZeroDivisionError] (Python floats) or
    computes with an infinity or NaN (numpy scalars), which [alph0] does
    not describe. *)
Definition __setDeltas (s : state) : state :=
  let Dperp0 := Delta_pl_kpc deltas (n s) (E s) + 2 * Delta_QED_kpc deltas (B s) (E s) in
  let Dpar0 := Delta_pl_kpc deltas (n s) (E s) + 3.5 * Delta_QED_kpc deltas (B s) (E s) in
  let Dag0 := Delta_ag_kpc deltas (g s) (B s) in
  let Da0 := Delta_a_kpc deltas (m s) (E s) in
  let alph0 := 0.5 * atan (2 * Dag0 / (Dpar0 - Da0)) in
  let Dosc0 := sqrt ((Dpar0 - Da0) ^ 2 + 4 * Dag0 ^ 2) in
  mkState (Nd s) (Lcoh s) (E s) (B s) (g s) (m s) (n s) (xi s) (Psin s)
          (T1 s) (T2 s) (T3 s) (Un s)
          Dperp0 Dpar0 Dag0 Da0 alph0 Dosc0 (EW1 s) (EW2 s) (EW3 s).

(** [__setEW]: the three eigenvalues. *)
Definition __setEW (s : state) : state :=
  let s := __setDeltas s in
  mkState (Nd s) (Lcoh s) (E s) (B s) (g s) (m s) (n s) (xi s) (Psin s)
          (T1 s) (T2 s) (T3 s) (Un s)
          (Dperp s) (Dpar s) (Dag s) (Da s) (alph s) (Dosc s)
          (Dperp s)
          (0.5 * (Dpar s + Da s - Dosc s))
          (0.5 * (Dpar s + Da s + Dosc s)).

(** [__setT1n]: four entries of the shared array [self.T1] are assigned,
    the other five keep what they held. *)
Definition __setT1n (self : state) : state :=
  let c := cos (Psin self) in
  let s := sin (Psin self) in
  let t := T1 self in
  let t := mset t I0 I0 (RtoC (c * c)) in
  let t := mset t I0 I1 (RtoC (-1 * c * s)) in
  let t := mset t I1 I0 (mget t I0 I1) in
  let t := mset t I1 I1 (RtoC (s * s)) in
  set_T1 self t.

Definition __setT2n (self : state) : state :=
  let c := cos (Psin self) in
  let s := sin (Psin self) in
  let ca := cos (alph self) in
  let sa := sin (alph self) in
  let t := T2 self in
  let t := mset t I0 I0 (RtoC (s * s * sa * sa)) in
  let t := mset t I0 I1 (RtoC (s * c * sa * sa)) in
  let t := mset t I0 I2 (RtoC (-1 * s * sa * ca)) in
  let t := mset t I1 I0 (mget t I0 I1) in
  let t := mset t I1 I1 (RtoC (c * c * sa * sa)) in
  let t := mset t I1 I2 (RtoC (-1 * c * ca * sa)) in
  let t := mset t I2 I0 (mget t I0 I2) in
  let t := mset t I2 I1 (mget t I1 I2) in
  let t := mset t I2 I2 (RtoC (ca * ca)) in
  set_T2 self t.

Definition __setT3n (self : state) : state :=
  let c := cos (Psin self) in
  let s := sin (Psin self) in
  let ca := cos (alph self) in
  let sa := sin (alph self) in
  let t := T3 self in
  let t := mset t I0 I0 (RtoC (s * s * ca * ca)) in
  let t := mset t I0 I1 (RtoC (s * c * ca * ca)) in
  let t := mset t I0 I2 (RtoC (s * sa * ca)) in
  let t := mset t I1 I0 (mget t I0 I1) in
  let t := mset t I1 I1 (RtoC (c * c * ca * ca)) in
  let t := mset t I1 I2 (RtoC (c * sa * ca)) in
  let t := mset t I2 I0 (mget t I0 I2) in
  let t := mset t I2 I1 (mget t I1 I2) in
  let t := mset t I2 I2 (RtoC (sa * sa)) in
  set_T3 self t.

(** [__setUn]: a fresh array is bound to [self.Un]. *)
Definition __setUn (self : state) : state :=
  set_Un self
    (madd (madd (mscale (Cexp (Ci * EW1 self * Lcoh self)%C) (T1 self))
                (mscale (Cexp (Ci * EW2 self * Lcoh self)%C) (T2 self)))
          (mscale (Cexp (Ci * EW3 self * Lcoh self)%C) (T3 self))).

(** [SetDomainN()] *)
Definition SetDomainN (self : state) : state * Mat :=
  let self := __setEW self in
  let self := __setT1n self in
  let self := __setT2n self in
  let self := __setT3n self in
  let self := __setUn self in
  (self, Un self).

End WithDeltas.

End PhotALPs_ICM.

(** ** The galactic field, the coordinates and the quadrature *)

Definition vec3 : Type := (R * R * R)%type.

Definition vadd (u v : vec3) : vec3 :=
  let '(u0, u1, u2) := u in
  let '(v0, v1, v2) := v in
  (u0 + v0, u1 + v1, u2 + v2).

(** [gmf.GMF], [gmf.trafo] and [kapteyn.wcs], as far as the class calls them. *)
Record FieldModel : Type := mkField {
  rho_HC2GC : R -> R -> R -> R -> R;
  phi_HC2GC : R -> R -> R -> R -> R;
  z_HC2GC : R -> R -> R -> R -> R;
  Bdisk : R -> R -> R -> vec3;            (* [Bdisk(rho,phi,z)[0]] *)
  Bhalo : R -> R -> vec3;                 (* [Bhalo(rho,z)[0]] *)
  BX : R -> R -> vec3;                    (* [BX(rho,z)[0]] *)
  GC2HCproj : vec3 -> R -> R -> R -> R -> vec3;
  transform : R -> R -> R * R             (* equatorial to galactic *) }.

(** [numpy.linspace(start, stop, num, endpoint)].  A negative [num] is
    refused with [ValueError]. *)
Definition linspace (start stop : R) (num : Z) (endpoint : bool) : outcome (list R) :=
  if (num <? 0)%Z then Raised ValueError
  else if (endpoint && (num =? 1)%Z)%bool then Returned [start]
  else
    let div := if endpoint then IZR (num - 1) else IZR num in
    let step := (stop - start) / div in
    Returned (map (fun i : nat => start + INR i * step) (seq 0 (Z.to_nat num))).

(** The order of numpy on complex scalars: by real part, then by imaginary
    part. *)
Definition Cgtb (a b : C) : bool :=
  if Rgt_dec (re a) (re b) then true
  else if Req_dec_T (re a) (re b) then
         (if Rgt_dec (im a) (im b) then true else false)
       else false.

(** [x[mask]] *)
Fixpoint select {A : Type} (mask : list bool) (x : list A) : list A :=
  match mask, x with
  | b :: mask', a :: x' => if b then a :: select mask' x' else select mask' x'
  | _, _ => []
  end.

(** The limit above which perturbation theory is not valid. *)
Definition pertubation : R := 0.10.

(** A call of [warnings.warn]: the component, the value and the position
    its message is formatted from. *)
Inductive warning : Type :=
| Large_Delta_ag_t (v s : R)
| Large_Delta_ag_u (v s : R).

Definition is_t_warning (w : warning) : bool :=
  match w with Large_Delta_ag_t _ _ => true | Large_Delta_ag_u _ _ => false end.

Definition is_u_warning (w : warning) : bool :=
  match w with Large_Delta_ag_t _ _ => false | Large_Delta_ag_u _ _ => true end.

(** ** class PhotALPs_GMF(PhotALPs_ICM): conversion in the galactic field *)

Module PhotALPs_GMF.

(** The attributes the subclass adds to those of [PhotALPs_ICM]. *)
Record state : Type := mkState {
  icm : PhotALPs_ICM.state;
  l : R; b : R; smax : R;
  pol_t : R; pol_u : R;
  rho_max : R; zmax : R; galactic : R; d : R }.

Definition set_icm (s : state) (v : PhotALPs_ICM.state) : state :=
  mkState v (l s) (b s) (smax s) (pol_t s) (pol_u s) (rho_max s) (zmax s) (galactic s) (d s).
Definition set_lb (s : state) (v : R * R) : state :=
  mkState (icm s) (fst v) (snd v) (smax s) (pol_t s) (pol_u s) (rho_max s) (zmax s) (galactic s) (d s).
Definition set_smax (s : state) (v : R) : state :=
  mkState (icm s) (l s) (b s) v (pol_t s) (pol_u s) (rho_max s) (zmax s) (galactic s) (d s).
Definition set_pol_t (s : state) (v : R) : state :=
  mkState (icm s) (l s) (b s) (smax s) v (pol_u s) (rho_max s) (zmax s) (galactic s) (d s).
Definition set_pol_u (s : state) (v : R) : state :=
  mkState (icm s) (l s) (b s) (smax s) (pol_t s) v (rho_max s) (zmax s) (galactic s) (d s).
Definition set_E (s : state) (v : R) : state := set_icm s (PhotALPs_ICM.set_E (icm s) v).
Definition set_B (s : state) (v : R) : state := set_icm s (PhotALPs_ICM.set_B (icm s) v).
Definition set_Psin (s : state) (v : R) : state := set_icm s (PhotALPs_ICM.set_Psin (icm s) v).

(** What [Pag_TM] returns: the three channels, or the one projection on
    [pol_final]. *)
Inductive TM_result : Type :=
| Channels (Pt Pu Pa : C)
| Projected (P : C).

(** [__init__(pol_t, pol_u, g, m, n, galactic, rho_max, zmax, d, Lcoh)]: the
    superclass is initialised with its defaults [B = 1.],
    [r_abell = 1500.*h] and [E_GeV = 1000.]; then [self.E = 0.]. *)
Definition init (h pol_t0 pol_u0 g0 m0 n0 galactic0 rho_max0 zmax0 d0 Lcoh0 : R)
  : outcome state :=
  base <- PhotALPs_ICM.init Lcoh0 1 (1500 * h) 1000 g0 m0 n0 ;;
  Returned (mkState (PhotALPs_ICM.set_E base 0) 0 0 0 pol_t0 pol_u0
                    rho_max0 zmax0 galactic0 d0).

Section WithCollaborators.

Variable deltas : DeltaProvider.
Variable field : FieldModel.
(** [scipy.integrate.simps(y, x)] *)
Variable simps : list R -> list R -> R.

(** [set_coordinates(ra, dec)].  For an extragalactic source the two
    quotients stand for those of the source where [sin b] and [cos b] are
    not zero (numpy yields an infinity there) and the radicand is not
    negative. *)
Definition set_coordinates (self : state) (ra dec : R) : state :=
  let self := set_lb self (transform field ra dec) in
  let d0 := d self in
  if Rlt_dec (galactic self) 0 then
    let cl := cos (l self) in
    let cb := cos (b self) in
    let sb := sin (b self) in
    set_smax self
      (Rmin (zmax self / Rabs sb)
            (1 / Rabs cb * (- d0 * cl + sqrt (d0 ^ 2 + cl ^ 2 - d0 ^ 2 * cb + rho_max self ^ 2))))
  else set_smax self (galactic self).

(** [Bgmf_calc(s, l, b)]: the field and its strength; a zero [l] or [b]
    stands for the instance's own. *)
Definition Bgmf_calc (self : state) (s l0 b0 : R) : vec3 * R :=
  let l0 := if Req_dec_T l0 0 then l self else l0 in
  let b0 := if Req_dec_T b0 0 then b self else b0 in
  let rho := rho_HC2GC field s l0 b0 (d self) in
  let phi := phi_HC2GC field s l0 b0 (d self) in
  let z := z_HC2GC field s l0 b0 (d self) in
  let Bv := Bdisk field rho phi z in
  let Bv := vadd Bv (Bhalo field rho z) in
  let Bv := vadd Bv (BX field rho z) in
  let '(B0, B1, B2) := Bv in
  (Bv, sqrt (B0 ^ 2 + B1 ^ 2 + B2 ^ 2)).

(** [int(self.smax/self.Lcoh)], the number of cells.  [self.smax] is a
    Python float when the source is galactic and a numpy scalar otherwise:
    at a zero [Lcoh] the quotient raises in the first case, and is infinite
    or NaN in the second, which [int] refuses. *)
Definition cells (self : state) : outcome Z :=
  if Req_dec_T (PhotALPs_ICM.Lcoh (icm self)) 0 then
    if Rlt_dec (galactic self) 0 then
      if Req_dec_T (smax self) 0 then Raised ValueError else Raised OverflowError
    else Raised ZeroDivisionError
  else Returned (py_int (smax self / PhotALPs_ICM.Lcoh (icm self))).

(** One sample of the loop of [integrate_los]: the two kernels and the
    warnings raised at position [s].  ([HC_base] and the vector [Btrans]
    are computed by the source and read nowhere.) *)
Definition los_sample (self : state) (s : R) : C * C * list warning :=
  let '(Bv, Babs) := Bgmf_calc self s 0 0 in
  let '(Bs, Bt, Bu) := GC2HCproj field Bv s (l self) (b self) (d self) in
  let Btrans_abs := sqrt (Bt ^ 2 + Bu ^ 2) in
  let g0 := PhotALPs_ICM.g (icm self) in
  let E0 := PhotALPs_ICM.E (icm self) in
  let Delta_ag_t := Delta_ag_kpc deltas g0 Bt in
  let Delta_ag_u := Delta_ag_kpc deltas g0 Bu in
  let wt := if Rgt_dec Delta_ag_t pertubation then [Large_Delta_ag_t Delta_ag_t s] else [] in
  let wu := if Rgt_dec Delta_ag_u pertubation then [Large_Delta_ag_u Delta_ag_u s] else [] in
  let Delta_a := Delta_a_kpc deltas (PhotALPs_ICM.m (icm self)) E0 in
  let Delta_perp := Delta_pl_kpc deltas (PhotALPs_ICM.n (icm self)) E0
                    + 2 * Delta_QED_kpc deltas Btrans_abs E0 in
  let Delta_par := Delta_pl_kpc deltas (PhotALPs_ICM.n (icm self)) E0
                   + 3.5 * Delta_QED_kpc deltas Btrans_abs E0 in
  (Delta_ag_t * Cexp (Ci * s * (Delta_a - Delta_perp)%R),
   Delta_ag_u * Cexp (Ci * s * (Delta_a - Delta_par)%R),
   wt ++ wu)%C.

(** The quadrature of one kernel over the samples that pass the mask. *)
Definition los_integral (kernel : list C) (sa : list R) : C :=
  let mask := map (fun k => Cgtb (k * Cconj k)%C (RtoC 1e-20)) kernel in
  if existsb (fun x => x) mask then
    (RtoC (simps (map re (select mask kernel)) (select mask sa))
     + Ci * RtoC (simps (map im (select mask kernel)) (select mask sa)))%C
  else RtoC 0.

(** [integrate_los()]: the three integrals, and the warnings in the order
    they were raised. *)
Definition integrate_los (self : state) : outcome (R * R * R * list warning) :=
  num <- cells self ;;
  sa <- linspace 0 (smax self) num true ;;
  let samples := map (los_sample self) sa in
  let kernel_t := map (fun x => fst (fst x)) samples in
  let kernel_u := map (fun x => snd (fst x)) samples in
  let warned := flat_map (fun x => snd x) samples in
  let I_t := los_integral kernel_t sa in
  let I_u := los_integral kernel_u sa in
  Returned (re (I_t * Cconj I_t)%C, re (I_u * Cconj I_u)%C, re (Cconj I_u * I_t)%C, warned).

(** [Pag(E, ra, dec, pol_t, pol_u)] *)
Definition Pag (self : state) (E ra dec pol_t0 pol_u0 : R)
  : outcome (state * R * list warning) :=
  let self := set_coordinates self ra dec in
  let self := set_E self E in
  let self := if Rgt_dec pol_t0 0 then set_pol_t self pol_t0 else self in
  let self := if Rgt_dec pol_u0 0 then set_pol_u self pol_u0 else self in
  r <- integrate_los self ;;
  let '(It, Iu, ItIu, warned) := r in
  Returned (self, pol_t self ^ 2 * It + pol_u self ^ 2 * Iu, warned).

(** The head of the loop body of [Pag_TM]: the transverse field at [s] and
    its angle. *)
Definition set_domain (self : state) (s : R) : state :=
  let '(Bv, Babs) := Bgmf_calc self s 0 0 in
  let '(Bs, Bt, Bu) := GC2HCproj field Bv s (l self) (b self) (d self) in
  let self := set_B self (sqrt (Bt ^ 2 + Bu ^ 2)) in
  if Req_dec_T (PhotALPs_ICM.B (icm self)) 0 then set_Psin self 0
  else
    let self := set_Psin self (acos (Bt / PhotALPs_ICM.B (icm self))) in
    if Rlt_dec Bu 0 then set_Psin self (2 * PI - PhotALPs_ICM.Psin (icm self))
    else self.

(** The loop body of [Pag_TM]:
    [U = np.dot(U, super(PhotALPs_GMF,self).SetDomainN())]. *)
Definition Pag_TM_step (acc : state * Mat) (s : R) : state * Mat :=
  let self := set_domain (fst acc) s in
  let '(base, Un) := PhotALPs_ICM.SetDomainN deltas (icm self) in
  (set_icm self base, mdot (snd acc) Un).

Definition Pag_TM_loop (self : state) (sa : list R) (U : Mat) : state * Mat :=
  fold_left Pag_TM_step sa (self, U).

(** [Tr(pol_x U pol U^dagger)] *)
Definition channel (pol_x U pol : Mat) : C :=
  mtrace (mdot pol_x (mdot U (mdot pol (mdagger U)))).

(** [Pag_TM(E, ra, dec, pol, pol_final)] *)
Definition Pag_TM (self : state) (E ra dec : R) (pol : Mat) (pol_final : option Mat)
  : outcome (state * TM_result) :=
  let self := set_coordinates self ra dec in
  let self := set_E self E in
  num <- cells self ;;
  sa <- linspace (smax self) 0 num false ;;
  let U := meye in
  let pol_t0 := mset mzeros I0 I0 (m00 mzeros + 1)%C in
  let pol_u0 := mset mzeros I1 I1 (m11 mzeros + 1)%C in
  let pol_a0 := mset mzeros I2 I2 (m22 mzeros + 1)%C in
  let '(self, U) := Pag_TM_loop self sa U in
  match pol_final with
  | None =>
      Returned (self, Channels (channel pol_t0 U pol) (channel pol_u0 U pol)
                               (channel pol_a0 U pol))
  | Some pf => Returned (self, Projected (channel pf U pol))
  end.

(** The transfer matrices [SetDomainN] returns along the loop of [Pag_TM],
    in the order of the cells. *)
Fixpoint domain_matrices (self : state) (sa : list R) : list Mat :=
  match sa with
  | [] => []
  | s :: sa' =>
      let self := set_domain self s in
      let '(base, Un) := PhotALPs_ICM.SetDomainN deltas (icm self) in
      Un :: domain_matrices (set_icm self base) sa'
  end.

End WithCollaborators.

End PhotALPs_GMF.

(** The ordered product [A1 . A2 . ... . An] of a list of matrices. *)
Fixpoint mprod (Us : list Mat) : Mat :=
  match Us with
  | [] => meye
  | A :: Us' => mdot A (mprod Us')
  end.

(** The number of maximal runs of consecutive [true] in a mask. *)
Fixpoint regions (mask : list bool) : nat :=
  match mask with
  | [] => O
  | true :: ((true :: _) as rest) => regions rest
  | true :: rest => S (regions rest)
  | false :: rest => regions rest
  end.

(** ** Closed forms of the basis matrices of [PhotALPs_ICM]

    With [c], [s] the cosine and sine of the field angle and [ca], [sa]
    those of the mixing angle, the arrays [__setT1n], [__setT2n] and
    [__setT3n] leave in [T1], [T2] and [T3]. *)

Definition basis1 (c s : R) : Mat :=
  mkMat (RtoC (c * c)) (RtoC (-1 * c * s)) (RtoC 0)
        (RtoC (-1 * c * s)) (RtoC (s * s)) (RtoC 0)
        (RtoC 0) (RtoC 0) (RtoC 0).

Definition basis2 (c s ca sa : R) : Mat :=
  mkMat (RtoC (s * s * sa * sa)) (RtoC (s * c * sa * sa)) (RtoC (-1 * s * sa * ca))
        (RtoC (s * c * sa * sa)) (RtoC (c * c * sa * sa)) (RtoC (-1 * c * ca * sa))
        (RtoC (-1 * s * sa * ca)) (RtoC (-1 * c * ca * sa)) (RtoC (ca * ca)).

Definition basis3 (c s ca sa : R) : Mat :=
  mkMat (RtoC (s * s * ca * ca)) (RtoC (s * c * ca * ca)) (RtoC (s * sa * ca))
        (RtoC (s * c * ca * ca)) (RtoC (c * c * ca * ca)) (RtoC (c * sa * ca))
        (RtoC (s * sa * ca)) (RtoC (c * sa * ca)) (RtoC (sa * sa)).

(** ** Sample collaborators and instances

    A Delta provider with plasma term [n/E], coupling term [g*B], mass term
    [m/E] and no dispersive term, and the instances [__init__] returns for
    the arguments named beside them. *)

Definition sample_deltas : DeltaProvider :=
  mkDeltas (fun n E => n / E) (fun B E => 0) (fun g B => g * B) (fun m E => m / E).

(** [PhotALPs(Ldom1 = 5., xi = 1.)] *)
Definition sample_igm : PhotALPs.state := PhotALPs.init 5 1.

(** [PhotALPs_ICM(Lcoh = 10., B = 1., r_abell = 1500., E_GeV = 1000.,
    g = 1., m = 1., n = 1.)] *)
Definition sample_icm : PhotALPs_ICM.state :=
  PhotALPs_ICM.mkState 150 10 1000 1 1 1 1 (1 * 1) 0
                       mzeros mzeros mzeros mzeros 0 0 0 0 0 0 0 0 0.

(** An optical-depth table linear in redshift and energy. *)
Definition sample_tau : R -> R -> R := fun z E => z * E.

(** [PhotALPs(Ldom1 = 0., xi = 1.)]: domains of no length. *)
Definition flat_igm : PhotALPs.state := PhotALPs.init 0 1.

(** A path [Pag] and [Pag_TM] can walk: a cell size that is not zero and a
    number of cells that is not negative. *)
Definition path_ok (field : FieldModel) (self : PhotALPs_GMF.state) (ra dec : R) : Prop :=
  PhotALPs_ICM.Lcoh (PhotALPs_GMF.icm self) <> 0
  /\ (0 <= py_int (PhotALPs_GMF.smax (PhotALPs_GMF.set_coordinates field self ra dec)
                   / PhotALPs_ICM.Lcoh (PhotALPs_GMF.icm self)))%Z.

(** The domain matrix in closed form: three phases on the three basis
    matrices. *)
Definition Udomain (c s ca sa : R) (p1 p2 p3 : C) : Mat :=
  madd (madd (mscale p1 (basis1 c s)) (mscale p2 (basis2 c s ca sa)))
       (mscale p3 (basis3 c s ca sa)).

(** A field model whose transverse field, of strength one, points along the
    [t] axis beyond 1.5 kpc from the sun and along the [u] axis before: the
    radius is the distance, the field comes from the X component alone, and
    the projection permutes the components.  Coordinates are taken as
    already galactic. *)
Definition sample_field : FieldModel :=
  mkField (fun s l b d => s) (fun s l b d => 0) (fun s l b d => 0)
          (fun rho phi z => (0, 0, 0))
          (fun rho z => (0, 0, 0))
          (fun rho z => if Rle_dec 1.5 rho then (1, 0, 0) else (0, 1, 0))
          (fun Bv s l b d => let '(B0, B1, B2) := Bv in (B2, B0, B1))
          (fun ra dec => (ra, dec)).

(** The trapezoid rule, standing for the quadrature of scipy. *)
Fixpoint sample_simps (y x : list R) : R :=
  match y, x with
  | y0 :: ((y1 :: _) as y'), x0 :: ((x1 :: _) as x') =>
      (x1 - x0) * (y0 + y1) / 2 + sample_simps y' x'
  | _, _ => 0
  end.

(** [PhotALPs_GMF(g = 2 pi, m = 0., n = 3 pi, galactic = 2., Lcoh = 1.)]
    with [h = 0.72]: a source 2 kpc away, cells of 1 kpc. *)
Definition sample_gmf : PhotALPs_GMF.state :=
  PhotALPs_GMF.mkState
    (PhotALPs_ICM.mkState (1500 * 0.72 / 1) 1 0 1 (2 * PI) 0 (3 * PI) (2 * PI * 1) 0
                          mzeros mzeros mzeros mzeros 0 0 0 0 0 0 0 0 0)
    0 0 0 (1 / sqrt 2) (1 / sqrt 2) 20 50 2 (-8.5).

(** The state [Pag_TM(E = 1., ra = 0., dec = 0., ...)] walks the path from. *)
Definition sample_entry : PhotALPs_GMF.state :=
  PhotALPs_GMF.set_E (PhotALPs_GMF.set_coordinates sample_field sample_gmf 0 0) 1.

(** A Delta provider whose coupling term is fixed at [0.20]. *)
Definition strong_deltas : DeltaProvider :=
  mkDeltas (fun n E => n / E) (fun B E => 0) (fun g B => 0.20) (fun m E => m / E).

(** The samples of a path at which the [t] component of the coupling term
    exceeds the bound, as a mask. *)
Definition violates_t (deltas : DeltaProvider) (field : FieldModel)
  (self : PhotALPs_GMF.state) (s : R) : bool :=
  let '(Bv, Babs) := PhotALPs_GMF.Bgmf_calc field self s 0 0 in
  let '(Bs, Bt, Bu) := GC2HCproj field Bv s (PhotALPs_GMF.l self) (PhotALPs_GMF.b self)
                                 (PhotALPs_GMF.d self) in
  if Rgt_dec (Delta_ag_kpc deltas (PhotALPs_ICM.g (PhotALPs_GMF.icm self)) Bt) pertubation
  then true else false.

Definition violates_u (deltas : DeltaProvider) (field : FieldModel)
  (self : PhotALPs_GMF.state) (s : R) : bool :=
  let '(Bv, Babs) := PhotALPs_GMF.Bgmf_calc field self s 0 0 in
  let '(Bs, Bt, Bu) := GC2HCproj field Bv s (PhotALPs_GMF.l self) (PhotALPs_GMF.b self)
                                 (PhotALPs_GMF.d self) in
  if Rgt_dec (Delta_ag_kpc deltas (PhotALPs_ICM.g (PhotALPs_GMF.icm self)) Bu) pertubation
  then true else false.

(** What the instances along the sample path have in common. *)
Definition on_sample_path (x : PhotALPs_ICM.state) : Prop :=
  PhotALPs_ICM.g x = 2 * PI /\ PhotALPs_ICM.m x = 0 /\ PhotALPs_ICM.n x = 3 * PI
  /\ PhotALPs_ICM.E x = 1 /\ PhotALPs_ICM.Lcoh x = 1
  /\ T1_clean (PhotALPs_ICM.T1 x).

(** The mixing angle on the sample path. *)
Definition sample_alph : R := 0.5 * atan (4 / 3).

(** ** Further notions used to state properties of the code *)

(** [np.diag([a, b, c])] *)
Definition mdiag (a b c : C) : Mat :=
  mkMat a (RtoC 0) (RtoC 0) (RtoC 0) b (RtoC 0) (RtoC 0) (RtoC 0) c.

(** [A.transpose()] *)
Definition mtranspose (A : Mat) : Mat :=
  mkMat (m00 A) (m10 A) (m20 A) (m01 A) (m11 A) (m21 A) (m02 A) (m12 A) (m22 A).

(** The basis matrices [SetT2n] and [SetT3n] of [PhotALPs] leave in
    [self.T2] and [self.T3], from the sine and cosine of the field angle,
    the coupling term [d] and the discriminant [D]. *)
Definition igm_basis2 (c s d : R) (D : C) : Mat :=
  mkMat (0.5 * (1 + D) / D * s * s)%C (0.5 * (1 + D) / D * s * c)%C (- Ci * d / D * s)%C
        (0.5 * (1 + D) / D * s * c)%C (0.5 * (1 + D) / D * c * c)%C (- Ci * d / D * c)%C
        (- Ci * d / D * s)%C (- Ci * d / D * c)%C (0.5 * (-1 + D) / D)%C.

Definition igm_basis3 (c s d : R) (D : C) : Mat :=
  mkMat (0.5 * (-1 + D) / D * s * s)%C (0.5 * (-1 + D) / D * s * c)%C (Ci * d / D * s)%C
        (0.5 * (-1 + D) / D * s * c)%C (0.5 * (-1 + D) / D * c * c)%C (Ci * d / D * c)%C
        (Ci * d / D * s)%C (Ci * d / D * c)%C (0.5 * (1 + D) / D)%C.

Definition igm_basis1 (c s : R) : Mat :=
  mkMat (RtoC (c * c)) (RtoC (-1 * s * c)) (RtoC 0)
        (RtoC (-1 * s * c)) (RtoC (s * s)) (RtoC 0)
        (RtoC 0) (RtoC 0) (RtoC 0).

(** The assignment [self.Lcoh = L] on an instance of [PhotALPs_ICM]. *)
Definition with_Lcoh (s : PhotALPs_ICM.state) (L : R) : PhotALPs_ICM.state :=
  PhotALPs_ICM.mkState (PhotALPs_ICM.Nd s) L (PhotALPs_ICM.E s) (PhotALPs_ICM.B s)
    (PhotALPs_ICM.g s) (PhotALPs_ICM.m s) (PhotALPs_ICM.n s) (PhotALPs_ICM.xi s)
    (PhotALPs_ICM.Psin s)
    (PhotALPs_ICM.T1 s) (PhotALPs_ICM.T2 s) (PhotALPs_ICM.T3 s) (PhotALPs_ICM.Un s)
    (PhotALPs_ICM.Dperp s) (PhotALPs_ICM.Dpar s) (PhotALPs_ICM.Dag s) (PhotALPs_ICM.Da s)
    (PhotALPs_ICM.alph s) (PhotALPs_ICM.Dosc s)
    (PhotALPs_ICM.EW1 s) (PhotALPs_ICM.EW2 s) (PhotALPs_ICM.EW3 s).

(** A Hermitian array, as a density matrix is. *)
Definition hermitian (A : Mat) : Prop := mdagger A = A.

(** A transfer matrix that does not couple the photon block to the ALP. *)
Definition decoupled (U : Mat) : Prop :=
  m02 U = RtoC 0 /\ m12 U = RtoC 0 /\ m20 U = RtoC 0 /\ m21 U = RtoC 0
  /\ (m22 U * Cconj (m22 U))%C = RtoC 1.

(** The transverse components [(Bt, Bu)] of the galactic field at distance
    [s], as the loop bodies of [Pag_TM] and [integrate_los] compute them. *)
Definition transverse_field (field : FieldModel) (self : PhotALPs_GMF.state) (s : R) : R * R :=
  let '(Bv, Babs) := PhotALPs_GMF.Bgmf_calc field self s 0 0 in
  let '(Bs, Bt, Bu) := GC2HCproj field Bv s (PhotALPs_GMF.l self) (PhotALPs_GMF.b self)
                                 (PhotALPs_GMF.d self) in
  (Bt, Bu).

(** [PhotALPs_GMF(g = 2 pi, m = 0., n = 3 pi, galactic = 2., Lcoh = 4.)]:
    a source 2 kpc away, nearer than one cell of 4 kpc. *)
Definition near_gmf : PhotALPs_GMF.state :=
  PhotALPs_GMF.set_icm sample_gmf (with_Lcoh (PhotALPs_GMF.icm sample_gmf) 4).

(** A Delta provider whose coupling term is fixed at [1e-11], below what
    [integrate_los] takes into account. *)
Definition faint_deltas : DeltaProvider :=
  mkDeltas (fun n E => n / E) (fun B E => 0) (fun g B => 1e-11) (fun m E => m / E).

(** Two instances of [PhotALPs_GMF] with the same geometry, weights, cell
    size, energy and ALP parameters: they differ at most in the field
    strength and angle of the current cell and in the arrays and
    eigenvalues [SetDomainN] computes from them. *)
Definition same_parameters (x y : PhotALPs_GMF.state) : Prop :=
  PhotALPs_GMF.l x = PhotALPs_GMF.l y /\ PhotALPs_GMF.b x = PhotALPs_GMF.b y
  /\ PhotALPs_GMF.smax x = PhotALPs_GMF.smax y
  /\ PhotALPs_GMF.pol_t x = PhotALPs_GMF.pol_t y
  /\ PhotALPs_GMF.pol_u x = PhotALPs_GMF.pol_u y
  /\ PhotALPs_GMF.rho_max x = PhotALPs_GMF.rho_max y
  /\ PhotALPs_GMF.zmax x = PhotALPs_GMF.zmax y
  /\ PhotALPs_GMF.galactic x = PhotALPs_GMF.galactic y
  /\ PhotALPs_GMF.d x = PhotALPs_GMF.d y
  /\ PhotALPs_ICM.Lcoh (PhotALPs_GMF.icm x) = PhotALPs_ICM.Lcoh (PhotALPs_GMF.icm y)
  /\ PhotALPs_ICM.E (PhotALPs_GMF.icm x) = PhotALPs_ICM.E (PhotALPs_GMF.icm y)
  /\ PhotALPs_ICM.g (PhotALPs_GMF.icm x) = PhotALPs_ICM.g (PhotALPs_GMF.icm y)
  /\ PhotALPs_ICM.m (PhotALPs_GMF.icm x) = PhotALPs_ICM.m (PhotALPs_GMF.icm y)
  /\ PhotALPs_ICM.n (PhotALPs_GMF.icm x) = PhotALPs_ICM.n (PhotALPs_GMF.icm y).

(** A Delta provider without photon-ALP coupling. *)
Definition free_deltas : DeltaProvider :=
  mkDeltas (fun n E => n / E) (fun B E => 0) (fun g B => 0) (fun m E => m / E).

(** An instance on which the coupling term vanishes for every field
    strength while the photon and ALP terms stay apart, so that the
    quotient under [arctan] in [__setDeltas] is a zero over a non-zero
    number. *)
Definition uncoupled (deltas : DeltaProvider) (x : PhotALPs_ICM.state) : Prop :=
  (forall B : R, Delta_ag_kpc deltas (PhotALPs_ICM.g x) B = 0)
  /\ (forall B : R,
        Delta_pl_kpc deltas (PhotALPs_ICM.n x) (PhotALPs_ICM.E x)
        + 3.5 * Delta_QED_kpc deltas B (PhotALPs_ICM.E x)
        <> Delta_a_kpc deltas (PhotALPs_ICM.m x) (PhotALPs_ICM.E x)).

(** A symmetric array: the amplitude from one state to another is the
    amplitude back. *)
Definition symmetric (A : Mat) : Prop := mtranspose A = A.

(** The mixing matrix of a photon-ALP beam in a transverse field at angle
    [psi] ([c], [s] its cosine and sine): the photon polarised along
    [(s, c)] has the term [Dpar] and couples to the ALP with [Dag], the
    polarisation along [(c, -s)] has the term [Dperp], the ALP has [Da]. *)
Definition mixing_matrix (c s Dperp Dpar Dag Da : R) : Mat :=
  mkMat (RtoC (Dperp * (c * c) + Dpar * (s * s))) (RtoC ((Dpar - Dperp) * (s * c)))
        (RtoC (Dag * s))
        (RtoC ((Dpar - Dperp) * (s * c))) (RtoC (Dperp * (s * s) + Dpar * (c * c)))
        (RtoC (Dag * c))
        (RtoC (Dag * s)) (RtoC (Dag * c)) (RtoC Da).

(** The generator of a domain matrix [sum_k exp(i EW_k L) T_k]: the
    combination [sum_k EW_k T_k] of its eigenvalues and basis matrices. *)
Definition generator (EW1 EW2 EW3 : C) (T1 T2 T3 : Mat) : Mat :=
  madd (madd (mscale EW1 T1) (mscale EW2 T2)) (mscale EW3 T3).

(** [PhotALPs_ICM(m = 0.)]: a massless ALP, so that the photon term exceeds
    the ALP term. *)
Definition light_icm : PhotALPs_ICM.state :=
  PhotALPs_ICM.mkState 150 10 1000 1 1 0 1 (1 * 1) 0
                       mzeros mzeros mzeros mzeros 0 0 0 0 0 0 0 0 0.

(** The matrix of absorption and mixing of the intergalactic variant: both
    photon polarisations are absorbed with mean free path [mfn], the ALP is
    not, and the polarisation along [(s, c)] couples to the ALP with the
    term [d / (2 mfn)]. *)
Definition absorption_matrix (c s mfn d : R) : Mat :=
  mkMat (RtoC (- 1 / (2 * mfn))) (RtoC 0) (Ci * RtoC (d / (2 * mfn)) * RtoC s)%C
        (RtoC 0) (RtoC (- 1 / (2 * mfn))) (Ci * RtoC (d / (2 * mfn)) * RtoC c)%C
        (Ci * RtoC (d / (2 * mfn)) * RtoC s)%C (Ci * RtoC (d / (2 * mfn)) * RtoC c)%C
        (RtoC 0).

(** ** [Tau_Giorgio(z, E)]: a fit to the optical depth

    [E] is multiplied by [1e12] first; [np.log10] is the logarithm to base
    ten and [x ** y] on positive floats is [Rpower].  The function is
    meant for a redshift [z >= 0] and an energy [E > 0], where the base
    [0.999 + z] and the argument of the logarithm are positive. *)
Definition Tau_Giorgio (z E : R) : R :=
  let a00 := 29072.8078002930 in
  let a01 := -12189.9033508301 in
  let a02 := 2032.30382537842 in
  let a03 := -168.504407882690 in
  let a04 := 6.95066644996405 in
  let a05 := -0.114138037664816 in
  let E := E * 1e12 in
  let anomal := 1003.34072943900 + 1744.79443325556 * z
                + -3950.79983395431 * z ^ 2 + 3095.04470168520 * z ^ 3 in
  let power := ln (E / Rpower (0.999 + z) (-0.6)) / ln 10 in
  anomal * z * Rpower 10 (a00 + a01 * power + a02 * power ^ 2
                          + a03 * power ^ 3 + a04 * power ^ 4 + a05 * power ^ 5).

(** The exponent of ten in [Tau_Giorgio]: a polynomial of degree five in
    the decimal logarithm of the energy. *)
Definition Tau_Giorgio_exponent (z E : R) : R :=
  let power := ln (E * 1e12 / Rpower (0.999 + z) (-0.6)) / ln 10 in
  29072.8078002930 + -12189.9033508301 * power + 2032.30382537842 * power ^ 2
  + -168.504407882690 * power ^ 3 + 6.95066644996405 * power ^ 4
  + -0.114138037664816 * power ^ 5.

(** ** Where the mixing angle is defined

    The quotient [2 Dag / (Dpar - Da)] under [arctan] in [__setDeltas] has
    no value at [Dpar = Da]: on Python floats the source raises
    [ZeroDivisionError] there, on numpy scalars it yields an infinity (and
    a mixing angle of a quarter turn) or, at [Dag = 0], NaN.  The
    properties of the mixing angle and of what is computed from it are
    stated away from that point. *)

(** The photon term and the ALP term of an instance differ. *)
Definition mixing_defined (deltas : DeltaProvider) (x : PhotALPs_ICM.state) : Prop :=
  Delta_pl_kpc deltas (PhotALPs_ICM.n x) (PhotALPs_ICM.E x)
  + 3.5 * Delta_QED_kpc deltas (PhotALPs_ICM.B x) (PhotALPs_ICM.E x)
  <> Delta_a_kpc deltas (PhotALPs_ICM.m x) (PhotALPs_ICM.E x).

(** They differ at energy [E] for every strength of the transverse field,
    hence in every cell of every path. *)
Definition off_resonance (deltas : DeltaProvider) (x : PhotALPs_ICM.state) (E : R) : Prop :=
  forall B : R,
    Delta_pl_kpc deltas (PhotALPs_ICM.n x) E + 3.5 * Delta_QED_kpc deltas B E
    <> Delta_a_kpc deltas (PhotALPs_ICM.m x) E.

(** * Properties *)

(** ** Complex scalars form a commutative ring *)

Lemma C_eq (a b : C) : re a = re b -> im a = im b -> a = b.
Proof. destruct a, b; simpl; intros; subst; reflexivity. Qed.

Lemma C_ring : ring_theory (RtoC 0) (RtoC 1) Cadd Cmul Csub Copp eq.
Proof. constructor; intros; apply C_eq; simpl; ring. Qed.

Add Ring Cring : C_ring.

Lemma RtoC_inj (x y : R) : RtoC x = RtoC y -> x = y.
Proof. intros H; apply (f_equal re) in H; exact H. Qed.

Lemma RtoC_add (x y : R) : RtoC (x + y) = (RtoC x + RtoC y)%C.
Proof. apply C_eq; simpl; ring. Qed.

Lemma RtoC_plus_0j (x : R) : (RtoC x + 0 * Ci)%C = RtoC x.
Proof. apply C_eq; simpl; ring. Qed.

Lemma Cnorm2_nonzero (a : C) : a <> RtoC 0 -> Cnorm2 a <> 0.
Proof.
  intros Ha Hn; apply Ha; destruct a as [x y]; unfold Cnorm2 in Hn; simpl in Hn.
  assert (x = 0) by nra; assert (y = 0) by nra; subst; reflexivity.
Qed.

Lemma Cinv_r (a : C) : a <> RtoC 0 -> (a * Cinv a)%C = RtoC 1.
Proof.
  intros Ha; pose proof (Cnorm2_nonzero a Ha) as Hn.
  destruct a as [x y]; unfold Cnorm2 in *; simpl in *.
  apply C_eq; simpl; unfold Cnorm2; simpl; field; exact Hn.
Qed.

Lemma Cconj_mul (a b : C) : Cconj (a * b) = (Cconj a * Cconj b)%C.
Proof. apply C_eq; simpl; ring. Qed.

Lemma Cconj_add (a b : C) : Cconj (a + b) = (Cconj a + Cconj b)%C.
Proof. apply C_eq; simpl; ring. Qed.

Lemma Cconj_RtoC (x : R) : Cconj (RtoC x) = RtoC x.
Proof. apply C_eq; simpl; ring. Qed.

(** A purely imaginary exponent gives a phase of modulus one. *)
Lemma Cexp_phase (a : C) : re a = 0 -> (Cexp a * Cconj (Cexp a))%C = RtoC 1.
Proof.
  intros Ha; unfold Cexp; rewrite Ha, exp_0.
  pose proof (sin2_cos2 (im a)) as H; unfold Rsqr in H.
  apply C_eq; simpl; nra.
Qed.

Lemma re_i_times (x y : R) : re (Ci * x * y)%C = 0.
Proof. simpl; ring. Qed.

Lemma im_i_times (x y : R) : im (Ci * x * y)%C = x * y.
Proof. simpl; ring. Qed.

(** The principal square root on the real axis. *)
Lemma Csqrt_real_nonneg (x : R) : 0 <= x -> Csqrt (RtoC x) = RtoC (sqrt x).
Proof.
  intros Hx; unfold Csqrt, Cnorm2; simpl.
  replace (x * x + 0 * 0) with (x * x) by ring.
  rewrite sqrt_square by exact Hx.
  destruct (Rle_dec 0 0) as [_ | n0]; [| exfalso; apply n0; lra].
  apply C_eq; simpl.
  - f_equal; lra.
  - replace ((x - x) / 2) with 0 by lra. rewrite sqrt_0; ring.
Qed.

Lemma Csqrt_real_neg (x : R) : x < 0 -> Csqrt (RtoC x) = mkC 0 (sqrt (- x)).
Proof.
  intros Hx; unfold Csqrt, Cnorm2; simpl.
  replace (x * x + 0 * 0) with ((- x) * (- x)) by ring.
  rewrite sqrt_square by lra.
  destruct (Rle_dec 0 0) as [_ | n0]; [| exfalso; apply n0; lra].
  apply C_eq; simpl.
  - replace ((- x + x) / 2) with 0 by lra. apply sqrt_0.
  - replace ((- x - x) / 2) with (- x) by lra. ring.
Qed.

(** ** Algebra of 3x3 arrays *)

Ltac mat_ring :=
  repeat match goal with A : Mat |- _ => destruct A end;
  cbv [mdot madd msub mscale mdagger mtrace meye mzeros
       m00 m01 m02 m10 m11 m12 m20 m21 m22];
  first [ ring | f_equal; ring ].

Lemma mdot_assoc (A B D : Mat) : mdot (mdot A B) D = mdot A (mdot B D).
Proof. mat_ring. Qed.

Lemma mdot_meye_l (A : Mat) : mdot meye A = A.
Proof. mat_ring. Qed.

Lemma mdot_meye_r (A : Mat) : mdot A meye = A.
Proof. mat_ring. Qed.

Lemma mdagger_mdot (A B : Mat) : mdagger (mdot A B) = mdot (mdagger B) (mdagger A).
Proof.
  destruct A, B; cbv [mdot mdagger m00 m01 m02 m10 m11 m12 m20 m21 m22].
  rewrite !Cconj_add, !Cconj_mul; f_equal; ring.
Qed.

Lemma mdagger_meye : mdagger meye = meye.
Proof. unfold mdagger, meye; simpl; rewrite !Cconj_RtoC; reflexivity. Qed.

Lemma mtrace_mdot_comm (A B : Mat) : mtrace (mdot A B) = mtrace (mdot B A).
Proof. mat_ring. Qed.

Lemma unitary_meye : unitary meye.
Proof. unfold unitary; rewrite mdagger_meye, mdot_meye_l; split; reflexivity. Qed.

Lemma unitary_mdot (A B : Mat) : unitary A -> unitary B -> unitary (mdot A B).
Proof.
  intros [HA1 HA2] [HB1 HB2]; unfold unitary; rewrite mdagger_mdot; split.
  - rewrite mdot_assoc, <- (mdot_assoc B), HB1, mdot_meye_l; exact HA1.
  - rewrite mdot_assoc, <- (mdot_assoc (mdagger A)), HA2, mdot_meye_l; exact HB2.
Qed.

Lemma unitary_mprod (Us : list Mat) : Forall unitary Us -> unitary (mprod Us).
Proof.
  induction 1 as [| A Us HA _ IH]; simpl.
  - exact unitary_meye.
  - apply unitary_mdot; assumption.
Qed.

(** A unitary operator leaves the trace of a density matrix unchanged. *)
Lemma mtrace_conjugation (U rho : Mat) :
  unitary U -> mtrace (mdot U (mdot rho (mdagger U))) = mtrace rho.
Proof.
  intros [_ HU].
  rewrite mtrace_mdot_comm, mdot_assoc, HU, mdot_meye_r; reflexivity.
Qed.

(** The product of two combinations of three matrices, term by term. *)
Lemma mdot_combination (a1 a2 a3 b1 b2 b3 : C) (A1 A2 A3 B1 B2 B3 : Mat) :
  mdot (madd (madd (mscale a1 A1) (mscale a2 A2)) (mscale a3 A3))
       (madd (madd (mscale b1 B1) (mscale b2 B2)) (mscale b3 B3))
  = madd (madd (madd (madd (mscale (a1 * b1) (mdot A1 B1)) (mscale (a2 * b2) (mdot A2 B2)))
                     (mscale (a3 * b3) (mdot A3 B3)))
               (madd (madd (mscale (a1 * b2) (mdot A1 B2)) (mscale (a1 * b3) (mdot A1 B3)))
                     (mscale (a2 * b1) (mdot A2 B1))))
         (madd (madd (mscale (a2 * b3) (mdot A2 B3)) (mscale (a3 * b1) (mdot A3 B1)))
               (mscale (a3 * b2) (mdot A3 B2))).
Proof. mat_ring. Qed.

Lemma mdagger_combination (a1 a2 a3 : C) (A1 A2 A3 : Mat) :
  mdagger (madd (madd (mscale a1 A1) (mscale a2 A2)) (mscale a3 A3))
  = madd (madd (mscale (Cconj a1) (mdagger A1)) (mscale (Cconj a2) (mdagger A2)))
         (mscale (Cconj a3) (mdagger A3)).
Proof.
  destruct A1, A2, A3;
    cbv [madd mscale mdagger m00 m01 m02 m10 m11 m12 m20 m21 m22].
  rewrite !Cconj_add, !Cconj_mul; reflexivity.
Qed.

(** Three self-adjoint, mutually orthogonal projectors that sum to the
    identity, weighted by three phases, make a unitary operator. *)
Lemma combination_of_projectors (a1 a2 a3 : C) (P1 P2 P3 : Mat) :
  a1 = RtoC 1 -> a2 = RtoC 1 -> a3 = RtoC 1 ->
  forall k12 k13 k21 k23 k31 k32 : C,
  madd (madd (madd (madd (mscale a1 P1) (mscale a2 P2)) (mscale a3 P3))
             (madd (madd (mscale k12 mzeros) (mscale k13 mzeros)) (mscale k21 mzeros)))
       (madd (madd (mscale k23 mzeros) (mscale k31 mzeros)) (mscale k32 mzeros))
  = madd (madd P1 P2) P3.
Proof. intros -> -> -> k12 k13 k21 k23 k31 k32. mat_ring. Qed.

Lemma spectral_unitary (P1 P2 P3 : Mat) (p1 p2 p3 : C) :
  mdagger P1 = P1 -> mdagger P2 = P2 -> mdagger P3 = P3 ->
  mdot P1 P1 = P1 -> mdot P2 P2 = P2 -> mdot P3 P3 = P3 ->
  mdot P1 P2 = mzeros -> mdot P1 P3 = mzeros -> mdot P2 P1 = mzeros ->
  mdot P2 P3 = mzeros -> mdot P3 P1 = mzeros -> mdot P3 P2 = mzeros ->
  madd (madd P1 P2) P3 = meye ->
  (p1 * Cconj p1)%C = RtoC 1 -> (p2 * Cconj p2)%C = RtoC 1 -> (p3 * Cconj p3)%C = RtoC 1 ->
  unitary (madd (madd (mscale p1 P1) (mscale p2 P2)) (mscale p3 P3)).
Proof.
  intros H1 H2 H3 H11 H22 H33 H12 H13 H21 H23 H31 H32 Hsum Hp1 Hp2 Hp3.
  assert (Hq1 : (Cconj p1 * p1)%C = RtoC 1) by (rewrite <- Hp1; ring).
  assert (Hq2 : (Cconj p2 * p2)%C = RtoC 1) by (rewrite <- Hp2; ring).
  assert (Hq3 : (Cconj p3 * p3)%C = RtoC 1) by (rewrite <- Hp3; ring).
  unfold unitary; rewrite mdagger_combination, H1, H2, H3, !mdot_combination.
  rewrite H11, H22, H33, H12, H13, H21, H23, H31, H32, <- Hsum.
  split; apply combination_of_projectors; assumption.
Qed.

(** ** The basis matrices of [PhotALPs_ICM] are orthogonal projectors *)

Ltac real_entries :=
  cbv [mdot madd mdagger mzeros meye basis1 basis2 basis3
       m00 m01 m02 m10 m11 m12 m20 m21 m22];
  f_equal; apply C_eq; simpl; nsatz.

Section Projectors.

Variables c s ca sa : R.
Hypothesis Hcs : c * c + s * s = 1.
Hypothesis Ha : ca * ca + sa * sa = 1.

Lemma proj1_dagger : mdagger (basis1 c s) = basis1 c s.
Proof. real_entries. Qed.

Lemma proj2_dagger : mdagger (basis2 c s ca sa) = basis2 c s ca sa.
Proof. real_entries. Qed.

Lemma proj3_dagger : mdagger (basis3 c s ca sa) = basis3 c s ca sa.
Proof. real_entries. Qed.

Lemma proj11 : mdot (basis1 c s) (basis1 c s) = basis1 c s.
Proof. real_entries. Qed.

Lemma proj22 : mdot (basis2 c s ca sa) (basis2 c s ca sa) = basis2 c s ca sa.
Proof. real_entries. Qed.

Lemma proj33 : mdot (basis3 c s ca sa) (basis3 c s ca sa) = basis3 c s ca sa.
Proof. real_entries. Qed.

Lemma proj12 : mdot (basis1 c s) (basis2 c s ca sa) = mzeros.
Proof. real_entries. Qed.

Lemma proj13 : mdot (basis1 c s) (basis3 c s ca sa) = mzeros.
Proof. real_entries. Qed.

Lemma proj21 : mdot (basis2 c s ca sa) (basis1 c s) = mzeros.
Proof. real_entries. Qed.

Lemma proj23 : mdot (basis2 c s ca sa) (basis3 c s ca sa) = mzeros.
Proof. real_entries. Qed.

Lemma proj31 : mdot (basis3 c s ca sa) (basis1 c s) = mzeros.
Proof. real_entries. Qed.

Lemma proj32 : mdot (basis3 c s ca sa) (basis2 c s ca sa) = mzeros.
Proof. real_entries. Qed.

Lemma proj_sum : madd (madd (basis1 c s) (basis2 c s ca sa)) (basis3 c s ca sa) = meye.
Proof. real_entries. Qed.

Lemma proj_combination_unitary (p1 p2 p3 : C) :
  (p1 * Cconj p1)%C = RtoC 1 -> (p2 * Cconj p2)%C = RtoC 1 -> (p3 * Cconj p3)%C = RtoC 1 ->
  unitary (madd (madd (mscale p1 (basis1 c s)) (mscale p2 (basis2 c s ca sa)))
                (mscale p3 (basis3 c s ca sa))).
Proof.
  intros; apply spectral_unitary;
    auto using proj1_dagger, proj2_dagger, proj3_dagger, proj11, proj22, proj33,
               proj12, proj13, proj21, proj23, proj31, proj32, proj_sum.
Qed.

End Projectors.

Lemma cos_sin_unit (x : R) : cos x * cos x + sin x * sin x = 1.
Proof. pose proof (sin2_cos2 x) as H; unfold Rsqr in H; lra. Qed.

(** ** The domain matrix of [PhotALPs_ICM] *)

Lemma T1_clean_mzeros : T1_clean mzeros.
Proof. repeat split. Qed.

Lemma T1_clean_proj1 (c s : R) : T1_clean (basis1 c s).
Proof. repeat split. Qed.

Lemma icm_basis_closed (self : PhotALPs_ICM.state) :
  T1_clean (PhotALPs_ICM.T1 self) ->
  let self' := PhotALPs_ICM.__setT3n (PhotALPs_ICM.__setT2n (PhotALPs_ICM.__setT1n self)) in
  let c := cos (PhotALPs_ICM.Psin self) in
  let s := sin (PhotALPs_ICM.Psin self) in
  let ca := cos (PhotALPs_ICM.alph self) in
  let sa := sin (PhotALPs_ICM.alph self) in
  PhotALPs_ICM.T1 self' = basis1 c s
  /\ PhotALPs_ICM.T2 self' = basis2 c s ca sa
  /\ PhotALPs_ICM.T3 self' = basis3 c s ca sa.
Proof.
  intros (H02 & H12 & H20 & H21 & H22).
  destruct self as [? ? ? ? ? ? ? ? ? t1 ? ? ? ? ? ? ? ? ? ? ? ?].
  destruct t1; simpl in *; subst.
  repeat split.
Qed.

(** The basis setters leave the eigenvalues and the cell size alone, and
    [__setEW] leaves the angle, the cell size and [T1] alone. *)
Lemma icm_basis_frame (x : PhotALPs_ICM.state) :
  let x' := PhotALPs_ICM.__setT3n (PhotALPs_ICM.__setT2n (PhotALPs_ICM.__setT1n x)) in
  PhotALPs_ICM.EW1 x' = PhotALPs_ICM.EW1 x /\ PhotALPs_ICM.EW2 x' = PhotALPs_ICM.EW2 x
  /\ PhotALPs_ICM.EW3 x' = PhotALPs_ICM.EW3 x /\ PhotALPs_ICM.Lcoh x' = PhotALPs_ICM.Lcoh x.
Proof. destruct x; repeat split. Qed.

Lemma icm_setEW_frame (deltas : DeltaProvider) (x : PhotALPs_ICM.state) :
  PhotALPs_ICM.Psin (PhotALPs_ICM.__setEW deltas x) = PhotALPs_ICM.Psin x
  /\ PhotALPs_ICM.Lcoh (PhotALPs_ICM.__setEW deltas x) = PhotALPs_ICM.Lcoh x
  /\ PhotALPs_ICM.T1 (PhotALPs_ICM.__setEW deltas x) = PhotALPs_ICM.T1 x.
Proof. destruct x; repeat split. Qed.

Lemma icm_SetDomainN_unfold (deltas : DeltaProvider) (self : PhotALPs_ICM.state) :
  let x := PhotALPs_ICM.__setT3n (PhotALPs_ICM.__setT2n (PhotALPs_ICM.__setT1n
             (PhotALPs_ICM.__setEW deltas self))) in
  PhotALPs_ICM.SetDomainN deltas self
  = (PhotALPs_ICM.__setUn x,
     madd (madd (mscale (Cexp (Ci * PhotALPs_ICM.EW1 x * PhotALPs_ICM.Lcoh x)%C) (PhotALPs_ICM.T1 x))
                (mscale (Cexp (Ci * PhotALPs_ICM.EW2 x * PhotALPs_ICM.Lcoh x)%C) (PhotALPs_ICM.T2 x)))
          (mscale (Cexp (Ci * PhotALPs_ICM.EW3 x * PhotALPs_ICM.Lcoh x)%C) (PhotALPs_ICM.T3 x))).
Proof. reflexivity. Qed.

Lemma icm_setUn_T1 (x : PhotALPs_ICM.state) :
  PhotALPs_ICM.T1 (PhotALPs_ICM.__setUn x) = PhotALPs_ICM.T1 x.
Proof. destruct x; reflexivity. Qed.

(** What [SetDomainN] returns, in closed form. *)
Lemma icm_SetDomainN_closed (deltas : DeltaProvider) (self : PhotALPs_ICM.state) :
  T1_clean (PhotALPs_ICM.T1 self) ->
  let e := PhotALPs_ICM.__setEW deltas self in
  let c := cos (PhotALPs_ICM.Psin self) in
  let s := sin (PhotALPs_ICM.Psin self) in
  let ca := cos (PhotALPs_ICM.alph e) in
  let sa := sin (PhotALPs_ICM.alph e) in
  let L := PhotALPs_ICM.Lcoh self in
  snd (PhotALPs_ICM.SetDomainN deltas self)
  = madd (madd (mscale (Cexp (Ci * PhotALPs_ICM.EW1 e * L)%C) (basis1 c s))
               (mscale (Cexp (Ci * PhotALPs_ICM.EW2 e * L)%C) (basis2 c s ca sa)))
         (mscale (Cexp (Ci * PhotALPs_ICM.EW3 e * L)%C) (basis3 c s ca sa))
  /\ PhotALPs_ICM.T1 (fst (PhotALPs_ICM.SetDomainN deltas self)) = basis1 c s.
Proof.
  intros Hclean e c s ca sa L; subst c s ca sa L.
  destruct (icm_setEW_frame deltas self) as (FP & FL & FT).
  fold e in FP, FL, FT.
  assert (He : T1_clean (PhotALPs_ICM.T1 e)) by (rewrite FT; exact Hclean).
  pose proof (icm_basis_closed e He) as (E1 & E2 & E3); cbv zeta in E1, E2, E3.
  pose proof (icm_basis_frame e) as (F1 & F2 & F3 & F4); cbv zeta in F1, F2, F3, F4.
  rewrite icm_SetDomainN_unfold; cbv zeta; fold e.
  unfold fst, snd.
  rewrite icm_setUn_T1, E1, E2, E3, F1, F2, F3, F4, FP, FL.
  split; reflexivity.
Qed.

Lemma icm_SetDomainN_unitary (deltas : DeltaProvider) (self : PhotALPs_ICM.state) :
  T1_clean (PhotALPs_ICM.T1 self) ->
  unitary (snd (PhotALPs_ICM.SetDomainN deltas self)).
Proof.
  intros Hclean.
  destruct (icm_SetDomainN_closed deltas self Hclean) as [-> _].
  apply proj_combination_unitary;
    try apply cos_sin_unit; apply Cexp_phase, re_i_times.
Qed.

Lemma icm_SetDomainN_clean (deltas : DeltaProvider) (self : PhotALPs_ICM.state) :
  T1_clean (PhotALPs_ICM.T1 self) ->
  T1_clean (PhotALPs_ICM.T1 (fst (PhotALPs_ICM.SetDomainN deltas self))).
Proof.
  intros Hclean.
  destruct (icm_SetDomainN_closed deltas self Hclean) as [_ ->].
  apply T1_clean_proj1.
Qed.

Lemma mnorm_zero_defect (U : Mat) :
  mdot U (mdagger U) = meye -> mnorm (msub (mdot U (mdagger U)) meye) = 0.
Proof.
  intros ->; unfold mnorm, msub, meye, Cnorm2; simpl.
  replace (_ + _) with 0 by ring. apply sqrt_0.
Qed.

Lemma sample_icm_init :
  PhotALPs_ICM.init 10 1 1500 1000 1 1 1 = Returned sample_icm.
Proof.
  unfold PhotALPs_ICM.init, pydiv.
  destruct (Req_dec_T 10 0) as [H | _]; [lra |].
  unfold bind, sample_icm; do 2 f_equal; lra.
Qed.

(** ** The basis matrices of [PhotALPs] *)

Lemma igm_basis_sum (self : PhotALPs.state) :
  T1_clean (PhotALPs.T1 self) -> PhotALPs.Dn self <> RtoC 0 ->
  let self' := PhotALPs.SetT3n (PhotALPs.SetT2n (PhotALPs.SetT1n self)) in
  madd (madd (PhotALPs.T1 self') (PhotALPs.T2 self')) (PhotALPs.T3 self') = meye.
Proof.
  intros (H02 & H12 & H20 & H21 & H22) HD.
  pose proof (Cinv_r _ HD) as Hinv.
  pose proof (cos_sin_unit (PhotALPs.Psin self)) as Hsc.
  destruct self as [? ? ? ? ? ? ? ? psi d ? ? ? D ? t1 ? ? ?].
  destruct t1; simpl in *; subst.
  cbv [madd meye m00 m01 m02 m10 m11 m12 m20 m21 m22 Cdiv].
  set (i := Cinv D) in *; set (s := sin psi) in *; set (c := cos psi) in *.
  destruct D as [x y], i as [u v].
  apply (f_equal re) in Hinv as Hre; apply (f_equal im) in Hinv as Him.
  simpl in Hre, Him.
  assert (exists h, h = 0.5 /\ 2 * h = 1) as (h & Hh & Hh2) by (exists 0.5; split; lra).
  rewrite <- !Hh; clear Hh.
  f_equal; apply C_eq; simpl; nsatz.
Qed.

Lemma icm_basis_sum (self : PhotALPs_ICM.state) :
  T1_clean (PhotALPs_ICM.T1 self) ->
  let self' := PhotALPs_ICM.__setT3n (PhotALPs_ICM.__setT2n (PhotALPs_ICM.__setT1n self)) in
  madd (madd (PhotALPs_ICM.T1 self') (PhotALPs_ICM.T2 self')) (PhotALPs_ICM.T3 self') = meye.
Proof.
  intros Hclean; destruct (icm_basis_closed self Hclean) as (E1 & E2 & E3).
  cbv zeta; rewrite E1, E2, E3.
  apply proj_sum; apply cos_sin_unit.
Qed.

(** C4.  For every field angle and every non-zero discriminant [D] (so for
    every pair [(d, D)] with [D = sqrt(1 - 4 d^2)] non-zero), the three
    basis matrices [SetT1n], [SetT2n], [SetT3n] of [PhotALPs] build sum to
    the identity; and for every field angle and every mixing angle alpha so
    do those [__setT1n], [__setT2n], [__setT3n] of [PhotALPs_ICM] build. *)
Theorem basis_matrices_sum_to_identity
  (igm : PhotALPs.state) (icm : PhotALPs_ICM.state) :
  T1_clean (PhotALPs.T1 igm) -> PhotALPs.Dn igm <> RtoC 0 ->
  T1_clean (PhotALPs_ICM.T1 icm) ->
  (let igm' := PhotALPs.SetT3n (PhotALPs.SetT2n (PhotALPs.SetT1n igm)) in
   madd (madd (PhotALPs.T1 igm') (PhotALPs.T2 igm')) (PhotALPs.T3 igm') = meye)
  /\ (let icm' := PhotALPs_ICM.__setT3n (PhotALPs_ICM.__setT2n (PhotALPs_ICM.__setT1n icm)) in
      madd (madd (PhotALPs_ICM.T1 icm') (PhotALPs_ICM.T2 icm')) (PhotALPs_ICM.T3 icm') = meye).
Proof.
  intros H1 HD H2; split.
  - apply igm_basis_sum; assumption.
  - apply icm_basis_sum; assumption.
Qed.

Lemma basis_matrices_sum_to_identity_witness :
  let igm := PhotALPs.set_Dn sample_igm (RtoC 1) in
  (let igm' := PhotALPs.SetT3n (PhotALPs.SetT2n (PhotALPs.SetT1n igm)) in
   madd (madd (PhotALPs.T1 igm') (PhotALPs.T2 igm')) (PhotALPs.T3 igm') = meye)
  /\ (let icm' := PhotALPs_ICM.__setT3n (PhotALPs_ICM.__setT2n
                    (PhotALPs_ICM.__setT1n sample_icm)) in
      madd (madd (PhotALPs_ICM.T1 icm') (PhotALPs_ICM.T2 icm')) (PhotALPs_ICM.T3 icm') = meye).
Proof.
  apply (basis_matrices_sum_to_identity (PhotALPs.set_Dn sample_igm (RtoC 1)) sample_icm).
  - repeat split.
  - intros H; apply RtoC_inj in H; lra.
  - repeat split.
Defined.

(** C2.  In the non-absorptive variant the three exponents
    [1.j * EW_k * Lcoh] of a domain are purely imaginary, and, wherever the
    mixing angle is defined ([Dpar <> Da]), the transfer matrix [U_n] that
    [SetDomainN] returns is unitary: [U_n . U_n^dagger] and
    [U_n^dagger . U_n] are the identity, so the norm of
    [U_n . U_n^dagger - I] is zero, below [1e-9]. *)
Theorem icm_domain_matrix_unitary
  (deltas : DeltaProvider) (self : PhotALPs_ICM.state) :
  T1_clean (PhotALPs_ICM.T1 self) ->
  mixing_defined deltas self ->
  let e := PhotALPs_ICM.__setEW deltas self in
  let U := snd (PhotALPs_ICM.SetDomainN deltas self) in
  re (Ci * PhotALPs_ICM.EW1 e * PhotALPs_ICM.Lcoh self)%C = 0
  /\ re (Ci * PhotALPs_ICM.EW2 e * PhotALPs_ICM.Lcoh self)%C = 0
  /\ re (Ci * PhotALPs_ICM.EW3 e * PhotALPs_ICM.Lcoh self)%C = 0
  /\ unitary U
  /\ mnorm (msub (mdot U (mdagger U)) meye) < 1e-9.
Proof.
  intros Hclean _ e U.
  pose proof (icm_SetDomainN_unitary deltas self Hclean) as HU.
  repeat split; try apply re_i_times; try apply HU.
  rewrite mnorm_zero_defect by apply HU; lra.
Qed.

Lemma light_icm_mixing_defined : mixing_defined sample_deltas light_icm.
Proof. unfold mixing_defined; simpl; lra. Qed.

Lemma icm_domain_matrix_unitary_witness :
  let U := snd (PhotALPs_ICM.SetDomainN sample_deltas light_icm) in
  unitary U /\ mnorm (msub (mdot U (mdagger U)) meye) < 1e-9.
Proof.
  assert (Hc : T1_clean (PhotALPs_ICM.T1 light_icm)) by (repeat split).
  exact (proj2 (proj2 (proj2 (icm_domain_matrix_unitary sample_deltas light_icm Hc
                                light_icm_mixing_defined)))).
Defined.

(** ** The domain of [PhotALPs] *)

(** Away from zero divisors [SetDomainN] returns, and the instance holds the
    quantities of the domain in closed form. *)
Lemma igm_SetDomainN_returns (opt_depth : R -> R -> R) (self : PhotALPs.state) (n : Z) :
  1 + 1.45 * (IZR n - 1) * PhotALPs.dz self <> 0 ->
  PhotALPs.mfn_at opt_depth self n <> 0 ->
  exists self' : PhotALPs.state,
    PhotALPs.SetDomainN opt_depth self n = Returned (self', PhotALPs.Un self')
    /\ PhotALPs.Ln self' = PhotALPs.Ln_of self n
    /\ PhotALPs.mfn_print self' = PhotALPs.mfn_at opt_depth self n
    /\ PhotALPs.dtau self' = PhotALPs.difftau_of opt_depth self n
    /\ PhotALPs.dn self' = PhotALPs.dn_of opt_depth self n
    /\ PhotALPs.Dn self' = Csqrt (RtoC (1 - 4 * PhotALPs.dn self' ^ 2))
    /\ PhotALPs.EW1n self' = -0.5 / PhotALPs.mfn_at opt_depth self n
    /\ PhotALPs.EW2n self'
       = (RtoC (-0.25 / PhotALPs.mfn_at opt_depth self n) * (1 + PhotALPs.Dn self'))%C
    /\ PhotALPs.EW3n self'
       = (RtoC (-0.25 / PhotALPs.mfn_at opt_depth self n) * (1 - PhotALPs.Dn self'))%C
    /\ PhotALPs.Un self'
       = madd (madd (mscale (RtoC (exp (PhotALPs.EW1n self' * PhotALPs.Ln self')))
                            (PhotALPs.T1 self'))
                    (mscale (Cexp (PhotALPs.EW2n self' * PhotALPs.Ln self')%C)
                            (PhotALPs.T2 self')))
              (mscale (Cexp (PhotALPs.EW3n self' * PhotALPs.Ln self')%C)
                      (PhotALPs.T3 self')).
Proof.
  intros Hden Hmfn.
  destruct self as [Ld xi dz E0 Nd z mp dt psi d e1 e2 e3 D L t1 t2 t3 u].
  unfold PhotALPs.mfn_at, PhotALPs.dn_of, PhotALPs.Ln_of, PhotALPs.difftau_of in *.
  unfold PhotALPs.SetDomainN, pydiv.
  cbn [PhotALPs.dz PhotALPs.E0 PhotALPs.xi] in *.
  destruct (Req_dec_T (1 + 1.45 * (IZR n - 1) * dz) 0) as [H0 | _]; [contradiction |].
  cbn [bind PhotALPs.set_Ln PhotALPs.Ln].
  set (mfn := PhotALPs.mfn_of _ _) in *.
  destruct (Req_dec_T mfn 0) as [H0 | _]; [contradiction |].
  cbn [bind].
  eexists; split; [reflexivity |].
  cbn; rewrite RtoC_plus_0j.
  repeat split.
Qed.

Lemma igm_Ln_nonzero (self : PhotALPs.state) (n : Z) :
  PhotALPs.dz self <> 0 -> 1 + 1.45 * (IZR n - 1) * PhotALPs.dz self <> 0 ->
  PhotALPs.Ln_of self n <> 0.
Proof.
  intros Hdz Hden; unfold PhotALPs.Ln_of.
  intros H; apply Rmult_integral in H as [H | H].
  - lra.
  - apply Rinv_neq_0_compat in Hden; contradiction.
Qed.

Lemma mfn_of_nonzero (difftau Ln0 : R) : Ln0 <> 0 -> PhotALPs.mfn_of difftau Ln0 <> 0.
Proof.
  intros HL; unfold PhotALPs.mfn_of.
  destruct (Req_dec_T difftau 0) as [_ | Hd];
    intros H; apply Rmult_integral in H as [H | H]; try contradiction.
  - assert (/ 1e-20 <> 0) by (apply Rinv_neq_0_compat; lra); contradiction.
  - apply Rinv_neq_0_compat in Hd; contradiction.
Qed.

Lemma igm_mfn_nonzero (opt_depth : R -> R -> R) (self : PhotALPs.state) (n : Z) :
  PhotALPs.dz self <> 0 -> 1 + 1.45 * (IZR n - 1) * PhotALPs.dz self <> 0 ->
  PhotALPs.mfn_at opt_depth self n <> 0.
Proof.
  intros Hdz Hden; apply mfn_of_nonzero, igm_Ln_nonzero; assumption.
Qed.

(** C5.  In the absorption-inclusive variant, for every domain of non-zero
    length, [SetDomainN] returns and leaves in the instance the eigenvalues
    [EW1 = -1/(2 mfn)], [EW2 = -1/(4 mfn) (1+D)], [EW3 = -1/(4 mfn) (1-D)]
    with [D = sqrt(1 - 4 d^2)], and the transfer matrix
    [U_n = exp(EW1 L) T1 + exp(EW2 L) T2 + exp(EW3 L) T3] with [L] the
    length of the domain. *)
Theorem igm_eigenvalues_closed_form
  (opt_depth : R -> R -> R) (self : PhotALPs.state) (n : Z) :
  PhotALPs.dz self <> 0 ->
  1 + 1.45 * (IZR n - 1) * PhotALPs.dz self <> 0 ->
  exists self' : PhotALPs.state,
    PhotALPs.SetDomainN opt_depth self n = Returned (self', PhotALPs.Un self')
    /\ let mfn := PhotALPs.mfn_print self' in
       let d := PhotALPs.dn self' in
       let D := PhotALPs.Dn self' in
       let L := PhotALPs.Ln self' in
       mfn = PhotALPs.mfn_at opt_depth self n
       /\ L = 4.29e3 * PhotALPs.dz self / (1 + 1.45 * (IZR n - 1) * PhotALPs.dz self)
       /\ D = Csqrt (RtoC (1 - 4 * d ^ 2))
       /\ PhotALPs.EW1n self' = -1 / (2 * mfn)
       /\ PhotALPs.EW2n self' = (RtoC (-1 / (4 * mfn)) * (1 + D))%C
       /\ PhotALPs.EW3n self' = (RtoC (-1 / (4 * mfn)) * (1 - D))%C
       /\ PhotALPs.Un self'
          = madd (madd (mscale (RtoC (exp (PhotALPs.EW1n self' * L))) (PhotALPs.T1 self'))
                       (mscale (Cexp (PhotALPs.EW2n self' * L)%C) (PhotALPs.T2 self')))
                 (mscale (Cexp (PhotALPs.EW3n self' * L)%C) (PhotALPs.T3 self')).
Proof.
  intros Hdz Hden.
  pose proof (igm_mfn_nonzero opt_depth self n Hdz Hden) as Hmfn.
  destruct (igm_SetDomainN_returns opt_depth self n Hden Hmfn)
    as (self' & Hret & HL & Hm & _ & _ & HD & H1 & H2 & H3 & HU).
  exists self'; split; [exact Hret |]; cbv zeta.
  rewrite Hm, H1, H2, H3.
  repeat split; try assumption.
  - unfold Rdiv; rewrite Rinv_mult; lra.
  - do 2 f_equal; unfold Rdiv; rewrite Rinv_mult; lra.
  - do 2 f_equal; unfold Rdiv; rewrite Rinv_mult; lra.
  - rewrite HU, H1, H2, H3; reflexivity.
Qed.

Lemma sample_igm_dz : PhotALPs.dz sample_igm <> 0.
Proof. unfold sample_igm, PhotALPs.init; cbn [PhotALPs.dz]; lra. Qed.

Lemma sample_igm_den : 1 + 1.45 * (IZR 1 - 1) * PhotALPs.dz sample_igm <> 0.
Proof. unfold sample_igm, PhotALPs.init; cbn [PhotALPs.dz]; lra. Qed.

Lemma igm_eigenvalues_closed_form_witness :
  exists self' : PhotALPs.state,
    PhotALPs.SetDomainN sample_tau sample_igm 1 = Returned (self', PhotALPs.Un self')
    /\ PhotALPs.EW1n self' = -1 / (2 * PhotALPs.mfn_print self').
Proof.
  destruct (igm_eigenvalues_closed_form sample_tau sample_igm 1
              sample_igm_dz sample_igm_den)
    as (self' & Hret & _ & _ & _ & H1 & _).
  exists self'; split; [exact Hret | exact H1].
Defined.

(** ** The fallback for a zero optical-depth step *)

(** C6, as stated, fails on a domain of no length: with [Ldom1 = 0.] the
    optical-depth step of the first domain is zero, the fallback makes the
    mean free path [0./1e-20 = 0.], and [-0.5 / mfn] raises. *)
Lemma zero_length_domain_raises :
  PhotALPs.difftau_of sample_tau flat_igm 1 = 0
  /\ PhotALPs.SetDomainN sample_tau flat_igm 1 = Raised ZeroDivisionError.
Proof.
  split.
  - unfold PhotALPs.difftau_of, sample_tau, flat_igm, PhotALPs.init;
      cbn [PhotALPs.dz PhotALPs.E0]; lra.
  - unfold PhotALPs.SetDomainN, pydiv, flat_igm, PhotALPs.init.
    cbn [PhotALPs.dz PhotALPs.E0 PhotALPs.xi].
    destruct (Req_dec_T (1 + 1.45 * (IZR 1 - 1) * (1.17e-3 * 0 / 5)) 0) as [H | _]; [lra |].
    cbn [bind PhotALPs.set_Ln PhotALPs.Ln].
    set (mfn := PhotALPs.mfn_of _ _).
    assert (Hm : mfn = 0).
    { unfold mfn, PhotALPs.mfn_of, sample_tau.
      destruct (Req_dec_T _ 0) as [_ | H]; [lra | exfalso; apply H; lra]. }
    destruct (Req_dec_T mfn 0) as [_ | H]; [| contradiction].
    reflexivity.
Qed.

(** C6, amended.  For every domain of non-zero length whose optical-depth
    step is exactly zero, [SetDomainN] does not raise: the mean free path
    is the domain length divided by [1e-20], and the coupling term and the
    eigenvalues are computed from that value. *)
Theorem zero_difftau_fallback
  (opt_depth : R -> R -> R) (self : PhotALPs.state) (n : Z) :
  PhotALPs.dz self <> 0 ->
  1 + 1.45 * (IZR n - 1) * PhotALPs.dz self <> 0 ->
  PhotALPs.difftau_of opt_depth self n = 0 ->
  exists self' : PhotALPs.state,
    PhotALPs.SetDomainN opt_depth self n = Returned (self', PhotALPs.Un self')
    /\ PhotALPs.dtau self' = 0
    /\ PhotALPs.Ln self' = PhotALPs.Ln_of self n
    /\ PhotALPs.mfn_print self' = PhotALPs.Ln self' / 1e-20
    /\ PhotALPs.dn self'
       = 0.11 * PhotALPs.xi self * (PhotALPs.Ln self' / 1e-20)
         * (1 + (IZR n - 1) * PhotALPs.dz self) ^ 2
    /\ PhotALPs.EW1n self' = -0.5 / (PhotALPs.Ln self' / 1e-20).
Proof.
  intros Hdz Hden Htau.
  pose proof (igm_mfn_nonzero opt_depth self n Hdz Hden) as Hmfn.
  destruct (igm_SetDomainN_returns opt_depth self n Hden Hmfn)
    as (self' & Hret & HL & Hm & Ht & Hd & _ & H1 & _).
  assert (Hfall : PhotALPs.mfn_at opt_depth self n = PhotALPs.Ln_of self n / 1e-20).
  { unfold PhotALPs.mfn_at, PhotALPs.mfn_of; rewrite Htau.
    destruct (Req_dec_T 0 0) as [_ | H]; [reflexivity | exfalso; apply H; reflexivity]. }
  exists self'; split; [exact Hret |].
  rewrite Ht, Hm, Hd, H1, HL; unfold PhotALPs.dn_of; rewrite Hfall.
  repeat split; assumption.
Qed.

Lemma sample_igm_difftau : PhotALPs.difftau_of sample_tau sample_igm 1 = 0.
Proof.
  unfold PhotALPs.difftau_of, sample_tau, sample_igm, PhotALPs.init;
    cbn [PhotALPs.dz PhotALPs.E0]; lra.
Qed.

Lemma zero_difftau_fallback_witness :
  exists self' : PhotALPs.state,
    PhotALPs.SetDomainN sample_tau sample_igm 1 = Returned (self', PhotALPs.Un self')
    /\ PhotALPs.mfn_print self' = PhotALPs.Ln self' / 1e-20.
Proof.
  destruct (zero_difftau_fallback sample_tau sample_igm 1
              sample_igm_dz sample_igm_den sample_igm_difftau)
    as (self' & Hret & _ & _ & Hm & _).
  exists self'; split; [exact Hret | exact Hm].
Defined.

(** ** The discriminant *)

(** A coupling term above [0.5] needs a mean free path and a domain length
    that are not zero, so none of the float divisors of [SetDomainN] is
    zero (a quotient by zero is [0] in [R], and makes the term zero). *)
Lemma dn_of_large_divisors (opt_depth : R -> R -> R) (self : PhotALPs.state) (n : Z) :
  PhotALPs.dn_of opt_depth self n > 0.5 ->
  1 + 1.45 * (IZR n - 1) * PhotALPs.dz self <> 0
  /\ PhotALPs.mfn_at opt_depth self n <> 0.
Proof.
  intros Hd.
  assert (Hm : PhotALPs.mfn_at opt_depth self n <> 0).
  { intros H; unfold PhotALPs.dn_of in Hd; rewrite H in Hd; lra. }
  split; [| exact Hm].
  intros H; apply Hm; unfold PhotALPs.mfn_at, PhotALPs.Ln_of; rewrite H.
  rewrite Rdiv_0_r; unfold PhotALPs.mfn_of.
  destruct (Req_dec_T _ 0); lra.
Qed.

(** C7.  The discriminant is computed in complex arithmetic.  When the
    coupling term [d] of a domain exceeds [0.5], [SetDomainN] does not
    raise and stores the imaginary root [D = i sqrt(4 d^2 - 1)]; when [d]
    is zero (no coupling, [xi = 0]) it stores [D = 1] exactly; and the
    square root of [1 - 4*0^2 + 0j] is [1]. *)
Theorem discriminant_complex_branch
  (opt_depth : R -> R -> R) (self : PhotALPs.state) (n : Z) :
  (PhotALPs.dn_of opt_depth self n > 0.5 ->
   exists self' : PhotALPs.state,
     PhotALPs.SetDomainN opt_depth self n = Returned (self', PhotALPs.Un self')
     /\ PhotALPs.dn self' = PhotALPs.dn_of opt_depth self n
     /\ PhotALPs.Dn self' = mkC 0 (sqrt (4 * PhotALPs.dn self' ^ 2 - 1)))
  /\ (PhotALPs.dz self <> 0 -> 1 + 1.45 * (IZR n - 1) * PhotALPs.dz self <> 0 ->
      PhotALPs.xi self = 0 ->
      exists self' : PhotALPs.state,
        PhotALPs.SetDomainN opt_depth self n = Returned (self', PhotALPs.Un self')
        /\ PhotALPs.dn self' = 0
        /\ PhotALPs.Dn self' = RtoC 1)
  /\ Csqrt (RtoC (1 - 4 * 0 ^ 2) + 0 * Ci)%C = RtoC 1.
Proof.
  split; [| split].
  - intros Hd.
    destruct (dn_of_large_divisors opt_depth self n Hd) as (Hden & Hmfn).
    destruct (igm_SetDomainN_returns opt_depth self n Hden Hmfn)
      as (self' & Hret & _ & _ & _ & Hdn & HD & _).
    exists self'; repeat split; try assumption.
    rewrite HD, Hdn, Csqrt_real_neg by nra.
    f_equal; f_equal; ring.
  - intros Hdz Hden Hxi.
    pose proof (igm_mfn_nonzero opt_depth self n Hdz Hden) as Hmfn.
    destruct (igm_SetDomainN_returns opt_depth self n Hden Hmfn)
      as (self' & Hret & _ & _ & _ & Hdn & HD & _).
    assert (H0 : PhotALPs.dn self' = 0).
    { rewrite Hdn; unfold PhotALPs.dn_of; rewrite Hxi; ring. }
    exists self'; repeat split; try assumption.
    rewrite HD, H0, Csqrt_real_nonneg by lra.
    f_equal; replace (1 - 4 * 0 ^ 2) with 1 by ring; apply sqrt_1.
  - rewrite RtoC_plus_0j, Csqrt_real_nonneg by lra.
    f_equal; replace (1 - 4 * 0 ^ 2) with 1 by ring; apply sqrt_1.
Qed.

Lemma sample_igm_dn_large : PhotALPs.dn_of sample_tau sample_igm 1 > 0.5.
Proof.
  unfold PhotALPs.dn_of, PhotALPs.mfn_at; rewrite sample_igm_difftau.
  unfold PhotALPs.mfn_of, PhotALPs.Ln_of, sample_igm, PhotALPs.init.
  destruct (Req_dec_T 0 0) as [_ | H]; [| exfalso; apply H; reflexivity].
  cbn [PhotALPs.dz PhotALPs.xi]; lra.
Qed.

Lemma discriminant_complex_branch_witness :
  (exists self' : PhotALPs.state,
     PhotALPs.SetDomainN sample_tau sample_igm 1 = Returned (self', PhotALPs.Un self')
     /\ PhotALPs.dn self' = PhotALPs.dn_of sample_tau sample_igm 1
     /\ PhotALPs.Dn self' = mkC 0 (sqrt (4 * PhotALPs.dn self' ^ 2 - 1)))
  /\ (exists self' : PhotALPs.state,
        PhotALPs.SetDomainN sample_tau (PhotALPs.init 5 0) 1
        = Returned (self', PhotALPs.Un self')
        /\ PhotALPs.dn self' = 0
        /\ PhotALPs.Dn self' = RtoC 1).
Proof.
  split.
  - apply (proj1 (discriminant_complex_branch sample_tau sample_igm 1)).
    exact sample_igm_dn_large.
  - apply (proj1 (proj2 (discriminant_complex_branch sample_tau (PhotALPs.init 5 0) 1))).
    + exact sample_igm_dz.
    + exact sample_igm_den.
    + reflexivity.
Defined.

(** ** The domain chain of [Pag_TM] *)

Section Chain.

Variable deltas : DeltaProvider.
Variable field : FieldModel.

Lemma Pag_TM_step_eq (self : PhotALPs_GMF.state) (U : Mat) (s : R) :
  PhotALPs_GMF.Pag_TM_step deltas field (self, U) s
  = (PhotALPs_GMF.set_icm (PhotALPs_GMF.set_domain field self s)
       (fst (PhotALPs_ICM.SetDomainN deltas
               (PhotALPs_GMF.icm (PhotALPs_GMF.set_domain field self s)))),
     mdot U (snd (PhotALPs_ICM.SetDomainN deltas
                    (PhotALPs_GMF.icm (PhotALPs_GMF.set_domain field self s))))).
Proof.
  unfold PhotALPs_GMF.Pag_TM_step; cbn [fst snd].
  destruct (PhotALPs_ICM.SetDomainN deltas _) as [base Un]; reflexivity.
Qed.

Lemma Pag_TM_loop_cons (self : PhotALPs_GMF.state) (U : Mat) (s : R) (sa : list R) :
  PhotALPs_GMF.Pag_TM_loop deltas field self (s :: sa) U
  = PhotALPs_GMF.Pag_TM_loop deltas field
      (fst (PhotALPs_GMF.Pag_TM_step deltas field (self, U) s)) sa
      (snd (PhotALPs_GMF.Pag_TM_step deltas field (self, U) s)).
Proof.
  unfold PhotALPs_GMF.Pag_TM_loop; cbn [fold_left].
  destruct (PhotALPs_GMF.Pag_TM_step deltas field (self, U) s); reflexivity.
Qed.

Lemma domain_matrices_cons (self : PhotALPs_GMF.state) (s : R) (sa : list R) :
  PhotALPs_GMF.domain_matrices deltas field self (s :: sa)
  = snd (PhotALPs_ICM.SetDomainN deltas
           (PhotALPs_GMF.icm (PhotALPs_GMF.set_domain field self s)))
    :: PhotALPs_GMF.domain_matrices deltas field
         (fst (PhotALPs_GMF.Pag_TM_step deltas field (self, meye) s)) sa.
Proof.
  rewrite Pag_TM_step_eq; cbn [fst PhotALPs_GMF.domain_matrices].
  destruct (PhotALPs_ICM.SetDomainN deltas _) as [base Un]; reflexivity.
Qed.

Lemma Pag_TM_step_state (self : PhotALPs_GMF.state) (U V : Mat) (s : R) :
  fst (PhotALPs_GMF.Pag_TM_step deltas field (self, U) s)
  = fst (PhotALPs_GMF.Pag_TM_step deltas field (self, V) s).
Proof. rewrite !Pag_TM_step_eq; reflexivity. Qed.

(** The accumulator is the start value times the domain matrices in the
    order of the cells. *)
Lemma Pag_TM_loop_product (sa : list R) :
  forall (self : PhotALPs_GMF.state) (U : Mat),
    snd (PhotALPs_GMF.Pag_TM_loop deltas field self sa U)
    = mdot U (mprod (PhotALPs_GMF.domain_matrices deltas field self sa)).
Proof.
  induction sa as [| s sa IH]; intros self U.
  - cbn [PhotALPs_GMF.domain_matrices mprod]; rewrite mdot_meye_r; reflexivity.
  - rewrite Pag_TM_loop_cons, IH, domain_matrices_cons.
    rewrite (Pag_TM_step_state self U meye), Pag_TM_step_eq.
    cbn [snd mprod]; rewrite mdot_assoc; reflexivity.
Qed.

Lemma Pag_TM_loop_app (sa : list R) (s : R) (self : PhotALPs_GMF.state) (U : Mat) :
  PhotALPs_GMF.Pag_TM_loop deltas field self (sa ++ [s]) U
  = PhotALPs_GMF.Pag_TM_step deltas field
      (PhotALPs_GMF.Pag_TM_loop deltas field self sa U) s.
Proof. unfold PhotALPs_GMF.Pag_TM_loop; rewrite fold_left_app; reflexivity. Qed.

(** [set_domain] and the domain step keep the unassigned entries of [T1]
    clean. *)
Lemma set_domain_T1 (self : PhotALPs_GMF.state) (s : R) :
  PhotALPs_ICM.T1 (PhotALPs_GMF.icm (PhotALPs_GMF.set_domain field self s))
  = PhotALPs_ICM.T1 (PhotALPs_GMF.icm self).
Proof.
  unfold PhotALPs_GMF.set_domain.
  destruct (PhotALPs_GMF.Bgmf_calc field self s 0 0) as [Bv Babs].
  destruct (GC2HCproj field Bv s _ _ _) as [[Bs Bt] Bu].
  destruct self as [x ? ? ? ? ? ? ? ? ?]; destruct x.
  cbn [PhotALPs_GMF.set_B PhotALPs_GMF.set_icm PhotALPs_GMF.icm PhotALPs_ICM.set_B
       PhotALPs_ICM.B].
  destruct (Req_dec_T _ 0); [reflexivity |].
  destruct (Rlt_dec Bu 0); reflexivity.
Qed.

Lemma Pag_TM_step_clean (self : PhotALPs_GMF.state) (U : Mat) (s : R) :
  T1_clean (PhotALPs_ICM.T1 (PhotALPs_GMF.icm self)) ->
  T1_clean (PhotALPs_ICM.T1 (PhotALPs_GMF.icm
              (fst (PhotALPs_GMF.Pag_TM_step deltas field (self, U) s)))).
Proof.
  intros Hc; rewrite Pag_TM_step_eq; cbn [fst].
  destruct (PhotALPs_GMF.set_domain field self s) eqn:E.
  cbn [PhotALPs_GMF.set_icm PhotALPs_GMF.icm].
  apply icm_SetDomainN_clean.
  pose proof (set_domain_T1 self s) as H; rewrite E in H; cbn [PhotALPs_GMF.icm] in H.
  rewrite H; exact Hc.
Qed.

Lemma domain_matrices_unitary (sa : list R) :
  forall self : PhotALPs_GMF.state,
    T1_clean (PhotALPs_ICM.T1 (PhotALPs_GMF.icm self)) ->
    Forall unitary (PhotALPs_GMF.domain_matrices deltas field self sa).
Proof.
  induction sa as [| s sa IH]; intros self Hc.
  - constructor.
  - rewrite domain_matrices_cons; constructor.
    + apply icm_SetDomainN_unitary; rewrite set_domain_T1; exact Hc.
    + apply IH, Pag_TM_step_clean, Hc.
Qed.

Lemma Pag_TM_loop_unitary (sa : list R) (self : PhotALPs_GMF.state) :
  T1_clean (PhotALPs_ICM.T1 (PhotALPs_GMF.icm self)) ->
  unitary (snd (PhotALPs_GMF.Pag_TM_loop deltas field self sa meye)).
Proof.
  intros Hc; rewrite Pag_TM_loop_product, mdot_meye_l.
  apply unitary_mprod, domain_matrices_unitary, Hc.
Qed.

End Chain.

(** ** [Pag_TM] returns on a path it can walk *)

Lemma linspace_returns (start stop : R) (num : Z) (endpoint : bool) :
  (0 <= num)%Z -> exists sa : list R, linspace start stop num endpoint = Returned sa.
Proof.
  intros Hn; unfold linspace.
  destruct (Z.ltb_spec num 0) as [H | _]; [lia |].
  destruct (endpoint && (num =? 1)%Z)%bool; eexists; reflexivity.
Qed.

Lemma cells_returns (self : PhotALPs_GMF.state) :
  PhotALPs_ICM.Lcoh (PhotALPs_GMF.icm self) <> 0 ->
  PhotALPs_GMF.cells self
  = Returned (py_int (PhotALPs_GMF.smax self / PhotALPs_ICM.Lcoh (PhotALPs_GMF.icm self))).
Proof.
  intros HL; unfold PhotALPs_GMF.cells.
  destruct (Req_dec_T _ 0) as [H | _]; [contradiction | reflexivity].
Qed.

Lemma set_coordinates_icm (field : FieldModel) (self : PhotALPs_GMF.state) (ra dec : R) :
  PhotALPs_GMF.icm (PhotALPs_GMF.set_coordinates field self ra dec) = PhotALPs_GMF.icm self.
Proof.
  destruct self; unfold PhotALPs_GMF.set_coordinates.
  cbn [PhotALPs_GMF.set_lb PhotALPs_GMF.galactic].
  destruct (Rlt_dec _ 0); reflexivity.
Qed.

Lemma set_E_frame (self : PhotALPs_GMF.state) (E : R) :
  PhotALPs_GMF.smax (PhotALPs_GMF.set_E self E) = PhotALPs_GMF.smax self
  /\ PhotALPs_ICM.Lcoh (PhotALPs_GMF.icm (PhotALPs_GMF.set_E self E))
     = PhotALPs_ICM.Lcoh (PhotALPs_GMF.icm self)
  /\ PhotALPs_ICM.T1 (PhotALPs_GMF.icm (PhotALPs_GMF.set_E self E))
     = PhotALPs_ICM.T1 (PhotALPs_GMF.icm self)
  /\ PhotALPs_GMF.pol_t (PhotALPs_GMF.set_E self E) = PhotALPs_GMF.pol_t self
  /\ PhotALPs_GMF.pol_u (PhotALPs_GMF.set_E self E) = PhotALPs_GMF.pol_u self.
Proof. destruct self as [x ? ? ? ? ? ? ? ? ?]; destruct x; repeat split. Qed.

(** The state [Pag] and [Pag_TM] walk the path from. *)
Lemma entry_state_frame (field : FieldModel) (self : PhotALPs_GMF.state) (E ra dec : R) :
  let st := PhotALPs_GMF.set_E (PhotALPs_GMF.set_coordinates field self ra dec) E in
  PhotALPs_GMF.smax st = PhotALPs_GMF.smax (PhotALPs_GMF.set_coordinates field self ra dec)
  /\ PhotALPs_ICM.Lcoh (PhotALPs_GMF.icm st) = PhotALPs_ICM.Lcoh (PhotALPs_GMF.icm self)
  /\ PhotALPs_ICM.T1 (PhotALPs_GMF.icm st) = PhotALPs_ICM.T1 (PhotALPs_GMF.icm self).
Proof.
  cbv zeta.
  destruct (set_E_frame (PhotALPs_GMF.set_coordinates field self ra dec) E)
    as (H1 & H2 & H3 & _).
  rewrite H1, H2, H3, set_coordinates_icm; repeat split.
Qed.

Lemma entry_state_cells (field : FieldModel) (self : PhotALPs_GMF.state) (E ra dec : R) :
  path_ok field self ra dec ->
  let st := PhotALPs_GMF.set_E (PhotALPs_GMF.set_coordinates field self ra dec) E in
  exists num : Z,
    (0 <= num)%Z /\ PhotALPs_GMF.cells st = Returned num.
Proof.
  intros [HL Hn]; cbv zeta.
  destruct (entry_state_frame field self E ra dec) as (H1 & H2 & _); cbv zeta in H1, H2.
  rewrite cells_returns by (rewrite H2; exact HL).
  rewrite H1, H2; eexists; split; [exact Hn | reflexivity].
Qed.

(** The three channel projectors of [Pag_TM]. *)
Lemma channel_sum (U pol : Mat) :
  (PhotALPs_GMF.channel (mset mzeros I0 I0 (m00 mzeros + 1)%C) U pol
   + PhotALPs_GMF.channel (mset mzeros I1 I1 (m11 mzeros + 1)%C) U pol
   + PhotALPs_GMF.channel (mset mzeros I2 I2 (m22 mzeros + 1)%C) U pol)%C
  = mtrace (mdot U (mdot pol (mdagger U))).
Proof.
  destruct U, pol.
  cbv [PhotALPs_GMF.channel mtrace mdot mdagger mset mzeros
       m00 m01 m02 m10 m11 m12 m20 m21 m22].
  ring.
Qed.

Lemma Pag_TM_returns (deltas : DeltaProvider) (field : FieldModel)
  (self : PhotALPs_GMF.state) (E ra dec : R) (pol : Mat) :
  path_ok field self ra dec ->
  let st := PhotALPs_GMF.set_E (PhotALPs_GMF.set_coordinates field self ra dec) E in
  exists (num : Z) (sa : list R),
    PhotALPs_GMF.cells st = Returned num
    /\ linspace (PhotALPs_GMF.smax st) 0 num false = Returned sa
    /\ let U := snd (PhotALPs_GMF.Pag_TM_loop deltas field st sa meye) in
       PhotALPs_GMF.Pag_TM deltas field self E ra dec pol None
       = Returned (fst (PhotALPs_GMF.Pag_TM_loop deltas field st sa meye),
                   PhotALPs_GMF.Channels
                     (PhotALPs_GMF.channel (mset mzeros I0 I0 (m00 mzeros + 1)%C) U pol)
                     (PhotALPs_GMF.channel (mset mzeros I1 I1 (m11 mzeros + 1)%C) U pol)
                     (PhotALPs_GMF.channel (mset mzeros I2 I2 (m22 mzeros + 1)%C) U pol)).
Proof.
  intros Hok st.
  destruct (entry_state_cells field self E ra dec Hok) as (num & Hn & Hc); fold st in Hc.
  destruct (linspace_returns (PhotALPs_GMF.smax st) 0 num false Hn) as (sa & Hsa).
  exists num, sa; split; [exact Hc |]; split; [exact Hsa |].
  unfold PhotALPs_GMF.Pag_TM; cbv zeta; fold st.
  rewrite Hc; cbn [bind]; rewrite Hsa; cbn [bind].
  destruct (PhotALPs_GMF.Pag_TM_loop deltas field st sa meye) as [st' U]; reflexivity.
Qed.


(** C3, amended.  The accumulator of [Pag_TM] starts at the identity and
    each domain matrix is multiplied into it on the right,
    [U <- U . U_n]: after the cells [s_1 .. s_n] it is
    [U_1 . U_2 . ... . U_n]. *)
Theorem Pag_TM_accumulates_on_the_right
  (deltas : DeltaProvider) (field : FieldModel)
  (self : PhotALPs_GMF.state) (sa : list R) :
  snd (PhotALPs_GMF.Pag_TM_loop deltas field self sa meye)
  = mprod (PhotALPs_GMF.domain_matrices deltas field self sa)
  /\ forall s : R,
       let acc := PhotALPs_GMF.Pag_TM_loop deltas field self sa meye in
       let Un := snd (PhotALPs_ICM.SetDomainN deltas
                        (PhotALPs_GMF.icm (PhotALPs_GMF.set_domain field (fst acc) s))) in
       snd (PhotALPs_GMF.Pag_TM_loop deltas field self (sa ++ [s]) meye)
       = mdot (snd acc) Un.
Proof.
  split.
  - rewrite Pag_TM_loop_product, mdot_meye_l; reflexivity.
  - intros s; cbv zeta; rewrite Pag_TM_loop_app.
    destruct (PhotALPs_GMF.Pag_TM_loop deltas field self sa meye) as [st U].
    rewrite Pag_TM_step_eq; reflexivity.
Qed.

(** ** The sample path *)

Lemma Int_part_IZR (z : Z) : Int_part (IZR z) = z.
Proof.
  unfold Int_part.
  assert (H : (z + 1)%Z = up (IZR z)).
  { apply tech_up; rewrite plus_IZR; lra. }
  rewrite <- H; lia.
Qed.

Lemma py_int_IZR (z : Z) : (0 <= z)%Z -> py_int (IZR z) = z.
Proof.
  intros Hz; unfold py_int.
  destruct (Rle_dec 0 (IZR z)) as [_ | H].
  - apply Int_part_IZR.
  - exfalso; apply H; apply IZR_le in Hz; exact Hz.
Qed.

Lemma py_int_nonneg (x : R) : 0 <= x -> (0 <= py_int x)%Z.
Proof.
  intros Hx; unfold py_int.
  destruct (Rle_dec 0 x) as [_ | H]; [| contradiction].
  unfold Int_part.
  destruct (archimed x) as [Hup _].
  assert (0 < IZR (up x)) by lra.
  apply lt_IZR in H; lia.
Qed.

Lemma sample_gmf_init :
  PhotALPs_GMF.init 0.72 (1 / sqrt 2) (1 / sqrt 2) (2 * PI) 0 (3 * PI) 2 20 50 (-8.5) 1
  = Returned sample_gmf.
Proof.
  unfold PhotALPs_GMF.init, PhotALPs_ICM.init, pydiv.
  destruct (Req_dec_T 1 0) as [H | _]; [lra |].
  reflexivity.
Qed.

Lemma sample_smax (E ra dec : R) :
  PhotALPs_GMF.smax (PhotALPs_GMF.set_coordinates sample_field sample_gmf ra dec) = 2.
Proof.
  unfold PhotALPs_GMF.set_coordinates, sample_gmf.
  cbn [PhotALPs_GMF.set_lb PhotALPs_GMF.galactic].
  destruct (Rlt_dec 2 0) as [H | _]; [lra | reflexivity].
Qed.

Lemma sample_path_ok (ra dec : R) : path_ok sample_field sample_gmf ra dec.
Proof.
  unfold path_ok; rewrite (sample_smax 0).
  split.
  - cbn; lra.
  - apply py_int_nonneg; cbn; lra.
Qed.

Lemma sample_gmf_clean : T1_clean (PhotALPs_ICM.T1 (PhotALPs_GMF.icm sample_gmf)).
Proof. repeat split. Qed.

Lemma sample_gmf_off_resonance (E : R) :
  0 < E -> off_resonance sample_deltas (PhotALPs_GMF.icm sample_gmf) E.
Proof.
  intros HE B; cbn [sample_deltas Delta_pl_kpc Delta_QED_kpc Delta_a_kpc sample_gmf
                    PhotALPs_GMF.icm PhotALPs_ICM.n PhotALPs_ICM.m].
  pose proof PI_RGT_0 as Hpi.
  assert (Hq : 0 < 3 * PI / E) by (apply Rdiv_lt_0_compat; lra).
  unfold Rdiv at 2; rewrite Rmult_0_l; lra.
Qed.


Lemma sample_entry_on_path : on_sample_path (PhotALPs_GMF.icm sample_entry).
Proof.
  unfold sample_entry.
  destruct (set_E_frame (PhotALPs_GMF.set_coordinates sample_field sample_gmf 0 0) 1)
    as (_ & _ & HT & _).
  unfold on_sample_path; rewrite HT, !set_coordinates_icm.
  unfold PhotALPs_GMF.set_E; rewrite set_coordinates_icm.
  repeat split.
Qed.

(** The field and its angle in a cell of the sample path. *)
Lemma sample_set_domain (x : PhotALPs_GMF.state) (s : R) :
  let y := PhotALPs_GMF.icm (PhotALPs_GMF.set_domain sample_field x s) in
  PhotALPs_ICM.B y = 1
  /\ PhotALPs_ICM.Psin y = (if Rle_dec 1.5 s then 0 else PI / 2)
  /\ PhotALPs_ICM.g y = PhotALPs_ICM.g (PhotALPs_GMF.icm x)
  /\ PhotALPs_ICM.m y = PhotALPs_ICM.m (PhotALPs_GMF.icm x)
  /\ PhotALPs_ICM.n y = PhotALPs_ICM.n (PhotALPs_GMF.icm x)
  /\ PhotALPs_ICM.E y = PhotALPs_ICM.E (PhotALPs_GMF.icm x)
  /\ PhotALPs_ICM.Lcoh y = PhotALPs_ICM.Lcoh (PhotALPs_GMF.icm x)
  /\ PhotALPs_ICM.T1 y = PhotALPs_ICM.T1 (PhotALPs_GMF.icm x).
Proof.
  destruct x as [i ? ? ? ? ? ? ? ? ?]; destruct i.
  unfold PhotALPs_GMF.set_domain, PhotALPs_GMF.Bgmf_calc, sample_field.
  cbn [rho_HC2GC phi_HC2GC z_HC2GC Bdisk Bhalo BX GC2HCproj
       PhotALPs_GMF.l PhotALPs_GMF.b PhotALPs_GMF.d].
  destruct (Req_dec_T 0 0) as [_ | H]; [| exfalso; apply H; reflexivity].
  destruct (Rle_dec 1.5 s) as [Hs | Hs]; cbn [vadd].
  - assert (E1 : sqrt ((0 + 0 + 1) ^ 2 + (0 + 0 + 0) ^ 2) = 1).
    { replace ((0 + 0 + 1) ^ 2 + (0 + 0 + 0) ^ 2) with 1 by ring; apply sqrt_1. }
    cbn [PhotALPs_GMF.set_B PhotALPs_GMF.set_icm PhotALPs_GMF.icm PhotALPs_ICM.set_B
         PhotALPs_ICM.B].
    rewrite E1.
    destruct (Req_dec_T 1 0) as [H | _]; [lra |].
    destruct (Rlt_dec (0 + 0 + 0) 0) as [H | _]; [lra |].
    cbn [PhotALPs_GMF.set_Psin PhotALPs_GMF.set_icm PhotALPs_GMF.icm PhotALPs_ICM.set_Psin
         PhotALPs_ICM.B PhotALPs_ICM.Psin PhotALPs_ICM.g PhotALPs_ICM.m PhotALPs_ICM.n
         PhotALPs_ICM.E PhotALPs_ICM.Lcoh PhotALPs_ICM.T1].
    repeat split.
    replace ((0 + 0 + 1) / 1) with 1 by lra; apply acos_1.
  - assert (E1 : sqrt ((0 + 0 + 0) ^ 2 + (0 + 0 + 1) ^ 2) = 1).
    { replace ((0 + 0 + 0) ^ 2 + (0 + 0 + 1) ^ 2) with 1 by ring; apply sqrt_1. }
    cbn [PhotALPs_GMF.set_B PhotALPs_GMF.set_icm PhotALPs_GMF.icm PhotALPs_ICM.set_B
         PhotALPs_ICM.B].
    rewrite E1.
    destruct (Req_dec_T 1 0) as [H | _]; [lra |].
    destruct (Rlt_dec (0 + 0 + 1) 0) as [H | _]; [lra |].
    cbn [PhotALPs_GMF.set_Psin PhotALPs_GMF.set_icm PhotALPs_GMF.icm PhotALPs_ICM.set_Psin
         PhotALPs_ICM.B PhotALPs_ICM.Psin PhotALPs_ICM.g PhotALPs_ICM.m PhotALPs_ICM.n
         PhotALPs_ICM.E PhotALPs_ICM.Lcoh PhotALPs_ICM.T1].
    repeat split.
    replace ((0 + 0 + 0) / 1) with 0 by lra; apply acos_0.
Qed.

(** The eigenvalues and the mixing angle on the sample path. *)
Lemma sample_setEW (y : PhotALPs_ICM.state) :
  PhotALPs_ICM.B y = 1 -> PhotALPs_ICM.g y = 2 * PI -> PhotALPs_ICM.m y = 0 ->
  PhotALPs_ICM.n y = 3 * PI -> PhotALPs_ICM.E y = 1 ->
  let e := PhotALPs_ICM.__setEW sample_deltas y in
  PhotALPs_ICM.alph e = sample_alph
  /\ PhotALPs_ICM.EW1 e = 3 * PI
  /\ PhotALPs_ICM.EW2 e = - PI
  /\ PhotALPs_ICM.EW3 e = 4 * PI.
Proof.
  destruct y; cbn [PhotALPs_ICM.B PhotALPs_ICM.g PhotALPs_ICM.m PhotALPs_ICM.n PhotALPs_ICM.E].
  intros -> -> -> -> ->.
  unfold PhotALPs_ICM.__setEW, PhotALPs_ICM.__setDeltas, sample_deltas.
  cbn [Delta_pl_kpc Delta_QED_kpc Delta_ag_kpc Delta_a_kpc
       PhotALPs_ICM.B PhotALPs_ICM.g PhotALPs_ICM.m PhotALPs_ICM.n PhotALPs_ICM.E
       PhotALPs_ICM.alph PhotALPs_ICM.EW1 PhotALPs_ICM.EW2 PhotALPs_ICM.EW3
       PhotALPs_ICM.Dperp PhotALPs_ICM.Dpar PhotALPs_ICM.Da PhotALPs_ICM.Dag
       PhotALPs_ICM.Dosc].
  pose proof PI_RGT_0 as Hpi.
  assert (Hosc : sqrt ((3 * PI / 1 + 3.5 * 0 - 0 / 1) ^ 2 + 4 * (2 * PI * 1) ^ 2) = 5 * PI).
  { apply sqrt_lem_1; nra. }
  rewrite Hosc.
  repeat split; try lra.
  unfold sample_alph; do 2 f_equal; field; lra.
Qed.

Lemma cos_3PI : cos (3 * PI) = -1.
Proof.
  replace (3 * PI) with (PI + 2 * INR 1 * PI) by (simpl; ring).
  rewrite cos_period; apply cos_PI.
Qed.

Lemma sin_3PI : sin (3 * PI) = 0.
Proof.
  replace (3 * PI) with (PI + 2 * INR 1 * PI) by (simpl; ring).
  rewrite sin_period; apply sin_PI.
Qed.

Lemma cos_4PI : cos (4 * PI) = 1.
Proof.
  replace (4 * PI) with (0 + 2 * INR 2 * PI) by (simpl; ring).
  rewrite cos_period; apply cos_0.
Qed.

Lemma sin_4PI : sin (4 * PI) = 0.
Proof.
  replace (4 * PI) with (0 + 2 * INR 2 * PI) by (simpl; ring).
  rewrite sin_period; apply sin_0.
Qed.

Lemma Cexp_i (x y : R) : Cexp (Ci * x * y)%C = mkC (cos (x * y)) (sin (x * y)).
Proof.
  unfold Cexp; rewrite re_i_times, im_i_times, exp_0; apply C_eq; simpl; ring.
Qed.

Lemma sample_phases :
  Cexp (Ci * (3 * PI)%R * 1%R)%C = RtoC (-1)
  /\ Cexp (Ci * (- PI)%R * 1%R)%C = RtoC (-1)
  /\ Cexp (Ci * (4 * PI)%R * 1%R)%C = RtoC 1.
Proof.
  rewrite !Cexp_i, !Rmult_1_r, cos_3PI, sin_3PI, cos_4PI, sin_4PI.
  rewrite cos_neg, sin_neg, cos_PI, sin_PI.
  repeat split; apply C_eq; simpl; lra.
Qed.

(** Twice the sample mixing angle has cosine 3/5 and sine 4/5. *)
Lemma sample_alph_double :
  cos sample_alph * cos sample_alph - sin sample_alph * sin sample_alph = 3 / 5
  /\ 2 * sin sample_alph * cos sample_alph = 4 / 5.
Proof.
  assert (Hs : sqrt (1 + (4 / 3)²) = 5 / 3).
  { apply sqrt_lem_1; unfold Rsqr; lra. }
  rewrite <- cos_2a, <- sin_2a.
  replace (2 * sample_alph) with (atan (4 / 3)) by (unfold sample_alph; lra).
  rewrite cos_atan, sin_atan, Hs; split; field.
Qed.

(** The transfer matrix of a cell of the sample path. *)
Lemma sample_domain_matrix (x : PhotALPs_GMF.state) (s : R) :
  on_sample_path (PhotALPs_GMF.icm x) ->
  let psi := if Rle_dec 1.5 s then 0 else PI / 2 in
  snd (PhotALPs_ICM.SetDomainN sample_deltas
         (PhotALPs_GMF.icm (PhotALPs_GMF.set_domain sample_field x s)))
  = Udomain (cos psi) (sin psi) (cos sample_alph) (sin sample_alph)
            (RtoC (-1)) (RtoC (-1)) (RtoC 1)
  /\ on_sample_path (PhotALPs_GMF.icm
       (fst (PhotALPs_GMF.Pag_TM_step sample_deltas sample_field (x, meye) s))).
Proof.
  intros (Hg & Hm & Hn & HE & HL & Hc) psi.
  destruct (sample_set_domain x s) as (HB & HP & Hg' & Hm' & Hn' & HE' & HL' & HT').
  cbv zeta in HB, HP, Hg', Hm', Hn', HE', HL', HT'.
  set (y := PhotALPs_GMF.icm (PhotALPs_GMF.set_domain sample_field x s)) in *.
  rewrite Hg in Hg'; rewrite Hm in Hm'; rewrite Hn in Hn'; rewrite HE in HE'.
  rewrite HL in HL'.
  assert (Hcy : T1_clean (PhotALPs_ICM.T1 y)) by (rewrite HT'; exact Hc).
  destruct (sample_setEW y HB Hg' Hm' Hn' HE') as (Ha & H1 & H2 & H3).
  cbv zeta in Ha, H1, H2, H3.
  destruct (icm_SetDomainN_closed sample_deltas y Hcy) as (HU & HT1).
  cbv zeta in HU, HT1.
  destruct sample_phases as (P1 & P2 & P3).
  split.
  - rewrite HU, Ha, H1, H2, H3, HL', HP, P1, P2, P3; reflexivity.
  - rewrite Pag_TM_step_eq; cbn [fst].
    destruct (PhotALPs_GMF.set_domain sample_field x s) as [i ? ? ? ? ? ? ? ? ?] eqn:Ex.
    cbn [PhotALPs_GMF.set_icm PhotALPs_GMF.icm] in *.
    subst y.
    unfold on_sample_path; rewrite HT1.
    rewrite icm_SetDomainN_unfold; cbv zeta; cbn [fst].
    destruct i; cbn in Hg', Hm', Hn', HE', HL' |- *.
    repeat split; assumption.
Qed.

Lemma sample_domain_matrices :
  PhotALPs_GMF.domain_matrices sample_deltas sample_field sample_entry [2; 1]
  = [Udomain 1 0 (cos sample_alph) (sin sample_alph) (RtoC (-1)) (RtoC (-1)) (RtoC 1);
     Udomain 0 1 (cos sample_alph) (sin sample_alph) (RtoC (-1)) (RtoC (-1)) (RtoC 1)].
Proof.
  rewrite domain_matrices_cons.
  destruct (sample_domain_matrix sample_entry 2 sample_entry_on_path) as (H1 & Hinv).
  cbv zeta in H1; rewrite H1.
  rewrite domain_matrices_cons.
  destruct (sample_domain_matrix _ 1 Hinv) as (H2 & _).
  cbv zeta in H2; rewrite H2.
  cbn [PhotALPs_GMF.domain_matrices].
  destruct (Rle_dec 1.5 2) as [_ | H]; [| exfalso; apply H; lra].
  destruct (Rle_dec 1.5 1) as [H | _]; [exfalso; lra |].
  rewrite cos_0, sin_0, cos_PI2, sin_PI2; reflexivity.
Qed.

Lemma sample_cells : PhotALPs_GMF.cells sample_entry = Returned 2%Z.
Proof.
  destruct (entry_state_frame sample_field sample_gmf 1 0 0) as (H1 & H2 & _).
  cbv zeta in H1, H2; fold sample_entry in H1, H2.
  rewrite cells_returns by (rewrite H2; cbn; lra).
  rewrite H1, H2, (sample_smax 0); cbn [PhotALPs_GMF.icm sample_gmf PhotALPs_ICM.Lcoh].
  replace (2 / 1) with (IZR 2) by lra.
  rewrite py_int_IZR by lia; reflexivity.
Qed.

Lemma sample_linspace :
  linspace (PhotALPs_GMF.smax sample_entry) 0 2 false = Returned [2; 1].
Proof.
  destruct (entry_state_frame sample_field sample_gmf 1 0 0) as (H1 & _).
  cbv zeta in H1; fold sample_entry in H1.
  rewrite H1, (sample_smax 0).
  unfold linspace; cbn [Z.ltb Z.compare Z.eqb Pos.eqb andb Z.to_nat Pos.to_nat
                        Pos.iter_op Init.Nat.add seq map].
  change (Pos.to_nat 2) with 2%nat; cbn [seq map].
  do 2 f_equal; [| f_equal]; simpl; lra.
Qed.

(** C3, as stated, fails: on the sample path of two cells, where the field
    turns by a right angle from one cell to the next, the accumulator
    [U_1 . U_2] of [Pag_TM] is not the product [U_2 . U_1] that
    left-multiplication would give. *)
Lemma Pag_TM_does_not_left_multiply :
  PhotALPs_GMF.cells sample_entry = Returned 2%Z
  /\ linspace (PhotALPs_GMF.smax sample_entry) 0 2 false = Returned [2; 1]
  /\ snd (PhotALPs_GMF.Pag_TM_loop sample_deltas sample_field sample_entry [2; 1] meye)
     <> mprod (rev (PhotALPs_GMF.domain_matrices sample_deltas sample_field
                      sample_entry [2; 1])).
Proof.
  split; [exact sample_cells |]; split; [exact sample_linspace |].
  rewrite Pag_TM_loop_product, mdot_meye_l, sample_domain_matrices.
  destruct sample_alph_double as (Hc2 & Hs2).
  pose proof (cos_sin_unit sample_alph) as Hu.
  set (ca := cos sample_alph) in *; set (sa := sin sample_alph) in *.
  cbn [rev app mprod]; rewrite !mdot_meye_r.
  intros H; apply (f_equal m02) in H; apply (f_equal re) in H.
  cbv [Udomain madd mscale mdot basis1 basis2 basis3 m00 m01 m02 m10 m11 m12 m20 m21 m22
       Cadd Cmul re im RtoC] in H.
  nra.
Qed.

(** ** The warnings of [integrate_los] *)

Section Warnings.

Variable deltas : DeltaProvider.
Variable field : FieldModel.
Variable simps : list R -> list R -> R.

Lemma los_sample_warnings (self : PhotALPs_GMF.state) (s : R) :
  length (filter is_t_warning (snd (PhotALPs_GMF.los_sample deltas field self s)))
  = (if violates_t deltas field self s then 1 else 0)%nat
  /\ length (filter is_u_warning (snd (PhotALPs_GMF.los_sample deltas field self s)))
     = (if violates_u deltas field self s then 1 else 0)%nat.
Proof.
  unfold PhotALPs_GMF.los_sample, violates_t, violates_u.
  destruct (PhotALPs_GMF.Bgmf_calc field self s 0 0) as [Bv Babs].
  destruct (GC2HCproj field Bv s _ _ _) as [[Bs Bt] Bu].
  cbn [snd].
  destruct (Rgt_dec (Delta_ag_kpc deltas _ Bt) pertubation);
    destruct (Rgt_dec (Delta_ag_kpc deltas _ Bu) pertubation);
    split; reflexivity.
Qed.

(** The number of [true] in a mask. *)
Lemma count_flat_map (p : warning -> bool) (v : R -> bool) (f : R -> list warning) :
  (forall s, length (filter p (f s)) = (if v s then 1 else 0)%nat) ->
  forall sa : list R,
    length (filter p (flat_map f sa)) = length (filter (fun x : bool => x) (map v sa)).
Proof.
  intros Hf; induction sa as [| s sa IH]; [reflexivity |].
  cbn [flat_map map filter]; rewrite filter_app, length_app, IH, Hf.
  destruct (v s); reflexivity.
Qed.

Lemma flat_map_map {A B D : Type} (f : A -> B) (k : B -> list D) (l : list A) :
  flat_map k (map f l) = flat_map (fun a => k (f a)) l.
Proof. induction l as [| a l IH]; [reflexivity |]; cbn [map flat_map]; rewrite IH; reflexivity. Qed.

Lemma integrate_los_returns (self : PhotALPs_GMF.state) (num : Z) (sa : list R) :
  PhotALPs_GMF.cells self = Returned num ->
  linspace 0 (PhotALPs_GMF.smax self) num true = Returned sa ->
  exists It Iu ItIu : R,
    PhotALPs_GMF.integrate_los deltas field simps self
    = Returned (It, Iu, ItIu,
                flat_map (fun s => snd (PhotALPs_GMF.los_sample deltas field self s)) sa).
Proof.
  intros Hc Hsa; unfold PhotALPs_GMF.integrate_los.
  rewrite Hc; cbn [bind]; rewrite Hsa; cbn [bind].
  rewrite flat_map_map.
  do 3 eexists; reflexivity.
Qed.

End Warnings.

(** C8, amended.  When the coupling term exceeds the bound [0.10],
    [integrate_los] calls [warnings.warn] and still returns its result; a
    warning is raised at every sample where the bound is exceeded, once per
    sample and component. *)
Theorem integrate_los_warns_per_sample
  (deltas : DeltaProvider) (field : FieldModel) (simps : list R -> list R -> R)
  (self : PhotALPs_GMF.state) :
  PhotALPs_ICM.Lcoh (PhotALPs_GMF.icm self) <> 0 ->
  (0 <= py_int (PhotALPs_GMF.smax self / PhotALPs_ICM.Lcoh (PhotALPs_GMF.icm self)))%Z ->
  exists (sa : list R) (It Iu ItIu : R) (w : list warning),
    linspace 0 (PhotALPs_GMF.smax self)
             (py_int (PhotALPs_GMF.smax self / PhotALPs_ICM.Lcoh (PhotALPs_GMF.icm self)))
             true = Returned sa
    /\ PhotALPs_GMF.integrate_los deltas field simps self = Returned (It, Iu, ItIu, w)
    /\ length (filter is_t_warning w)
       = length (filter (fun x : bool => x) (map (violates_t deltas field self) sa))
    /\ length (filter is_u_warning w)
       = length (filter (fun x : bool => x) (map (violates_u deltas field self) sa)).
Proof.
  intros HL Hn.
  destruct (linspace_returns 0 (PhotALPs_GMF.smax self) _ true Hn) as (sa & Hsa).
  destruct (integrate_los_returns deltas field simps self _ sa (cells_returns self HL) Hsa)
    as (It & Iu & ItIu & Hret).
  exists sa, It, Iu, ItIu; eexists; split; [exact Hsa |]; split; [exact Hret |].
  split; apply count_flat_map; intros s; apply los_sample_warnings.
Qed.

Lemma sample_entry_Lcoh : PhotALPs_ICM.Lcoh (PhotALPs_GMF.icm sample_entry) <> 0.
Proof.
  destruct (entry_state_frame sample_field sample_gmf 1 0 0) as (_ & H2 & _).
  cbv zeta in H2; fold sample_entry in H2; rewrite H2; cbn; lra.
Qed.

Lemma sample_entry_count :
  py_int (PhotALPs_GMF.smax sample_entry / PhotALPs_ICM.Lcoh (PhotALPs_GMF.icm sample_entry))
  = 2%Z.
Proof.
  pose proof sample_cells as H.
  rewrite cells_returns in H by exact sample_entry_Lcoh.
  injection H as H; exact H.
Qed.

Lemma integrate_los_warns_per_sample_witness :
  exists (sa : list R) (It Iu ItIu : R) (w : list warning),
    linspace 0 (PhotALPs_GMF.smax sample_entry)
             (py_int (PhotALPs_GMF.smax sample_entry
                      / PhotALPs_ICM.Lcoh (PhotALPs_GMF.icm sample_entry)))
             true = Returned sa
    /\ PhotALPs_GMF.integrate_los strong_deltas sample_field sample_simps sample_entry
       = Returned (It, Iu, ItIu, w)
    /\ length (filter is_t_warning w)
       = length (filter (fun x : bool => x)
                        (map (violates_t strong_deltas sample_field sample_entry) sa))
    /\ length (filter is_u_warning w)
       = length (filter (fun x : bool => x)
                        (map (violates_u strong_deltas sample_field sample_entry) sa)).
Proof.
  apply (integrate_los_warns_per_sample strong_deltas sample_field sample_simps sample_entry).
  - exact sample_entry_Lcoh.
  - rewrite sample_entry_count; lia.
Defined.

Lemma strong_violates_t (self : PhotALPs_GMF.state) (s : R) :
  violates_t strong_deltas sample_field self s = true.
Proof.
  unfold violates_t.
  destruct (PhotALPs_GMF.Bgmf_calc sample_field self s 0 0) as [Bv Babs].
  destruct (GC2HCproj sample_field Bv s _ _ _) as [[Bs Bt] Bu].
  unfold strong_deltas, pertubation; cbn [Delta_ag_kpc].
  destruct (Rgt_dec 0.20 0.10) as [_ | H]; [reflexivity | exfalso; apply H; lra].
Qed.

Lemma sample_linspace_los :
  linspace 0 (PhotALPs_GMF.smax sample_entry) 2 true = Returned [0; 2].
Proof.
  destruct (entry_state_frame sample_field sample_gmf 1 0 0) as (H1 & _).
  cbv zeta in H1; fold sample_entry in H1.
  rewrite H1, (sample_smax 0).
  unfold linspace; cbn [Z.ltb Z.compare Z.eqb Pos.eqb andb Z.to_nat Z.sub Z.add Z.opp
                        Z.pos_sub Pos.pred_double].
  change (Pos.to_nat 2) with 2%nat; cbn [seq map].
  do 2 f_equal; [| f_equal]; simpl; lra.
Qed.

(** C8, as stated, fails: with the coupling term fixed at [0.20] along the
    sample path, whose two samples make one violating region, the warning
    for the [t] component is raised twice, once per sample. *)
Lemma warning_raised_at_every_sample :
  exists (It Iu ItIu : R) (w : list warning),
    linspace 0 (PhotALPs_GMF.smax sample_entry) 2 true = Returned [0; 2]
    /\ PhotALPs_GMF.integrate_los strong_deltas sample_field sample_simps sample_entry
       = Returned (It, Iu, ItIu, w)
    /\ regions (map (violates_t strong_deltas sample_field sample_entry) [0; 2]) = 1%nat
    /\ length (filter is_t_warning w) = 2%nat.
Proof.
  destruct (integrate_los_returns strong_deltas sample_field sample_simps sample_entry
              2 [0; 2] sample_cells sample_linspace_los) as (It & Iu & ItIu & Hret).
  exists It, Iu, ItIu; eexists; split; [exact sample_linspace_los |]; split; [exact Hret |].
  split.
  - cbn [map]; rewrite !strong_violates_t; reflexivity.
  - rewrite (count_flat_map is_t_warning
               (violates_t strong_deltas sample_field sample_entry))
      by (intros s; apply los_sample_warnings).
    cbn [map]; rewrite !strong_violates_t; reflexivity.
Qed.

(** ** The entry point [Pag] *)

Lemma set_pol_t_frame (x : PhotALPs_GMF.state) (v : R) :
  PhotALPs_GMF.smax (PhotALPs_GMF.set_pol_t x v) = PhotALPs_GMF.smax x
  /\ PhotALPs_GMF.icm (PhotALPs_GMF.set_pol_t x v) = PhotALPs_GMF.icm x
  /\ PhotALPs_GMF.pol_t (PhotALPs_GMF.set_pol_t x v) = v
  /\ PhotALPs_GMF.pol_u (PhotALPs_GMF.set_pol_t x v) = PhotALPs_GMF.pol_u x.
Proof. destruct x; repeat split. Qed.

Lemma set_pol_u_frame (x : PhotALPs_GMF.state) (v : R) :
  PhotALPs_GMF.smax (PhotALPs_GMF.set_pol_u x v) = PhotALPs_GMF.smax x
  /\ PhotALPs_GMF.icm (PhotALPs_GMF.set_pol_u x v) = PhotALPs_GMF.icm x
  /\ PhotALPs_GMF.pol_t (PhotALPs_GMF.set_pol_u x v) = PhotALPs_GMF.pol_t x
  /\ PhotALPs_GMF.pol_u (PhotALPs_GMF.set_pol_u x v) = v.
Proof. destruct x; repeat split. Qed.

Lemma set_coordinates_pol (field : FieldModel) (self : PhotALPs_GMF.state) (ra dec : R) :
  PhotALPs_GMF.pol_t (PhotALPs_GMF.set_coordinates field self ra dec)
  = PhotALPs_GMF.pol_t self
  /\ PhotALPs_GMF.pol_u (PhotALPs_GMF.set_coordinates field self ra dec)
     = PhotALPs_GMF.pol_u self.
Proof.
  destruct self; unfold PhotALPs_GMF.set_coordinates.
  cbn [PhotALPs_GMF.set_lb PhotALPs_GMF.galactic].
  destruct (Rlt_dec _ 0); split; reflexivity.
Qed.

(** The guards of [Pag] on the two weights. *)
Lemma guarded_weights (x : PhotALPs_GMF.state) (pt pu : R) :
  let x1 := if Rgt_dec pt 0 then PhotALPs_GMF.set_pol_t x pt else x in
  let x2 := if Rgt_dec pu 0 then PhotALPs_GMF.set_pol_u x1 pu else x1 in
  PhotALPs_GMF.smax x2 = PhotALPs_GMF.smax x
  /\ PhotALPs_GMF.icm x2 = PhotALPs_GMF.icm x
  /\ PhotALPs_GMF.pol_t x2 = (if Rgt_dec pt 0 then pt else PhotALPs_GMF.pol_t x)
  /\ PhotALPs_GMF.pol_u x2 = (if Rgt_dec pu 0 then pu else PhotALPs_GMF.pol_u x).
Proof.
  cbv zeta.
  destruct (set_pol_t_frame x pt) as (A1 & A2 & A3 & A4).
  destruct (Rgt_dec pt 0); destruct (Rgt_dec pu 0).
  - destruct (set_pol_u_frame (PhotALPs_GMF.set_pol_t x pt) pu) as (B1 & B2 & B3 & B4).
    rewrite B1, B2, B3, B4, A1, A2, A3; repeat split.
  - rewrite A1, A2, A3, A4; repeat split.
  - destruct (set_pol_u_frame x pu) as (B1 & B2 & B3 & B4).
    rewrite B1, B2, B3, B4; repeat split.
  - repeat split.
Qed.

Lemma Pag_returns (deltas : DeltaProvider) (field : FieldModel)
  (simps : list R -> list R -> R)
  (self : PhotALPs_GMF.state) (E ra dec pt pu : R) :
  path_ok field self ra dec ->
  exists (self' : PhotALPs_GMF.state) (It Iu ItIu : R) (w : list warning),
    PhotALPs_GMF.Pag deltas field simps self E ra dec pt pu
    = Returned (self',
                PhotALPs_GMF.pol_t self' ^ 2 * It + PhotALPs_GMF.pol_u self' ^ 2 * Iu, w)
    /\ PhotALPs_GMF.integrate_los deltas field simps self' = Returned (It, Iu, ItIu, w)
    /\ PhotALPs_GMF.pol_t self' = (if Rgt_dec pt 0 then pt else PhotALPs_GMF.pol_t self)
    /\ PhotALPs_GMF.pol_u self' = (if Rgt_dec pu 0 then pu else PhotALPs_GMF.pol_u self).
Proof.
  intros [HL Hn].
  unfold PhotALPs_GMF.Pag; cbv zeta.
  set (st := PhotALPs_GMF.set_E (PhotALPs_GMF.set_coordinates field self ra dec) E).
  destruct (entry_state_frame field self E ra dec) as (F1 & F2 & _).
  cbv zeta in F1, F2; fold st in F1, F2.
  destruct (set_E_frame (PhotALPs_GMF.set_coordinates field self ra dec) E)
    as (_ & _ & _ & Gt & Gu); fold st in Gt, Gu.
  destruct (set_coordinates_pol field self ra dec) as (Kt & Ku).
  rewrite Kt in Gt; rewrite Ku in Gu.
  destruct (guarded_weights st pt pu) as (W1 & W2 & W3 & W4); cbv zeta in W1, W2, W3, W4.
  set (st2 := if Rgt_dec pu 0
              then PhotALPs_GMF.set_pol_u
                     (if Rgt_dec pt 0 then PhotALPs_GMF.set_pol_t st pt else st) pu
              else if Rgt_dec pt 0 then PhotALPs_GMF.set_pol_t st pt else st) in *.
  assert (HL2 : PhotALPs_ICM.Lcoh (PhotALPs_GMF.icm st2) <> 0)
    by (rewrite W2, F2; exact HL).
  assert (Hn2 : (0 <= py_int (PhotALPs_GMF.smax st2
                              / PhotALPs_ICM.Lcoh (PhotALPs_GMF.icm st2)))%Z)
    by (rewrite W1, W2, F1, F2; exact Hn).
  destruct (linspace_returns 0 (PhotALPs_GMF.smax st2) _ true Hn2) as (sa & Hsa).
  destruct (integrate_los_returns deltas field simps st2 _ sa (cells_returns st2 HL2) Hsa)
    as (It & Iu & ItIu & Hret).
  exists st2, It, Iu, ItIu; eexists.
  rewrite Hret; cbn [bind].
  split; [reflexivity |]; split; [reflexivity |].
  rewrite W3, W4, Gt, Gu; split; reflexivity.
Qed.

(** C10.  When [Pag] is called with a weight that is zero or negative, the
    guard leaves the stored weight as it was, and the probability it
    returns is computed from the stored weight. *)
Theorem Pag_keeps_weights_on_nonpositive
  (deltas : DeltaProvider) (field : FieldModel) (simps : list R -> list R -> R)
  (self : PhotALPs_GMF.state) (E ra dec pt pu : R) :
  path_ok field self ra dec ->
  exists (self' : PhotALPs_GMF.state) (It Iu ItIu : R) (w : list warning),
    PhotALPs_GMF.integrate_los deltas field simps self' = Returned (It, Iu, ItIu, w)
    /\ PhotALPs_GMF.Pag deltas field simps self E ra dec pt pu
       = Returned (self',
                   PhotALPs_GMF.pol_t self' ^ 2 * It + PhotALPs_GMF.pol_u self' ^ 2 * Iu, w)
    /\ (pt <= 0 -> PhotALPs_GMF.pol_t self' = PhotALPs_GMF.pol_t self)
    /\ (pu <= 0 -> PhotALPs_GMF.pol_u self' = PhotALPs_GMF.pol_u self)
    /\ (pt <= 0 -> pu <= 0 ->
        PhotALPs_GMF.Pag deltas field simps self E ra dec pt pu
        = Returned (self',
                    PhotALPs_GMF.pol_t self ^ 2 * It + PhotALPs_GMF.pol_u self ^ 2 * Iu, w)).
Proof.
  intros Hok.
  destruct (Pag_returns deltas field simps self E ra dec pt pu Hok)
    as (self' & It & Iu & ItIu & w & Hret & Hlos & Ht & Hu).
  exists self', It, Iu, ItIu, w.
  assert (Kt : pt <= 0 -> PhotALPs_GMF.pol_t self' = PhotALPs_GMF.pol_t self).
  { intros Hp; rewrite Ht; destruct (Rgt_dec pt 0); [lra | reflexivity]. }
  assert (Ku : pu <= 0 -> PhotALPs_GMF.pol_u self' = PhotALPs_GMF.pol_u self).
  { intros Hp; rewrite Hu; destruct (Rgt_dec pu 0); [lra | reflexivity]. }
  repeat split; try assumption.
  intros Hpt Hpu; rewrite Hret, (Kt Hpt), (Ku Hpu); reflexivity.
Qed.

Lemma Pag_keeps_weights_on_nonpositive_witness :
  exists (self' : PhotALPs_GMF.state) (It Iu ItIu : R) (w : list warning),
    PhotALPs_GMF.Pag sample_deltas sample_field sample_simps sample_gmf 1 0 0 0 (-1)
    = Returned (self', (1 / sqrt 2) ^ 2 * It + (1 / sqrt 2) ^ 2 * Iu, w)
    /\ PhotALPs_GMF.pol_t self' = 1 / sqrt 2
    /\ PhotALPs_GMF.pol_u self' = 1 / sqrt 2.
Proof.
  destruct (Pag_keeps_weights_on_nonpositive sample_deltas sample_field sample_simps
              sample_gmf 1 0 0 0 (-1) (sample_path_ok 0 0))
    as (self' & It & Iu & ItIu & w & _ & _ & Ht & Hu & Hret).
  exists self', It, Iu, ItIu, w.
  split; [apply Hret; lra |].
  split; [apply Ht; lra | apply Hu; lra].
Defined.

(** C9, as stated, fails: a call with a negative energy is not refused;
    [Pag_TM] and [Pag] propagate it and return. *)
Lemma negative_energy_is_propagated :
  (exists r, PhotALPs_GMF.Pag_TM sample_deltas sample_field sample_gmf (-1) 0 0 meye None
             = Returned r)
  /\ (forall e, PhotALPs_GMF.Pag_TM sample_deltas sample_field sample_gmf (-1) 0 0 meye None
                <> Raised e)
  /\ (exists r, PhotALPs_GMF.Pag sample_deltas sample_field sample_simps sample_gmf
                  (-1) 0 0 (-1) (-1) = Returned r)
  /\ (forall e, PhotALPs_GMF.Pag sample_deltas sample_field sample_simps sample_gmf
                  (-1) 0 0 (-1) (-1) <> Raised e).
Proof.
  destruct (Pag_TM_returns sample_deltas sample_field sample_gmf (-1) 0 0 meye
              (sample_path_ok 0 0)) as (num & sa & _ & _ & H1); cbv zeta in H1.
  destruct (Pag_returns sample_deltas sample_field sample_simps sample_gmf (-1) 0 0 (-1) (-1)
              (sample_path_ok 0 0)) as (self' & It & Iu & ItIu & w & H2 & _).
  split; [eexists; exact H1 |].
  split; [intros e; rewrite H1; discriminate |].
  split; [eexists; exact H2 |].
  intros e; rewrite H2; discriminate.
Qed.

(** C9, amended.  [Pag_TM] and [Pag] check nothing about the energy: on
    every path they can walk (a non-zero cell size, a non-negative number
    of cells) they return a result for every energy, the negative ones
    included. *)
Theorem propagation_accepts_every_energy
  (deltas : DeltaProvider) (field : FieldModel) (simps : list R -> list R -> R)
  (self : PhotALPs_GMF.state) (E ra dec pt pu : R) (pol : Mat) :
  path_ok field self ra dec ->
  (exists (self' : PhotALPs_GMF.state) (Pt Pu Pa : C),
     PhotALPs_GMF.Pag_TM deltas field self E ra dec pol None
     = Returned (self', PhotALPs_GMF.Channels Pt Pu Pa))
  /\ (exists (self' : PhotALPs_GMF.state) (P : R) (w : list warning),
        PhotALPs_GMF.Pag deltas field simps self E ra dec pt pu = Returned (self', P, w)).
Proof.
  intros Hok; split.
  - destruct (Pag_TM_returns deltas field self E ra dec pol Hok)
      as (num & sa & _ & _ & H1); cbv zeta in H1.
    do 4 eexists; exact H1.
  - destruct (Pag_returns deltas field simps self E ra dec pt pu Hok)
      as (self' & It & Iu & ItIu & w & H2 & _).
    do 3 eexists; exact H2.
Qed.

Lemma propagation_accepts_every_energy_witness :
  (exists (self' : PhotALPs_GMF.state) (Pt Pu Pa : C),
     PhotALPs_GMF.Pag_TM sample_deltas sample_field sample_gmf (-1) 0 0 meye None
     = Returned (self', PhotALPs_GMF.Channels Pt Pu Pa))
  /\ (exists (self' : PhotALPs_GMF.state) (P : R) (w : list warning),
        PhotALPs_GMF.Pag sample_deltas sample_field sample_simps sample_gmf (-1) 0 0 (-1) (-1)
        = Returned (self', P, w)).
Proof.
  apply (propagation_accepts_every_energy sample_deltas sample_field sample_simps
           sample_gmf (-1) 0 0 (-1) (-1) meye).
  exact (sample_path_ok 0 0).
Defined.
(** ** Further properties of [PhotALPs] *)

Lemma py_int_integer (k : Z) : py_int (IZR k) = k.
Proof.
  unfold py_int; destruct (Rle_dec 0 (IZR k)) as [_ | H].
  - apply Int_part_IZR.
  - rewrite <- opp_IZR, Int_part_IZR; lia.
Qed.

Lemma py_ceil_bounds (x : R) : x <= IZR (PhotALPs.py_ceil x) < x + 1.
Proof.
  unfold PhotALPs.py_ceil; rewrite opp_IZR.
  destruct (base_Int_part (- x)) as [H1 H2]; lra.
Qed.

(** X1.  [readz] raises [ZeroDivisionError] on a domain size of zero;
    otherwise it stores the redshift and the least number of domains [Nd]
    with [Nd >= 0.85e3*5/Ld*z], and touches neither the domain size nor
    the redshift step. *)
Theorem readz_counts_domains (self : PhotALPs.state) (z0 : R) :
  (PhotALPs.Ld self = 0 -> PhotALPs.readz self z0 = Raised ZeroDivisionError)
  /\ (PhotALPs.Ld self <> 0 ->
      exists self' : PhotALPs.state,
        PhotALPs.readz self z0 = Returned self'
        /\ PhotALPs.z self' = z0
        /\ 0.85e3 * 5 / PhotALPs.Ld self * z0 <= IZR (PhotALPs.Nd self')
           < 0.85e3 * 5 / PhotALPs.Ld self * z0 + 1
        /\ PhotALPs.Ld self' = PhotALPs.Ld self
        /\ PhotALPs.dz self' = PhotALPs.dz self
        /\ PhotALPs.xi self' = PhotALPs.xi self).
Proof.
  destruct self as [Ld xi dz E0 Nd z mp dt psi d e1 e2 e3 D L t1 t2 t3 u].
  unfold PhotALPs.readz, pydiv; cbn [PhotALPs.set_z PhotALPs.Ld].
  split; intros HL.
  - destruct (Req_dec_T Ld 0) as [_ | H]; [reflexivity | contradiction].
  - destruct (Req_dec_T Ld 0) as [H | _]; [contradiction |].
    cbn [bind]; eexists; split; [reflexivity |].
    cbn [PhotALPs.set_Nd PhotALPs.z PhotALPs.Nd PhotALPs.Ld PhotALPs.dz PhotALPs.xi].
    rewrite py_int_integer.
    repeat split; apply py_ceil_bounds.
Qed.

Lemma readz_counts_domains_witness :
  exists self' : PhotALPs.state,
    PhotALPs.readz sample_igm 0.1 = Returned self'
    /\ PhotALPs.z self' = 0.1
    /\ (85 <= PhotALPs.Nd self' <= 85)%Z.
Proof.
  destruct (proj2 (readz_counts_domains sample_igm 0.1))
    as (self' & Hret & Hz & [Hlo Hhi] & _).
  - unfold sample_igm, PhotALPs.init; cbn [PhotALPs.Ld]; lra.
  - exists self'; split; [exact Hret |]; split; [exact Hz |].
    unfold sample_igm, PhotALPs.init in Hlo, Hhi; cbn [PhotALPs.Ld] in Hlo, Hhi.
    split.
    + apply le_IZR; lra.
    + apply Zlt_succ_le; apply lt_IZR; cbn; lra.
Defined.

(** The arrays and the angle [SetDomainN] leaves in the instance. *)
Lemma igm_SetDomainN_state (opt_depth : R -> R -> R) (self : PhotALPs.state) (n : Z) :
  T1_clean (PhotALPs.T1 self) ->
  1 + 1.45 * (IZR n - 1) * PhotALPs.dz self <> 0 ->
  PhotALPs.mfn_at opt_depth self n <> 0 ->
  exists self' : PhotALPs.state,
    PhotALPs.SetDomainN opt_depth self n = Returned (self', PhotALPs.Un self')
    /\ PhotALPs.Ln self' = PhotALPs.Ln_of self n
    /\ PhotALPs.dtau self' = PhotALPs.difftau_of opt_depth self n
    /\ PhotALPs.dn self' = PhotALPs.dn_of opt_depth self n
    /\ PhotALPs.Dn self' = Csqrt (RtoC (1 - 4 * PhotALPs.dn self' ^ 2))
    /\ PhotALPs.EW1n self' = -0.5 / PhotALPs.mfn_at opt_depth self n
    /\ PhotALPs.EW2n self'
       = (RtoC (-0.25 / PhotALPs.mfn_at opt_depth self n) * (1 + PhotALPs.Dn self'))%C
    /\ PhotALPs.EW3n self'
       = (RtoC (-0.25 / PhotALPs.mfn_at opt_depth self n) * (1 - PhotALPs.Dn self'))%C
    /\ PhotALPs.Psin self' = PhotALPs.Psin self
    /\ PhotALPs.T1 self' = igm_basis1 (cos (PhotALPs.Psin self)) (sin (PhotALPs.Psin self))
    /\ PhotALPs.T2 self' = igm_basis2 (cos (PhotALPs.Psin self)) (sin (PhotALPs.Psin self))
                                      (PhotALPs.dn self') (PhotALPs.Dn self')
    /\ PhotALPs.T3 self' = igm_basis3 (cos (PhotALPs.Psin self)) (sin (PhotALPs.Psin self))
                                      (PhotALPs.dn self') (PhotALPs.Dn self')
    /\ PhotALPs.Un self'
       = madd (madd (mscale (RtoC (exp (PhotALPs.EW1n self' * PhotALPs.Ln self')))
                            (PhotALPs.T1 self'))
                    (mscale (Cexp (PhotALPs.EW2n self' * PhotALPs.Ln self')%C)
                            (PhotALPs.T2 self')))
              (mscale (Cexp (PhotALPs.EW3n self' * PhotALPs.Ln self')%C)
                      (PhotALPs.T3 self')).
Proof.
  intros (H02 & H12 & H20 & H21 & H22) Hden Hmfn.
  destruct self as [Ld xi dz E0 Nd z mp dt psi d e1 e2 e3 D L t1 t2 t3 u].
  destruct t1 as [a00 a01 a02 a10 a11 a12 a20 a21 a22].
  cbn [PhotALPs.T1 m02 m12 m20 m21 m22] in *; subst.
  unfold PhotALPs.mfn_at, PhotALPs.dn_of, PhotALPs.Ln_of, PhotALPs.difftau_of in *.
  unfold PhotALPs.SetDomainN, pydiv.
  cbn [PhotALPs.dz PhotALPs.E0 PhotALPs.xi] in *.
  destruct (Req_dec_T (1 + 1.45 * (IZR n - 1) * dz) 0) as [H0 | _]; [contradiction |].
  cbn [bind PhotALPs.set_Ln PhotALPs.Ln].
  set (mfn := PhotALPs.mfn_of _ _) in *.
  destruct (Req_dec_T mfn 0) as [H0 | _]; [contradiction |].
  cbn [bind].
  eexists; split; [reflexivity |].
  cbn; rewrite RtoC_plus_0j.
  repeat split.
Qed.

Lemma half_step_quotient (L t : R) :
  L <> 0 -> t <> 0 -> -0.5 / (L / t) * L = - t / 2.
Proof.
  intros HL Ht.
  replace (-0.5) with (- (1 / 2)) by lra.
  field; split; assumption.
Qed.

(** X2.  In a domain of non-zero length, the eigenvalue [EW1n] times the
    domain length is minus half the optical-depth step (when the step is
    not zero), so the [T1] component is damped by [exp(-difftau/2)]; and
    the other two eigenvalues add up to [EW1n]. *)
Theorem igm_damping_is_half_optical_depth
  (opt_depth : R -> R -> R) (self : PhotALPs.state) (n : Z) :
  PhotALPs.dz self <> 0 ->
  1 + 1.45 * (IZR n - 1) * PhotALPs.dz self <> 0 ->
  exists self' : PhotALPs.state,
    PhotALPs.SetDomainN opt_depth self n = Returned (self', PhotALPs.Un self')
    /\ (PhotALPs.EW2n self' + PhotALPs.EW3n self')%C = RtoC (PhotALPs.EW1n self')
    /\ (PhotALPs.dtau self' <> 0 ->
        PhotALPs.EW1n self' * PhotALPs.Ln self' = - PhotALPs.dtau self' / 2)
    /\ (PhotALPs.dtau self' = 0 ->
        PhotALPs.EW1n self' * PhotALPs.Ln self' = - (1e-20 / 2)).
Proof.
  intros Hdz Hden.
  pose proof (igm_mfn_nonzero opt_depth self n Hdz Hden) as Hmfn.
  pose proof (igm_Ln_nonzero self n Hdz Hden) as HLn.
  destruct (igm_SetDomainN_returns opt_depth self n Hden Hmfn)
    as (self' & Hret & HL & _ & Ht & _ & _ & H1 & H2 & H3 & _).
  exists self'; split; [exact Hret |].
  rewrite H1, H2, H3, HL, Ht.
  set (mfn := PhotALPs.mfn_at opt_depth self n) in *.
  split; [| split].
  - apply C_eq; simpl; lra.
  - intros Hd; unfold mfn, PhotALPs.mfn_at, PhotALPs.mfn_of.
    destruct (Req_dec_T _ 0) as [H | _]; [contradiction |].
    apply half_step_quotient; assumption.
  - intros Hd; unfold mfn, PhotALPs.mfn_at, PhotALPs.mfn_of.
    destruct (Req_dec_T _ 0) as [_ | H]; [| contradiction].
    rewrite (half_step_quotient _ 1e-20); [lra | assumption | lra].
Qed.

Lemma igm_damping_is_half_optical_depth_witness :
  exists self' : PhotALPs.state,
    PhotALPs.SetDomainN sample_tau sample_igm 1 = Returned (self', PhotALPs.Un self')
    /\ (PhotALPs.EW2n self' + PhotALPs.EW3n self')%C = RtoC (PhotALPs.EW1n self').
Proof.
  destruct (igm_damping_is_half_optical_depth sample_tau sample_igm 1
              sample_igm_dz sample_igm_den) as (self' & Hret & Hsum & _).
  exists self'; split; [exact Hret | exact Hsum].
Defined.

Lemma mfn_of_zero_length (difftau : R) : PhotALPs.mfn_of difftau 0 = 0.
Proof.
  unfold PhotALPs.mfn_of; destruct (Req_dec_T difftau 0); unfold Rdiv; apply Rmult_0_l.
Qed.

Lemma igm_SetDomainN_zero_divisor (opt_depth : R -> R -> R) (self : PhotALPs.state) (n : Z) :
  PhotALPs.dz self = 0 \/ 1 + 1.45 * (IZR n - 1) * PhotALPs.dz self = 0 ->
  PhotALPs.SetDomainN opt_depth self n = Raised ZeroDivisionError.
Proof.
  intros H.
  destruct self as [Ld xi dz E0 Nd z mp dt psi d e1 e2 e3 D L t1 t2 t3 u].
  unfold PhotALPs.SetDomainN, pydiv.
  cbn [PhotALPs.dz PhotALPs.E0 PhotALPs.xi] in *.
  destruct (Req_dec_T (1 + 1.45 * (IZR n - 1) * dz) 0) as [H0 | Hden]; [reflexivity |].
  destruct H as [Hdz | H]; [| contradiction].
  cbn [bind PhotALPs.set_Ln PhotALPs.Ln].
  replace (4.29e3 * dz / (1 + 1.45 * (IZR n - 1) * dz)) with 0
    by (rewrite Hdz; unfold Rdiv; ring).
  rewrite mfn_of_zero_length.
  destruct (Req_dec_T 0 0) as [_ | H0]; [reflexivity | contradiction H0; reflexivity].
Qed.

(** X3.  [SetDomainN(n)] of the absorption variant returns exactly on the
    domains of non-zero length: it raises [ZeroDivisionError] when [dz] is
    zero or when [1 + 1.45 (n-1) dz] is zero, whatever the optical-depth
    table holds, and returns in every other case. *)
Theorem igm_SetDomainN_returns_iff
  (opt_depth : R -> R -> R) (self : PhotALPs.state) (n : Z) :
  ((exists r, PhotALPs.SetDomainN opt_depth self n = Returned r)
   <-> (PhotALPs.dz self <> 0 /\ 1 + 1.45 * (IZR n - 1) * PhotALPs.dz self <> 0))
  /\ ((forall r, PhotALPs.SetDomainN opt_depth self n <> Returned r)
      <-> PhotALPs.SetDomainN opt_depth self n = Raised ZeroDivisionError).
Proof.
  assert (Hraise : PhotALPs.dz self = 0 \/ 1 + 1.45 * (IZR n - 1) * PhotALPs.dz self = 0 ->
                   PhotALPs.SetDomainN opt_depth self n = Raised ZeroDivisionError)
    by apply igm_SetDomainN_zero_divisor.
  assert (Hret : PhotALPs.dz self <> 0 -> 1 + 1.45 * (IZR n - 1) * PhotALPs.dz self <> 0 ->
                 exists r, PhotALPs.SetDomainN opt_depth self n = Returned r).
  { intros Hdz Hden.
    destruct (igm_SetDomainN_returns opt_depth self n Hden
                (igm_mfn_nonzero opt_depth self n Hdz Hden)) as (self' & Hr & _).
    eexists; exact Hr. }
  split; split.
  - intros (r & Hr).
    destruct (Req_dec_T (PhotALPs.dz self) 0) as [Hdz | Hdz].
    { rewrite Hraise in Hr by (left; exact Hdz); discriminate. }
    destruct (Req_dec_T (1 + 1.45 * (IZR n - 1) * PhotALPs.dz self) 0) as [Hden | Hden].
    { rewrite Hraise in Hr by (right; exact Hden); discriminate. }
    split; assumption.
  - intros (Hdz & Hden); apply Hret; assumption.
  - intros Hno.
    destruct (Req_dec_T (PhotALPs.dz self) 0) as [Hdz | Hdz].
    { apply Hraise; left; exact Hdz. }
    destruct (Req_dec_T (1 + 1.45 * (IZR n - 1) * PhotALPs.dz self) 0) as [Hden | Hden].
    { apply Hraise; right; exact Hden. }
    destruct (Hret Hdz Hden) as (r & Hr); exfalso; exact (Hno r Hr).
  - intros Hr r H; rewrite Hr in H; discriminate.
Qed.

Lemma Cexp_real (x : R) : Cexp (RtoC x) = RtoC (exp x).
Proof.
  unfold Cexp, RtoC; cbn [re im]; rewrite cos_0, sin_0; f_equal; ring.
Qed.

Lemma igm_basis_uncoupled (c s a : R) :
  c * c + s * s = 1 ->
  madd (madd (mscale (RtoC a) (igm_basis1 c s))
             (mscale (RtoC a) (igm_basis2 c s 0 (RtoC 1))))
       (mscale (RtoC 1) (igm_basis3 c s 0 (RtoC 1)))
  = mdiag (RtoC a) (RtoC a) (RtoC 1).
Proof.
  intros Hcs.
  assert (Hh : exists h, h = 0.5 /\ 2 * h = 1) by (exists 0.5; split; lra).
  unfold igm_basis2, igm_basis3.
  destruct Hh as (h & Hh & Hh2); rewrite <- Hh; clear Hh.
  cbv [madd mscale igm_basis1 igm_basis2 igm_basis3 mdiag
       m00 m01 m02 m10 m11 m12 m20 m21 m22
       Cadd Cmul Cdiv Cinv Copp Csub Cnorm2 RtoC Ci re im].
  assert (E1 : 1 / (1 * 1 + 0 * 0) = 1) by (field; lra).
  assert (E0 : - 0 / (1 * 1 + 0 * 0) = 0) by (field; lra).
  f_equal; apply C_eq; cbn [re im]; rewrite ?E1, ?E0; nsatz.
Qed.

(** X4.  With no coupling ([xi = 0]) a domain of non-zero length only
    absorbs: the transfer matrix is diagonal, both photon polarisations are
    damped by the same factor [exp(EW1n Ln)] (which is [exp(-difftau/2)]
    when the optical-depth step is not zero) and the ALP is left alone. *)
Theorem igm_no_coupling_only_absorbs
  (opt_depth : R -> R -> R) (self : PhotALPs.state) (n : Z) :
  T1_clean (PhotALPs.T1 self) ->
  PhotALPs.dz self <> 0 ->
  1 + 1.45 * (IZR n - 1) * PhotALPs.dz self <> 0 ->
  PhotALPs.xi self = 0 ->
  exists self' : PhotALPs.state,
    PhotALPs.SetDomainN opt_depth self n = Returned (self', PhotALPs.Un self')
    /\ PhotALPs.Un self'
       = mdiag (RtoC (exp (PhotALPs.EW1n self' * PhotALPs.Ln self')))
               (RtoC (exp (PhotALPs.EW1n self' * PhotALPs.Ln self')))
               (RtoC 1)
    /\ (PhotALPs.difftau_of opt_depth self n <> 0 ->
        exp (PhotALPs.EW1n self' * PhotALPs.Ln self')
        = exp (- PhotALPs.difftau_of opt_depth self n / 2)).
Proof.
  intros Hclean Hdz Hden Hxi.
  pose proof (igm_mfn_nonzero opt_depth self n Hdz Hden) as Hmfn.
  pose proof (igm_Ln_nonzero self n Hdz Hden) as HLn.
  destruct (igm_SetDomainN_state opt_depth self n Hclean Hden Hmfn)
    as (self' & Hret & HL & _ & Hd & HD & H1 & H2 & H3 & _ & HT1 & HT2 & HT3 & HU).
  exists self'; split; [exact Hret |].
  assert (Hd0 : PhotALPs.dn self' = 0).
  { rewrite Hd; unfold PhotALPs.dn_of; rewrite Hxi; ring. }
  assert (HD1 : PhotALPs.Dn self' = RtoC 1).
  { rewrite HD, Hd0.
    replace (1 - 4 * 0 ^ 2) with 1 by ring.
    rewrite Csqrt_real_nonneg by lra; rewrite sqrt_1; reflexivity. }
  split.
  - rewrite HU, HT1, HT2, HT3, Hd0, HD1, H2, H3, HD1.
    set (q := -0.25 / PhotALPs.mfn_at opt_depth self n) in *.
    set (L := PhotALPs.Ln self') in *.
    replace (RtoC q * (1 + RtoC 1) * RtoC L)%C with (RtoC (PhotALPs.EW1n self' * L)).
    2:{ rewrite H1; apply C_eq; simpl; unfold q; lra. }
    replace (RtoC q * (1 - RtoC 1) * RtoC L)%C with (RtoC 0)
      by (apply C_eq; simpl; lra).
    rewrite !Cexp_real, exp_0.
    apply igm_basis_uncoupled, cos_sin_unit.
  - intros Ht; f_equal; rewrite H1, HL.
    unfold PhotALPs.mfn_at, PhotALPs.mfn_of.
    destruct (Req_dec_T _ 0) as [H | _]; [contradiction |].
    apply half_step_quotient; assumption.
Qed.

Lemma igm_no_coupling_only_absorbs_witness :
  exists self' : PhotALPs.state,
    PhotALPs.SetDomainN sample_tau (PhotALPs.init 5 0) 1
    = Returned (self', PhotALPs.Un self')
    /\ PhotALPs.Un self'
       = mdiag (RtoC (exp (PhotALPs.EW1n self' * PhotALPs.Ln self')))
               (RtoC (exp (PhotALPs.EW1n self' * PhotALPs.Ln self')))
               (RtoC 1).
Proof.
  destruct (igm_no_coupling_only_absorbs sample_tau (PhotALPs.init 5 0) 1)
    as (self' & Hret & HU & _).
  - exact T1_clean_mzeros.
  - exact sample_igm_dz.
  - exact sample_igm_den.
  - reflexivity.
  - exists self'; split; [exact Hret | exact HU].
Defined.

(** The complex scalars as an integral domain, for [nsatz]. *)
Lemma Cmul_integral (a b : C) : (a * b)%C = RtoC 0 -> a = RtoC 0 \/ b = RtoC 0.
Proof.
  intros H.
  destruct (Req_dec_T (Cnorm2 a) 0) as [Ha | Ha].
  - left; destruct a as [x y]; unfold Cnorm2 in Ha; cbn [re im] in Ha.
    apply C_eq; cbn [re im RtoC]; nra.
  - right.
    assert (Hb : Cnorm2 a * Cnorm2 b = 0).
    { destruct a as [x y], b as [u v]; unfold Cnorm2; cbn [re im].
      apply (f_equal re) in H as Hr; apply (f_equal im) in H as Hi.
      cbn [Cmul re im RtoC] in Hr, Hi.
      replace ((x * x + y * y) * (u * u + v * v))
        with ((x * u - y * v) * (x * u - y * v) + (x * v + y * u) * (x * v + y * u)) by ring.
      rewrite Hr, Hi; ring. }
    apply Rmult_integral in Hb; destruct Hb as [Hb | Hb]; [contradiction |].
    destruct b as [u v]; unfold Cnorm2 in Hb; cbn [re im] in Hb.
    apply C_eq; cbn [re im RtoC]; nra.
Qed.

#[local] Instance Cops : @Ncring.Ring_ops C (RtoC 0) (RtoC 1) Cadd Cmul Csub Copp (@eq C) := {}.

#[local] Instance Cri : Ncring.Ring (Ro := Cops).
Proof.
  split.
  { exact _. }
  1,2,3,4: Morphisms.solve_proper.
  all: intros; cbv [Algebra_syntax.addition Algebra_syntax.multiplication
                    Algebra_syntax.subtraction Algebra_syntax.opposite
                    Algebra_syntax.equality Algebra_syntax.zero Algebra_syntax.one
                    Ncring.add_notation Ncring.mul_notation Ncring.sub_notation
                    Ncring.opp_notation Ncring.eq_notation Ncring.zero_notation
                    Ncring.one_notation]; ring.
Qed.

#[local] Instance Ccri : Cring.Cring (Rr := Cri).
Proof.
  intros x y; cbv [Algebra_syntax.multiplication Algebra_syntax.equality
                   Ncring.mul_notation Ncring.eq_notation]; ring.
Qed.

#[local] Instance Cdi : Integral_domain.Integral_domain (Rcr := Ccri).
Proof.
  split.
  - exact Cmul_integral.
  - intros H; apply RtoC_inj in H; lra.
Qed.


Lemma RtoC_mul (x y : R) : RtoC (x * y) = (RtoC x * RtoC y)%C.
Proof. apply C_eq; simpl; ring. Qed.

Lemma Ci_square : (Ci * Ci)%C = RtoC (-1).
Proof. apply C_eq; simpl; ring. Qed.

(** The two relations between the coefficients of the basis matrices of
    [PhotALPs] that make them projectors: with [a = (1+D)/(2D)],
    [e = (-1+D)/(2D)] and [b = -i d/D], [a + e = 1] and [a e = b^2] as soon
    as [D^2 = 1 - 4 d^2]. *)
Lemma igm_coefficients (d : R) (D : C) :
  D <> RtoC 0 -> (D * D)%C = RtoC (1 - 4 * d ^ 2) ->
  (RtoC 0.5 * (RtoC 1 + D) * Cinv D + RtoC 0.5 * (RtoC (-1) + D) * Cinv D)%C = RtoC 1
  /\ ((RtoC 0.5 * (RtoC 1 + D) * Cinv D) * (RtoC 0.5 * (RtoC (-1) + D) * Cinv D))%C
     = ((- Ci * RtoC d * Cinv D) * (- Ci * RtoC d * Cinv D))%C
  /\ (Ci * RtoC d * Cinv D)%C = (- (- Ci * RtoC d * Cinv D))%C.
Proof.
  intros HD0 HDD.
  pose proof (Cinv_r D HD0) as Hk.
  assert (Hh : (RtoC 0.5 + RtoC 0.5)%C = RtoC 1) by (apply C_eq; simpl; lra).
  assert (Hm : (RtoC (-1) + RtoC 1)%C = RtoC 0) by (apply C_eq; simpl; lra).
  assert (Hi : (Ci * Ci + RtoC 1)%C = RtoC 0) by (apply C_eq; simpl; lra).
  assert (Hd : (D * D + (RtoC d * RtoC d + RtoC d * RtoC d
                         + RtoC d * RtoC d + RtoC d * RtoC d))%C = RtoC 1).
  { rewrite HDD; apply C_eq; simpl; ring. }
  clear HDD HD0.
  generalize dependent (Cinv D); generalize dependent (RtoC 0.5);
    generalize dependent (RtoC (-1)); generalize dependent (RtoC d).
  intros dC Hd m1 Hm h Hh k Hk.
  repeat split; nsatz.
Qed.

(** Matrices with the shape of the three basis matrices, on arbitrary
    coefficients. *)
Lemma projector_shape (cC sC m1 a b e : C) :
  (cC * cC + sC * sC)%C = RtoC 1 -> (m1 + RtoC 1)%C = RtoC 0 ->
  (a + e)%C = RtoC 1 -> (a * e)%C = (b * b)%C ->
  let P1 := mkMat (cC * cC)%C (m1 * sC * cC)%C (RtoC 0)
                  (m1 * sC * cC)%C (sC * sC)%C (RtoC 0)
                  (RtoC 0) (RtoC 0) (RtoC 0) in
  let P2 := mkMat (a * sC * sC)%C (a * sC * cC)%C (b * sC)%C
                  (a * sC * cC)%C (a * cC * cC)%C (b * cC)%C
                  (b * sC)%C (b * cC)%C e in
  let P3 := mkMat (e * sC * sC)%C (e * sC * cC)%C (- b * sC)%C
                  (e * sC * cC)%C (e * cC * cC)%C (- b * cC)%C
                  (- b * sC)%C (- b * cC)%C a in
  (mdot P1 P1 = P1 /\ mdot P2 P2 = P2 /\ mdot P3 P3 = P3)
  /\ (mdot P1 P2 = mzeros /\ mdot P1 P3 = mzeros /\ mdot P2 P1 = mzeros)
  /\ (mdot P2 P3 = mzeros /\ mdot P3 P1 = mzeros /\ mdot P3 P2 = mzeros).
Proof.
  intros Hcs Hm Hae Hb P1 P2 P3; subst P1 P2 P3.
  cbv [mdot mzeros m00 m01 m02 m10 m11 m12 m20 m21 m22].
  repeat split; f_equal; nsatz.
Qed.

Lemma igm_basis_projectors (c s d : R) (D : C) :
  c * c + s * s = 1 -> D <> RtoC 0 -> (D * D)%C = RtoC (1 - 4 * d ^ 2) ->
  let P1 := igm_basis1 c s in
  let P2 := igm_basis2 c s d D in
  let P3 := igm_basis3 c s d D in
  (mdot P1 P1 = P1 /\ mdot P2 P2 = P2 /\ mdot P3 P3 = P3)
  /\ (mdot P1 P2 = mzeros /\ mdot P1 P3 = mzeros /\ mdot P2 P1 = mzeros)
  /\ (mdot P2 P3 = mzeros /\ mdot P3 P1 = mzeros /\ mdot P3 P2 = mzeros).
Proof.
  intros Hcs HD0 HDD.
  destruct (igm_coefficients d D HD0 HDD) as (Hae & Hb & Hb').
  assert (HcsC : (RtoC c * RtoC c + RtoC s * RtoC s)%C = RtoC 1)
    by (apply C_eq; simpl; lra).
  assert (Hm : (RtoC (-1) + RtoC 1)%C = RtoC 0) by (apply C_eq; simpl; lra).
  pose proof (projector_shape (RtoC c) (RtoC s) (RtoC (-1)) _ _ _ HcsC Hm Hae Hb) as H.
  cbv zeta in H |- *.
  assert (E1 : igm_basis1 c s
               = mkMat (RtoC c * RtoC c)%C (RtoC (-1) * RtoC s * RtoC c)%C (RtoC 0)
                       (RtoC (-1) * RtoC s * RtoC c)%C (RtoC s * RtoC s)%C (RtoC 0)
                       (RtoC 0) (RtoC 0) (RtoC 0)).
  { unfold igm_basis1; f_equal; apply C_eq; simpl; ring. }
  assert (E3 : igm_basis3 c s d D
               = mkMat (RtoC 0.5 * (RtoC (-1) + D) * Cinv D * RtoC s * RtoC s)%C
                       (RtoC 0.5 * (RtoC (-1) + D) * Cinv D * RtoC s * RtoC c)%C
                       (- (- Ci * RtoC d * Cinv D) * RtoC s)%C
                       (RtoC 0.5 * (RtoC (-1) + D) * Cinv D * RtoC s * RtoC c)%C
                       (RtoC 0.5 * (RtoC (-1) + D) * Cinv D * RtoC c * RtoC c)%C
                       (- (- Ci * RtoC d * Cinv D) * RtoC c)%C
                       (- (- Ci * RtoC d * Cinv D) * RtoC s)%C
                       (- (- Ci * RtoC d * Cinv D) * RtoC c)%C
                       (RtoC 0.5 * (RtoC 1 + D) * Cinv D)%C).
  { unfold igm_basis3, Cdiv; rewrite Hb'; reflexivity. }
  rewrite E1, E3; unfold igm_basis2, Cdiv; exact H.
Qed.

Lemma Csqrt_real_square (x : R) : (Csqrt (RtoC x) * Csqrt (RtoC x))%C = RtoC x.
Proof.
  destruct (Rle_dec 0 x) as [Hx | Hx].
  - rewrite Csqrt_real_nonneg by exact Hx.
    apply C_eq; simpl; [rewrite Rmult_0_l, Rminus_0_r; apply sqrt_sqrt; exact Hx | ring].
  - rewrite Csqrt_real_neg by lra.
    apply C_eq; simpl; [| ring].
    rewrite Rmult_0_l, Rminus_0_l, sqrt_sqrt by lra; ring.
Qed.

Lemma Csqrt_real_nonzero (x : R) : x <> 0 -> Csqrt (RtoC x) <> RtoC 0.
Proof.
  intros Hx H.
  pose proof (Csqrt_real_square x) as Hs; rewrite H in Hs.
  apply (f_equal re) in Hs; simpl in Hs; lra.
Qed.

Lemma Cexp_add (a b : C) : Cexp (a + b) = (Cexp a * Cexp b)%C.
Proof.
  apply C_eq; simpl; rewrite exp_plus; [rewrite cos_plus | rewrite sin_plus]; ring.
Qed.

(** The product of two combinations of the same mutually annihilating
    projectors is the combination of the products of the coefficients. *)
Lemma spectral_product (P1 P2 P3 : Mat) (a1 a2 a3 b1 b2 b3 : C) :
  mdot P1 P1 = P1 -> mdot P2 P2 = P2 -> mdot P3 P3 = P3 ->
  mdot P1 P2 = mzeros -> mdot P1 P3 = mzeros -> mdot P2 P1 = mzeros ->
  mdot P2 P3 = mzeros -> mdot P3 P1 = mzeros -> mdot P3 P2 = mzeros ->
  mdot (madd (madd (mscale a1 P1) (mscale a2 P2)) (mscale a3 P3))
       (madd (madd (mscale b1 P1) (mscale b2 P2)) (mscale b3 P3))
  = madd (madd (mscale (a1 * b1) P1) (mscale (a2 * b2) P2)) (mscale (a3 * b3) P3).
Proof.
  intros H11 H22 H33 H12 H13 H21 H23 H31 H32.
  rewrite mdot_combination, H11, H22, H33, H12, H13, H21, H23, H31, H32.
  clear; mat_ring.
Qed.

(** X5.  Away from the degenerate coupling [4 dn^2 = 1], the three arrays
    [SetDomainN] leaves in [T1], [T2], [T3] are projectors that annihilate
    one another, so that applying the transfer matrix of a domain twice is
    applying that of a domain twice as long. *)
Theorem igm_basis_matrices_are_projectors
  (opt_depth : R -> R -> R) (self : PhotALPs.state) (n : Z) :
  T1_clean (PhotALPs.T1 self) ->
  PhotALPs.dz self <> 0 ->
  1 + 1.45 * (IZR n - 1) * PhotALPs.dz self <> 0 ->
  4 * PhotALPs.dn_of opt_depth self n ^ 2 <> 1 ->
  exists self' : PhotALPs.state,
    PhotALPs.SetDomainN opt_depth self n = Returned (self', PhotALPs.Un self')
    /\ let P1 := PhotALPs.T1 self' in
       let P2 := PhotALPs.T2 self' in
       let P3 := PhotALPs.T3 self' in
       let L2 := 2 * PhotALPs.Ln self' in
       (mdot P1 P1 = P1 /\ mdot P2 P2 = P2 /\ mdot P3 P3 = P3)
       /\ (mdot P1 P2 = mzeros /\ mdot P1 P3 = mzeros /\ mdot P2 P1 = mzeros)
       /\ (mdot P2 P3 = mzeros /\ mdot P3 P1 = mzeros /\ mdot P3 P2 = mzeros)
       /\ mdot (PhotALPs.Un self') (PhotALPs.Un self')
          = madd (madd (mscale (RtoC (exp (PhotALPs.EW1n self' * L2))) P1)
                       (mscale (Cexp (PhotALPs.EW2n self' * L2)%C) P2))
                 (mscale (Cexp (PhotALPs.EW3n self' * L2)%C) P3).
Proof.
  intros Hclean Hdz Hden Hdn.
  pose proof (igm_mfn_nonzero opt_depth self n Hdz Hden) as Hmfn.
  destruct (igm_SetDomainN_state opt_depth self n Hclean Hden Hmfn)
    as (self' & Hret & _ & _ & Hd & HD & _ & _ & _ & _ & HT1 & HT2 & HT3 & HU).
  exists self'; split; [exact Hret |].
  assert (Hx : 1 - 4 * PhotALPs.dn self' ^ 2 <> 0) by (rewrite Hd; lra).
  assert (HD0 : PhotALPs.Dn self' <> RtoC 0) by (rewrite HD; apply Csqrt_real_nonzero, Hx).
  assert (HDD : (PhotALPs.Dn self' * PhotALPs.Dn self')%C
                = RtoC (1 - 4 * PhotALPs.dn self' ^ 2))
    by (rewrite HD; apply Csqrt_real_square).
  destruct (igm_basis_projectors (cos (PhotALPs.Psin self)) (sin (PhotALPs.Psin self))
              (PhotALPs.dn self') (PhotALPs.Dn self')
              (cos_sin_unit _) HD0 HDD)
    as ((H11 & H22 & H33) & (H12 & H13 & H21) & (H23 & H31 & H32)).
  cbv zeta; rewrite HU, HT1, HT2, HT3.
  repeat split; try assumption.
  rewrite spectral_product by assumption.
  replace (RtoC (exp (PhotALPs.EW1n self' * PhotALPs.Ln self'))
           * RtoC (exp (PhotALPs.EW1n self' * PhotALPs.Ln self')))%C
    with (RtoC (exp (PhotALPs.EW1n self' * (2 * PhotALPs.Ln self')))).
  2:{ rewrite <- RtoC_mul, <- exp_plus; do 2 f_equal; ring. }
  assert (Hdouble : forall (w : C) (L : R), (w * RtoC (2 * L))%C = (w * L + w * L)%C)
    by (intros; apply C_eq; simpl; ring).
  rewrite !Hdouble, !Cexp_add; reflexivity.
Qed.

Lemma igm_basis_matrices_are_projectors_witness :
  exists self' : PhotALPs.state,
    PhotALPs.SetDomainN sample_tau sample_igm 1 = Returned (self', PhotALPs.Un self')
    /\ mdot (PhotALPs.T2 self') (PhotALPs.T2 self') = PhotALPs.T2 self'
    /\ mdot (PhotALPs.T2 self') (PhotALPs.T3 self') = mzeros.
Proof.
  destruct (igm_basis_matrices_are_projectors sample_tau sample_igm 1)
    as (self' & Hret & (_ & H22 & _) & _ & (H23 & _) & _).
  - exact T1_clean_mzeros.
  - exact sample_igm_dz.
  - exact sample_igm_den.
  - pose proof sample_igm_dn_large; nra.
  - exists self'; repeat split; assumption.
Defined.

(** ** The domain matrix of [PhotALPs_ICM] as a function of the cell size *)

(** [SetDomainN] leaves the parameters of the instance alone. *)
Lemma icm_SetDomainN_frame (deltas : DeltaProvider) (x : PhotALPs_ICM.state) :
  let x' := fst (PhotALPs_ICM.SetDomainN deltas x) in
  PhotALPs_ICM.Lcoh x' = PhotALPs_ICM.Lcoh x /\ PhotALPs_ICM.E x' = PhotALPs_ICM.E x
  /\ PhotALPs_ICM.B x' = PhotALPs_ICM.B x /\ PhotALPs_ICM.g x' = PhotALPs_ICM.g x
  /\ PhotALPs_ICM.m x' = PhotALPs_ICM.m x /\ PhotALPs_ICM.n x' = PhotALPs_ICM.n x
  /\ PhotALPs_ICM.Psin x' = PhotALPs_ICM.Psin x.
Proof. destruct x; repeat split. Qed.

(** The eigenvalues and the mixing angle do not depend on the cell size,
    nor on what an earlier call left in the arrays. *)
Lemma icm_setEW_params (deltas : DeltaProvider) (x y : PhotALPs_ICM.state) :
  PhotALPs_ICM.E x = PhotALPs_ICM.E y -> PhotALPs_ICM.B x = PhotALPs_ICM.B y ->
  PhotALPs_ICM.g x = PhotALPs_ICM.g y -> PhotALPs_ICM.m x = PhotALPs_ICM.m y ->
  PhotALPs_ICM.n x = PhotALPs_ICM.n y ->
  PhotALPs_ICM.alph (PhotALPs_ICM.__setEW deltas x)
  = PhotALPs_ICM.alph (PhotALPs_ICM.__setEW deltas y)
  /\ PhotALPs_ICM.EW1 (PhotALPs_ICM.__setEW deltas x)
     = PhotALPs_ICM.EW1 (PhotALPs_ICM.__setEW deltas y)
  /\ PhotALPs_ICM.EW2 (PhotALPs_ICM.__setEW deltas x)
     = PhotALPs_ICM.EW2 (PhotALPs_ICM.__setEW deltas y)
  /\ PhotALPs_ICM.EW3 (PhotALPs_ICM.__setEW deltas x)
     = PhotALPs_ICM.EW3 (PhotALPs_ICM.__setEW deltas y).
Proof.
  destruct x, y; cbn [PhotALPs_ICM.E PhotALPs_ICM.B PhotALPs_ICM.g PhotALPs_ICM.m
                      PhotALPs_ICM.n].
  intros -> -> -> -> ->; repeat split.
Qed.

Lemma with_Lcoh_frame (x : PhotALPs_ICM.state) (L : R) :
  PhotALPs_ICM.Lcoh (with_Lcoh x L) = L
  /\ PhotALPs_ICM.E (with_Lcoh x L) = PhotALPs_ICM.E x
  /\ PhotALPs_ICM.B (with_Lcoh x L) = PhotALPs_ICM.B x
  /\ PhotALPs_ICM.g (with_Lcoh x L) = PhotALPs_ICM.g x
  /\ PhotALPs_ICM.m (with_Lcoh x L) = PhotALPs_ICM.m x
  /\ PhotALPs_ICM.n (with_Lcoh x L) = PhotALPs_ICM.n x
  /\ PhotALPs_ICM.Psin (with_Lcoh x L) = PhotALPs_ICM.Psin x
  /\ PhotALPs_ICM.T1 (with_Lcoh x L) = PhotALPs_ICM.T1 x.
Proof. repeat split. Qed.

(** The matrix [SetDomainN] returns after [self.Lcoh = L], on an instance
    that an earlier call may have used: it depends on the parameters of
    [self] and on [L] alone. *)
Lemma icm_domain_of_length (deltas : DeltaProvider) (self x : PhotALPs_ICM.state) (L : R) :
  T1_clean (PhotALPs_ICM.T1 x) ->
  PhotALPs_ICM.E x = PhotALPs_ICM.E self -> PhotALPs_ICM.B x = PhotALPs_ICM.B self ->
  PhotALPs_ICM.g x = PhotALPs_ICM.g self -> PhotALPs_ICM.m x = PhotALPs_ICM.m self ->
  PhotALPs_ICM.n x = PhotALPs_ICM.n self -> PhotALPs_ICM.Psin x = PhotALPs_ICM.Psin self ->
  let e := PhotALPs_ICM.__setEW deltas self in
  let c := cos (PhotALPs_ICM.Psin self) in
  let s := sin (PhotALPs_ICM.Psin self) in
  let ca := cos (PhotALPs_ICM.alph e) in
  let sa := sin (PhotALPs_ICM.alph e) in
  snd (PhotALPs_ICM.SetDomainN deltas (with_Lcoh x L))
  = madd (madd (mscale (Cexp (Ci * PhotALPs_ICM.EW1 e * L)%C) (basis1 c s))
               (mscale (Cexp (Ci * PhotALPs_ICM.EW2 e * L)%C) (basis2 c s ca sa)))
         (mscale (Cexp (Ci * PhotALPs_ICM.EW3 e * L)%C) (basis3 c s ca sa)).
Proof.
  intros Hclean HE HB Hg Hm Hn HP e c s ca sa; subst e c s ca sa.
  destruct (with_Lcoh_frame x L) as (FL & FE & FB & Fg & Fm & Fn & FP & FT).
  assert (Hc : T1_clean (PhotALPs_ICM.T1 (with_Lcoh x L))) by (rewrite FT; exact Hclean).
  destruct (icm_SetDomainN_closed deltas (with_Lcoh x L) Hc) as [-> _].
  destruct (icm_setEW_params deltas (with_Lcoh x L) self) as (-> & -> & -> & ->);
    rewrite ?FL, ?FP, ?HP; congruence.
Qed.

Lemma Cexp_0 : Cexp (RtoC 0) = RtoC 1.
Proof. rewrite Cexp_real, exp_0; reflexivity. Qed.

(** X6.  Where the mixing angle is defined ([Dpar <> Da]) the transfer
    matrices of [PhotALPs_ICM] form a one-parameter group in the cell
    size: for fixed field, energy and angle, a cell of
    size [L1] followed by one of size [L2] (two calls of [SetDomainN] on
    the same instance) is a cell of size [L1 + L2]; a cell of no size is
    the identity; and the cell of size [-L] is the adjoint, hence the
    inverse, of the cell of size [L]. *)
Theorem icm_cells_compose
  (deltas : DeltaProvider) (self : PhotALPs_ICM.state) (L1 L2 : R) :
  T1_clean (PhotALPs_ICM.T1 self) ->
  mixing_defined deltas self ->
  let r1 := PhotALPs_ICM.SetDomainN deltas (with_Lcoh self L1) in
  let r2 := PhotALPs_ICM.SetDomainN deltas (with_Lcoh (fst r1) L2) in
  mdot (snd r1) (snd r2)
  = snd (PhotALPs_ICM.SetDomainN deltas (with_Lcoh self (L1 + L2)))
  /\ snd (PhotALPs_ICM.SetDomainN deltas (with_Lcoh self 0)) = meye
  /\ snd (PhotALPs_ICM.SetDomainN deltas (with_Lcoh self (- L1))) = mdagger (snd r1).
Proof.
  intros Hclean _ r1 r2; subst r2.
  assert (Hc1 : T1_clean (PhotALPs_ICM.T1 (with_Lcoh self L1))) by exact Hclean.
  pose proof (icm_SetDomainN_clean deltas _ Hc1) as Hc2; fold r1 in Hc2.
  destruct (icm_SetDomainN_frame deltas (with_Lcoh self L1))
    as (_ & FE & FB & Fg & Fm & Fn & FP); fold r1 in FE, FB, Fg, Fm, Fn, FP.
  rewrite (icm_domain_of_length deltas self (fst r1) L2 Hc2 FE FB Fg Fm Fn FP).
  subst r1.
  rewrite !(icm_domain_of_length deltas self self) by (exact Hclean || reflexivity).
  set (c := cos _); set (s := sin _); set (ca := cos _); set (sa := sin _).
  pose proof (cos_sin_unit (PhotALPs_ICM.Psin self)) as Hcs; fold c s in Hcs.
  pose proof (cos_sin_unit (PhotALPs_ICM.alph (PhotALPs_ICM.__setEW deltas self))) as Ha;
    fold ca sa in Ha.
  assert (Hsum : forall (w : R) (x y : R),
             (Cexp (Ci * w * x) * Cexp (Ci * w * y))%C = Cexp (Ci * w * (x + y)%R)).
  { intros w x y; rewrite <- Cexp_add; f_equal; apply C_eq; simpl; ring. }
  assert (Hzero : forall w : R, Cexp (Ci * w * 0%R)%C = RtoC 1).
  { intros w; replace (Ci * w * 0%R)%C with (RtoC 0) by (apply C_eq; simpl; ring).
    apply Cexp_0. }
  assert (Hconj : forall (w x : R), Cexp (Ci * w * (- x)%R)%C = Cconj (Cexp (Ci * w * x)%C)).
  { intros w x; apply C_eq; simpl;
      replace (0 * w - 1 * 0) with 0 by ring;
      replace ((0 * 0 + 1 * w) * - x) with (- ((0 * 0 + 1 * w) * x)) by ring;
      rewrite ?Rmult_0_l, ?Rplus_0_l, ?Rminus_0_r, ?cos_neg, ?sin_neg; ring. }
  split; [| split].
  - rewrite (spectral_product _ _ _ _ _ _ _ _ _
               (proj11 c s ca sa Hcs Ha) (proj22 c s ca sa Hcs Ha) (proj33 c s ca sa Hcs Ha)
               (proj12 c s ca sa Hcs Ha) (proj13 c s ca sa Hcs Ha) (proj21 c s ca sa Hcs Ha)
               (proj23 c s ca sa Hcs Ha) (proj31 c s ca sa Hcs Ha) (proj32 c s ca sa Hcs Ha)).
    rewrite !Hsum; reflexivity.
  - rewrite !Hzero.
    rewrite <- (proj_sum c s ca sa Hcs Ha); clear; mat_ring.
  - rewrite mdagger_combination, !Hconj,
      (proj1_dagger c s ca sa Hcs Ha), (proj2_dagger c s ca sa Hcs Ha),
      (proj3_dagger c s ca sa Hcs Ha); reflexivity.
Qed.

Lemma icm_cells_compose_witness :
  mdot (snd (PhotALPs_ICM.SetDomainN sample_deltas (with_Lcoh light_icm 4)))
       (snd (PhotALPs_ICM.SetDomainN sample_deltas
               (with_Lcoh (fst (PhotALPs_ICM.SetDomainN sample_deltas
                                  (with_Lcoh light_icm 4))) 6)))
  = snd (PhotALPs_ICM.SetDomainN sample_deltas (with_Lcoh light_icm (4 + 6))).
Proof.
  exact (proj1 (icm_cells_compose sample_deltas light_icm 4 6 T1_clean_mzeros
                  light_icm_mixing_defined)).
Defined.

Lemma icm_oscillation_wave_number (deltas : DeltaProvider) (x : PhotALPs_ICM.state) :
  PhotALPs_ICM.EW3 (PhotALPs_ICM.__setEW deltas x) - PhotALPs_ICM.EW2 (PhotALPs_ICM.__setEW deltas x)
  = PhotALPs_ICM.Dosc (PhotALPs_ICM.__setEW deltas x).
Proof.
  destruct x; cbn [PhotALPs_ICM.__setEW PhotALPs_ICM.EW3 PhotALPs_ICM.EW2 PhotALPs_ICM.Dosc].
  lra.
Qed.

Lemma sin_half_square (x : R) : sin (x / 2) ^ 2 = (1 - cos x) / 2.
Proof.
  replace (cos x) with (cos (2 * (x / 2))) by (f_equal; field).
  rewrite cos_2a_sin; field.
Qed.

(** X7.  Where the mixing angle is defined ([Dpar <> Da]), one cell of
    [PhotALPs_ICM] converts an ALP into a photon (of
    either polarisation), and a photon polarised along the field into an
    ALP, with probability [sin^2(2 alph) sin^2(Dosc Lcoh / 2)]; the ALP
    survives with the complementary probability. *)
Theorem icm_cell_conversion_probability
  (deltas : DeltaProvider) (self : PhotALPs_ICM.state) :
  T1_clean (PhotALPs_ICM.T1 self) ->
  mixing_defined deltas self ->
  let e := PhotALPs_ICM.__setEW deltas self in
  let U := snd (PhotALPs_ICM.SetDomainN deltas self) in
  let P := (sin (2 * PhotALPs_ICM.alph e)) ^ 2
           * (sin (PhotALPs_ICM.Dosc e * PhotALPs_ICM.Lcoh self / 2)) ^ 2 in
  Cnorm2 (m02 U) + Cnorm2 (m12 U) = P
  /\ Cnorm2 (m20 U) + Cnorm2 (m21 U) = P
  /\ Cnorm2 (m22 U) = 1 - P.
Proof.
  intros Hclean _ e U P; subst U P e.
  destruct (icm_SetDomainN_closed deltas self Hclean) as [-> _].
  rewrite <- (icm_oscillation_wave_number deltas self).
  set (e := PhotALPs_ICM.__setEW deltas self).
  rewrite !Cexp_i.
  set (L := PhotALPs_ICM.Lcoh self).
  replace ((PhotALPs_ICM.EW3 e - PhotALPs_ICM.EW2 e) * L / 2)
    with ((PhotALPs_ICM.EW3 e * L - PhotALPs_ICM.EW2 e * L) / 2) by field.
  rewrite sin_half_square, cos_minus, sin_2a.
  pose proof (cos_sin_unit (PhotALPs_ICM.Psin self)) as Hcs.
  pose proof (cos_sin_unit (PhotALPs_ICM.alph e)) as Ha.
  pose proof (cos_sin_unit (PhotALPs_ICM.EW2 e * L)) as H2.
  pose proof (cos_sin_unit (PhotALPs_ICM.EW3 e * L)) as H3.
  generalize dependent (cos (PhotALPs_ICM.Psin self));
    generalize dependent (sin (PhotALPs_ICM.Psin self)).
  generalize dependent (cos (PhotALPs_ICM.alph e));
    generalize dependent (sin (PhotALPs_ICM.alph e)).
  generalize dependent (cos (PhotALPs_ICM.EW2 e * L));
    generalize dependent (sin (PhotALPs_ICM.EW2 e * L)).
  generalize dependent (cos (PhotALPs_ICM.EW3 e * L));
    generalize dependent (sin (PhotALPs_ICM.EW3 e * L)).
  generalize (cos (PhotALPs_ICM.EW1 e * L)) (sin (PhotALPs_ICM.EW1 e * L)).
  intros c1 s1 s3 c3 H3 s2 c2 H2 sa ca Ha s c Hcs.
  cbv [madd mscale basis1 basis2 basis3 m02 m12 m20 m21 m22 Cnorm2 Cmul Cadd RtoC re im].
  assert (Hphase : (c3 - c2) * (c3 - c2) + (s3 - s2) * (s3 - s2)
                   = 2 - 2 * (c3 * c2 + s3 * s2)) by nra.
  assert (Hca : ca * ca = 1 - sa * sa) by lra.
  assert (Hc : c * c = 1 - s * s) by lra.
  split; [| split].
  - transitivity (sa * sa * (ca * ca) * (c * c + s * s)
                  * ((c3 - c2) * (c3 - c2) + (s3 - s2) * (s3 - s2))); [ring |].
    rewrite Hcs, Hphase; field.
  - transitivity (sa * sa * (ca * ca) * (c * c + s * s)
                  * ((c3 - c2) * (c3 - c2) + (s3 - s2) * (s3 - s2))); [ring |].
    rewrite Hcs, Hphase; field.
  - transitivity ((ca * ca) * (ca * ca) * (c2 * c2 + s2 * s2)
                  + (sa * sa) * (sa * sa) * (c3 * c3 + s3 * s3)
                  + 2 * (ca * ca) * (sa * sa) * (c3 * c2 + s3 * s2)); [ring |].
    rewrite H2, H3.
    replace ((2 * sa * ca) ^ 2) with (4 * (sa * sa) * (ca * ca)) by ring.
    rewrite Hca; field.
Qed.

Lemma icm_cell_conversion_probability_witness :
  let e := PhotALPs_ICM.__setEW sample_deltas light_icm in
  let U := snd (PhotALPs_ICM.SetDomainN sample_deltas light_icm) in
  Cnorm2 (m22 U)
  = 1 - (sin (2 * PhotALPs_ICM.alph e)) ^ 2
        * (sin (PhotALPs_ICM.Dosc e * PhotALPs_ICM.Lcoh light_icm / 2)) ^ 2.
Proof.
  exact (proj2 (proj2 (icm_cell_conversion_probability sample_deltas light_icm
                         T1_clean_mzeros light_icm_mixing_defined))).
Defined.

(** ** The field angle of [Pag_TM] *)

Lemma angle_of_components (Bt Bu : R) :
  let r := sqrt (Bt ^ 2 + Bu ^ 2) in
  r <> 0 ->
  r * cos (acos (Bt / r)) = Bt /\ r * sin (acos (Bt / r)) = Rabs Bu.
Proof.
  intros r Hr.
  assert (Hpos : 0 < r).
  { pose proof (sqrt_pos (Bt ^ 2 + Bu ^ 2)); fold r in H; lra. }
  assert (Hsq : r * r = Bt ^ 2 + Bu ^ 2) by (apply sqrt_sqrt; nra).
  assert (Hx : -1 <= Bt / r <= 1).
  { assert (H1 : Bt / r * r = Bt) by (field; lra).
    split.
    - apply Rnot_lt_le; intros H. assert (Bt < - r) by nra. nra.
    - apply Rnot_lt_le; intros H. assert (r < Bt) by nra. nra. }
  split.
  - rewrite cos_acos by exact Hx; field; lra.
  - rewrite sin_acos by exact Hx.
    replace (1 - (Bt / r)²) with ((Bu / r)²).
    2:{ assert (Hu : Bu * Bu = r * r - Bt * Bt) by lra.
        unfold Rsqr.
        replace (Bu / r * (Bu / r)) with ((r * r - Bt * Bt) / (r * r))
          by (rewrite <- Hu; field; lra).
        field; lra. }
    rewrite sqrt_Rsqr_abs.
    unfold Rdiv; rewrite Rabs_mult, (Rabs_pos_eq (/ r)).
    + field; lra.
    + left; apply Rinv_0_lt_compat; exact Hpos.
Qed.

Lemma zero_strength_components (Bt Bu : R) :
  sqrt (Bt ^ 2 + Bu ^ 2) = 0 -> Bt = 0 /\ Bu = 0.
Proof.
  intros H; apply sqrt_eq_0 in H; [| nra]; split; nra.
Qed.

Lemma gmf_set_B (x : PhotALPs_GMF.state) (v : R) :
  PhotALPs_ICM.B (PhotALPs_GMF.icm (PhotALPs_GMF.set_B x v)) = v.
Proof. destruct x as [i ? ? ? ? ? ? ? ? ?]; destruct i; reflexivity. Qed.

Lemma gmf_set_Psin (x : PhotALPs_GMF.state) (v : R) :
  PhotALPs_ICM.Psin (PhotALPs_GMF.icm (PhotALPs_GMF.set_Psin x v)) = v
  /\ PhotALPs_ICM.B (PhotALPs_GMF.icm (PhotALPs_GMF.set_Psin x v))
     = PhotALPs_ICM.B (PhotALPs_GMF.icm x).
Proof. destruct x as [i ? ? ? ? ? ? ? ? ?]; destruct i; split; reflexivity. Qed.

(** X8.  The head of the loop body of [Pag_TM] stores the strength of the
    transverse field in [self.B] and an angle [self.Psin] between [0] and
    [2 pi] that gives its two components back: [B cos(Psin) = Bt] and
    [B sin(Psin) = Bu] (the two assertions the source keeps commented
    out), also where the field vanishes or [Bu] is negative. *)
Theorem set_domain_angle_recovers_field
  (field : FieldModel) (self : PhotALPs_GMF.state) (s : R) :
  let y := PhotALPs_GMF.icm (PhotALPs_GMF.set_domain field self s) in
  let Bt := fst (transverse_field field self s) in
  let Bu := snd (transverse_field field self s) in
  PhotALPs_ICM.B y = sqrt (Bt ^ 2 + Bu ^ 2)
  /\ PhotALPs_ICM.B y * cos (PhotALPs_ICM.Psin y) = Bt
  /\ PhotALPs_ICM.B y * sin (PhotALPs_ICM.Psin y) = Bu
  /\ 0 <= PhotALPs_ICM.Psin y <= 2 * PI.
Proof.
  unfold PhotALPs_GMF.set_domain, transverse_field.
  destruct (PhotALPs_GMF.Bgmf_calc field self s 0 0) as [Bv Babs].
  destruct (GC2HCproj field Bv s _ _ _) as [[Bs Bt] Bu].
  cbn [fst snd]; cbv zeta.
  rewrite gmf_set_B.
  set (r := sqrt (Bt ^ 2 + Bu ^ 2)).
  pose proof PI_RGT_0 as Hpi.
  destruct (Req_dec_T r 0) as [Hr | Hr].
  - destruct (gmf_set_Psin (PhotALPs_GMF.set_B self r) 0) as [-> ->].
    rewrite gmf_set_B.
    destruct (zero_strength_components Bt Bu Hr) as [-> ->].
    rewrite Hr, cos_0, sin_0; repeat split; lra.
  - destruct (angle_of_components Bt Bu Hr) as [Hc Hs]; fold r in Hc, Hs.
    pose proof (acos_bound (Bt / r)) as Hb.
    destruct (gmf_set_Psin (PhotALPs_GMF.set_B self r) (acos (Bt / r))) as [HP HB].
    rewrite gmf_set_B in HB.
    destruct (Rlt_dec Bu 0) as [Hu | Hu].
    + destruct (gmf_set_Psin (PhotALPs_GMF.set_Psin (PhotALPs_GMF.set_B self r)
                                (acos (Bt / r)))
                  (2 * PI - PhotALPs_ICM.Psin
                     (PhotALPs_GMF.icm (PhotALPs_GMF.set_Psin (PhotALPs_GMF.set_B self r)
                                          (acos (Bt / r))))))
        as [-> ->].
      rewrite HP, HB.
      replace (2 * PI - acos (Bt / r)) with (- acos (Bt / r) + 2 * PI) by ring.
      rewrite cos_plus, sin_plus, cos_2PI, sin_2PI, cos_neg, sin_neg.
      rewrite Rabs_left in Hs by exact Hu.
      repeat split; lra.
    + rewrite HP, HB.
      rewrite Rabs_pos_eq in Hs by lra.
      repeat split; lra.
Qed.

(** ** What [Pag_TM] returns *)

Lemma Pag_TM_returns_any (deltas : DeltaProvider) (field : FieldModel)
  (self : PhotALPs_GMF.state) (E ra dec : R) (pol : Mat) (pol_final : option Mat) :
  path_ok field self ra dec ->
  let st := PhotALPs_GMF.set_E (PhotALPs_GMF.set_coordinates field self ra dec) E in
  exists (num : Z) (sa : list R),
    (0 <= num)%Z
    /\ PhotALPs_GMF.cells st = Returned num
    /\ linspace (PhotALPs_GMF.smax st) 0 num false = Returned sa
    /\ let U := snd (PhotALPs_GMF.Pag_TM_loop deltas field st sa meye) in
       PhotALPs_GMF.Pag_TM deltas field self E ra dec pol pol_final
       = Returned (fst (PhotALPs_GMF.Pag_TM_loop deltas field st sa meye),
                   match pol_final with
                   | None =>
                       PhotALPs_GMF.Channels
                         (PhotALPs_GMF.channel (mset mzeros I0 I0 (m00 mzeros + 1)%C) U pol)
                         (PhotALPs_GMF.channel (mset mzeros I1 I1 (m11 mzeros + 1)%C) U pol)
                         (PhotALPs_GMF.channel (mset mzeros I2 I2 (m22 mzeros + 1)%C) U pol)
                   | Some pf => PhotALPs_GMF.Projected (PhotALPs_GMF.channel pf U pol)
                   end).
Proof.
  intros Hok st.
  destruct (entry_state_cells field self E ra dec Hok) as (num & Hn & Hc); fold st in Hc.
  destruct (linspace_returns (PhotALPs_GMF.smax st) 0 num false Hn) as (sa & Hsa).
  exists num, sa; split; [exact Hn |]; split; [exact Hc |]; split; [exact Hsa |].
  unfold PhotALPs_GMF.Pag_TM; cbv zeta; fold st.
  rewrite Hc; cbn [bind]; rewrite Hsa; cbn [bind].
  destruct (PhotALPs_GMF.Pag_TM_loop deltas field st sa meye) as [st' U].
  destruct pol_final; reflexivity.
Qed.

(** The three channels are the diagonal of [U pol U^dagger]. *)
Lemma channel_diagonal (U pol : Mat) :
  PhotALPs_GMF.channel (mset mzeros I0 I0 (m00 mzeros + 1)%C) U pol
  = m00 (mdot U (mdot pol (mdagger U)))
  /\ PhotALPs_GMF.channel (mset mzeros I1 I1 (m11 mzeros + 1)%C) U pol
     = m11 (mdot U (mdot pol (mdagger U)))
  /\ PhotALPs_GMF.channel (mset mzeros I2 I2 (m22 mzeros + 1)%C) U pol
     = m22 (mdot U (mdot pol (mdagger U))).
Proof.
  destruct U as [u00 u01 u02 u10 u11 u12 u20 u21 u22].
  destruct pol as [p00 p01 p02 p10 p11 p12 p20 p21 p22].
  cbv [PhotALPs_GMF.channel mtrace mdot mdagger mset mzeros
       m00 m01 m02 m10 m11 m12 m20 m21 m22].
  repeat split; ring.
Qed.

Lemma mdagger_involutive (A : Mat) : mdagger (mdagger A) = A.
Proof.
  destruct A as [a00 a01 a02 a10 a11 a12 a20 a21 a22].
  cbv [mdagger m00 m01 m02 m10 m11 m12 m20 m21 m22].
  f_equal; apply C_eq; cbn [Cconj re im]; ring.
Qed.

Lemma hermitian_conjugation (U pol : Mat) :
  hermitian pol -> hermitian (mdot U (mdot pol (mdagger U))).
Proof.
  unfold hermitian; intros H.
  rewrite !mdagger_mdot, mdagger_involutive, H, mdot_assoc; reflexivity.
Qed.

Lemma hermitian_diagonal (A : Mat) :
  hermitian A -> im (m00 A) = 0 /\ im (m11 A) = 0 /\ im (m22 A) = 0.
Proof.
  unfold hermitian; intros H.
  pose proof (f_equal m00 H) as H0; pose proof (f_equal m11 H) as H1;
    pose proof (f_equal m22 H) as H2.
  destruct A as [a00 a01 a02 a10 a11 a12 a20 a21 a22]; cbn [mdagger m00 m11 m22] in *.
  apply (f_equal im) in H0, H1, H2; cbn [Cconj im] in *.
  repeat split; lra.
Qed.

(** X9.  For a Hermitian input density matrix, whatever the field along
    a path off the resonance [Dpar = Da], the three numbers [Pag_TM]
    returns are real: their imaginary parts are exactly zero, so taking the
    real part loses nothing. *)
Theorem Pag_TM_probabilities_are_real
  (deltas : DeltaProvider) (field : FieldModel)
  (self : PhotALPs_GMF.state) (E ra dec : R) (pol : Mat) :
  path_ok field self ra dec ->
  off_resonance deltas (PhotALPs_GMF.icm self) E ->
  hermitian pol ->
  exists (self' : PhotALPs_GMF.state) (Pt Pu Pa : C),
    PhotALPs_GMF.Pag_TM deltas field self E ra dec pol None
    = Returned (self', PhotALPs_GMF.Channels Pt Pu Pa)
    /\ im Pt = 0 /\ im Pu = 0 /\ im Pa = 0.
Proof.
  intros Hok _ Hpol.
  destruct (Pag_TM_returns deltas field self E ra dec pol Hok)
    as (num & sa & _ & _ & Hret); cbv zeta in Hret.
  do 4 eexists; split; [exact Hret |].
  set (U := snd _).
  destruct (channel_diagonal U pol) as (-> & -> & ->).
  apply hermitian_diagonal, hermitian_conjugation, Hpol.
Qed.

Lemma hermitian_meye : hermitian meye.
Proof. exact mdagger_meye. Qed.

Lemma Pag_TM_probabilities_are_real_witness :
  exists (self' : PhotALPs_GMF.state) (Pt Pu Pa : C),
    PhotALPs_GMF.Pag_TM sample_deltas sample_field sample_gmf 1 0 0 meye None
    = Returned (self', PhotALPs_GMF.Channels Pt Pu Pa)
    /\ im Pt = 0 /\ im Pu = 0 /\ im Pa = 0.
Proof.
  exact (Pag_TM_probabilities_are_real sample_deltas sample_field sample_gmf 1 0 0 meye
           (sample_path_ok 0 0) (sample_gmf_off_resonance 1 Rlt_0_1) hermitian_meye).
Defined.

Lemma Cnorm2_nonneg (a : C) : 0 <= Cnorm2 a.
Proof. unfold Cnorm2; nra. Qed.

(** The diagonal of [U diag(a,b,c) U^dagger]: mixtures of the squared
    moduli of the rows of [U]. *)
Lemma diagonal_conjugation (U : Mat) (a b c : R) :
  let V := mdot U (mdot (mdiag (RtoC a) (RtoC b) (RtoC c)) (mdagger U)) in
  m00 V = RtoC (a * Cnorm2 (m00 U) + b * Cnorm2 (m01 U) + c * Cnorm2 (m02 U))
  /\ m11 V = RtoC (a * Cnorm2 (m10 U) + b * Cnorm2 (m11 U) + c * Cnorm2 (m12 U))
  /\ m22 V = RtoC (a * Cnorm2 (m20 U) + b * Cnorm2 (m21 U) + c * Cnorm2 (m22 U)).
Proof.
  destruct U as [u00 u01 u02 u10 u11 u12 u20 u21 u22].
  cbv [mdot mdagger mdiag m00 m01 m02 m10 m11 m12 m20 m21 m22 Cnorm2].
  repeat split; apply C_eq; cbn [Cadd Cmul Cconj RtoC re im]; ring.
Qed.

(** X10.  On a path off the resonance [Dpar = Da], for a diagonal input
    density matrix with non-negative entries
    (an incoherent mixture of the two photon polarisations and the ALP),
    each of the three numbers [Pag_TM] returns lies between zero and the
    trace of the input: for a normalised input they are probabilities. *)
Theorem Pag_TM_probabilities_are_bounded
  (deltas : DeltaProvider) (field : FieldModel)
  (self : PhotALPs_GMF.state) (E ra dec : R) (a b c : R) :
  T1_clean (PhotALPs_ICM.T1 (PhotALPs_GMF.icm self)) ->
  path_ok field self ra dec ->
  off_resonance deltas (PhotALPs_GMF.icm self) E ->
  0 <= a -> 0 <= b -> 0 <= c ->
  exists (self' : PhotALPs_GMF.state) (Pt Pu Pa : C),
    PhotALPs_GMF.Pag_TM deltas field self E ra dec
      (mdiag (RtoC a) (RtoC b) (RtoC c)) None
    = Returned (self', PhotALPs_GMF.Channels Pt Pu Pa)
    /\ 0 <= re Pt <= a + b + c
    /\ 0 <= re Pu <= a + b + c
    /\ 0 <= re Pa <= a + b + c.
Proof.
  intros Hclean Hok _ Ha Hb Hc.
  set (pol := mdiag (RtoC a) (RtoC b) (RtoC c)).
  destruct (Pag_TM_returns deltas field self E ra dec pol Hok)
    as (num & sa & _ & _ & Hret); cbv zeta in Hret.
  destruct (entry_state_frame field self E ra dec) as (_ & _ & HT); cbv zeta in HT.
  set (st := PhotALPs_GMF.set_E (PhotALPs_GMF.set_coordinates field self ra dec) E) in *.
  assert (HU : unitary (snd (PhotALPs_GMF.Pag_TM_loop deltas field st sa meye)))
    by (apply Pag_TM_loop_unitary; rewrite HT; exact Hclean).
  set (U := snd _) in *.
  do 4 eexists; split; [exact Hret |].
  pose proof (channel_sum U pol) as Hsum.
  rewrite mtrace_conjugation in Hsum by exact HU.
  destruct (channel_diagonal U pol) as (Et & Eu & Ea).
  destruct (diagonal_conjugation U a b c) as (Dt & Du & Da); cbv zeta in Dt, Du, Da.
  fold pol in Dt, Du, Da.
  rewrite Et, Eu, Ea, Dt, Du, Da in *.
  apply (f_equal re) in Hsum.
  cbn [pol mdiag mtrace m00 m11 m22 Cadd RtoC re] in *.
  assert (H0 : forall x y z u v w : C,
             0 <= a * Cnorm2 x + b * Cnorm2 y + c * Cnorm2 z
             /\ 0 <= a * Cnorm2 u + b * Cnorm2 v + c * Cnorm2 w).
  { intros x y z u v w.
    pose proof (Cnorm2_nonneg x); pose proof (Cnorm2_nonneg y); pose proof (Cnorm2_nonneg z).
    pose proof (Cnorm2_nonneg u); pose proof (Cnorm2_nonneg v); pose proof (Cnorm2_nonneg w).
    split; nra. }
  destruct (H0 (m00 U) (m01 U) (m02 U) (m10 U) (m11 U) (m12 U)) as [Ht Hu].
  destruct (H0 (m20 U) (m21 U) (m22 U) (m20 U) (m21 U) (m22 U)) as [Hx _].
  repeat split; lra.
Qed.

Lemma Pag_TM_probabilities_are_bounded_witness :
  exists (self' : PhotALPs_GMF.state) (Pt Pu Pa : C),
    PhotALPs_GMF.Pag_TM sample_deltas sample_field sample_gmf 1 0 0
      (mdiag (RtoC (1 / 2)) (RtoC (1 / 2)) (RtoC 0)) None
    = Returned (self', PhotALPs_GMF.Channels Pt Pu Pa)
    /\ 0 <= re Pt <= 1 / 2 + 1 / 2 + 0
    /\ 0 <= re Pu <= 1 / 2 + 1 / 2 + 0
    /\ 0 <= re Pa <= 1 / 2 + 1 / 2 + 0.
Proof.
  apply (Pag_TM_probabilities_are_bounded sample_deltas sample_field sample_gmf 1 0 0
           (1 / 2) (1 / 2) 0 sample_gmf_clean (sample_path_ok 0 0)
           (sample_gmf_off_resonance 1 Rlt_0_1)); lra.
Defined.

(** ** Paths shorter than one cell *)

Lemma py_int_below_one (x : R) : 0 <= x < 1 -> py_int x = 0%Z.
Proof.
  intros [H0 H1]; unfold py_int.
  destruct (Rle_dec 0 x) as [_ | H]; [| contradiction].
  symmetry; apply Int_part_spec; simpl; lra.
Qed.

Lemma linspace_no_samples (start stop : R) (endpoint : bool) :
  linspace start stop 0 endpoint = Returned [].
Proof. unfold linspace; destruct endpoint; reflexivity. Qed.

Lemma channel_identity (pol : Mat) :
  PhotALPs_GMF.channel (mset mzeros I0 I0 (m00 mzeros + 1)%C) meye pol = m00 pol
  /\ PhotALPs_GMF.channel (mset mzeros I1 I1 (m11 mzeros + 1)%C) meye pol = m11 pol
  /\ PhotALPs_GMF.channel (mset mzeros I2 I2 (m22 mzeros + 1)%C) meye pol = m22 pol.
Proof.
  destruct (channel_diagonal meye pol) as (-> & -> & ->).
  rewrite mdagger_meye, mdot_meye_r, mdot_meye_l; repeat split.
Qed.

(** The state [Pag] integrates from, and what it returns from the three
    integrals. *)
Lemma Pag_entry (deltas : DeltaProvider) (field : FieldModel)
  (simps : list R -> list R -> R)
  (self : PhotALPs_GMF.state) (E ra dec pt pu : R) :
  let st := PhotALPs_GMF.set_E (PhotALPs_GMF.set_coordinates field self ra dec) E in
  exists self' : PhotALPs_GMF.state,
    PhotALPs_GMF.smax self' = PhotALPs_GMF.smax st
    /\ PhotALPs_GMF.icm self' = PhotALPs_GMF.icm st
    /\ PhotALPs_GMF.Pag deltas field simps self E ra dec pt pu
       = (r <- PhotALPs_GMF.integrate_los deltas field simps self' ;;
          let '(It, Iu, ItIu, warned) := r in
          Returned (self',
                    PhotALPs_GMF.pol_t self' ^ 2 * It + PhotALPs_GMF.pol_u self' ^ 2 * Iu,
                    warned)).
Proof.
  intros st.
  destruct (guarded_weights st pt pu) as (W1 & W2 & _); cbv zeta in W1, W2.
  eexists; split; [exact W1 |]; split; [exact W2 |].
  reflexivity.
Qed.

(** The three numbers [integrate_los] returns, from the two integrals. *)
Lemma integrate_los_value (deltas : DeltaProvider) (field : FieldModel)
  (simps : list R -> list R -> R) (self : PhotALPs_GMF.state) (num : Z) (sa : list R) :
  PhotALPs_GMF.cells self = Returned num ->
  linspace 0 (PhotALPs_GMF.smax self) num true = Returned sa ->
  let I_t := PhotALPs_GMF.los_integral simps
               (map (fun s => fst (fst (PhotALPs_GMF.los_sample deltas field self s))) sa) sa in
  let I_u := PhotALPs_GMF.los_integral simps
               (map (fun s => snd (fst (PhotALPs_GMF.los_sample deltas field self s))) sa) sa in
  PhotALPs_GMF.integrate_los deltas field simps self
  = Returned (Cnorm2 I_t, Cnorm2 I_u, re (Cconj I_u * I_t)%C,
              flat_map (fun s => snd (PhotALPs_GMF.los_sample deltas field self s)) sa).
Proof.
  intros Hc Hsa I_t I_u; unfold PhotALPs_GMF.integrate_los.
  rewrite Hc; cbn [bind]; rewrite Hsa; cbn [bind].
  rewrite flat_map_map, !map_map; fold I_t I_u.
  replace (re (I_t * Cconj I_t)%C) with (Cnorm2 I_t) by (unfold Cnorm2; simpl; ring).
  replace (re (I_u * Cconj I_u)%C) with (Cnorm2 I_u) by (unfold Cnorm2; simpl; ring).
  reflexivity.
Qed.

Lemma Cnorm2_zero : Cnorm2 (RtoC 0) = 0.
Proof. unfold Cnorm2; simpl; ring. Qed.

Lemma galactic_smax (field : FieldModel) (self : PhotALPs_GMF.state) (ra dec : R) :
  0 <= PhotALPs_GMF.galactic self ->
  PhotALPs_GMF.smax (PhotALPs_GMF.set_coordinates field self ra dec)
  = PhotALPs_GMF.galactic self.
Proof.
  intros Hg; destruct self; unfold PhotALPs_GMF.set_coordinates.
  cbn [PhotALPs_GMF.set_lb PhotALPs_GMF.galactic] in *.
  destruct (Rlt_dec _ 0) as [H | _]; [lra | reflexivity].
Qed.

(** X11.  When a galactic source is nearer than one cell
    ([0 <= galactic/Lcoh < 1]) the path has no cell: [Pag_TM] returns the
    diagonal of the input density matrix unchanged, and [Pag] returns zero
    without a warning, whatever the field and the coupling. *)
Theorem path_shorter_than_a_cell
  (deltas : DeltaProvider) (field : FieldModel) (simps : list R -> list R -> R)
  (self : PhotALPs_GMF.state) (E ra dec pt pu : R) (pol : Mat) :
  PhotALPs_ICM.Lcoh (PhotALPs_GMF.icm self) <> 0 ->
  0 <= PhotALPs_GMF.galactic self ->
  0 <= PhotALPs_GMF.galactic self / PhotALPs_ICM.Lcoh (PhotALPs_GMF.icm self) < 1 ->
  PhotALPs_GMF.Pag_TM deltas field self E ra dec pol None
  = Returned (PhotALPs_GMF.set_E (PhotALPs_GMF.set_coordinates field self ra dec) E,
              PhotALPs_GMF.Channels (m00 pol) (m11 pol) (m22 pol))
  /\ exists self' : PhotALPs_GMF.state,
       PhotALPs_GMF.Pag deltas field simps self E ra dec pt pu = Returned (self', 0, []).
Proof.
  intros HL Hg Hs.
  rewrite <- (galactic_smax field self ra dec Hg) in Hs.
  pose proof (py_int_below_one _ Hs) as Hnum.
  assert (Hok : path_ok field self ra dec) by (split; [exact HL | rewrite Hnum; lia]).
  split.
  - destruct (Pag_TM_returns deltas field self E ra dec pol Hok)
      as (num & sa & Hc & Hsa & Hret); cbv zeta in Hret.
    destruct (entry_state_frame field self E ra dec) as (F1 & F2 & _); cbv zeta in F1, F2.
    set (st := PhotALPs_GMF.set_E (PhotALPs_GMF.set_coordinates field self ra dec) E) in *.
    rewrite cells_returns in Hc by (rewrite F2; exact HL).
    rewrite F1, F2, Hnum in Hc; injection Hc as <-.
    rewrite linspace_no_samples in Hsa; injection Hsa as <-.
    rewrite Hret; cbn [PhotALPs_GMF.Pag_TM_loop fold_left fst snd].
    destruct (channel_identity pol) as (-> & -> & ->); reflexivity.
  - destruct (Pag_entry deltas field simps self E ra dec pt pu)
      as (self' & Hsm & Hicm & ->).
    destruct (entry_state_frame field self E ra dec) as (F1 & F2 & _); cbv zeta in F1, F2.
    assert (HL' : PhotALPs_ICM.Lcoh (PhotALPs_GMF.icm self') <> 0)
      by (rewrite Hicm, F2; exact HL).
    pose proof (cells_returns self' HL') as Hc.
    rewrite Hsm, Hicm, F1, F2, Hnum in Hc.
    rewrite (integrate_los_value deltas field simps self' 0 [] Hc
               (linspace_no_samples _ _ _)).
    exists self'; cbn [bind map flat_map PhotALPs_GMF.los_integral existsb].
    rewrite Cnorm2_zero; do 3 f_equal; ring.
Qed.

Lemma path_shorter_than_a_cell_witness :
  PhotALPs_GMF.Pag_TM sample_deltas sample_field near_gmf 1 0 0 meye None
  = Returned (PhotALPs_GMF.set_E (PhotALPs_GMF.set_coordinates sample_field near_gmf 0 0) 1,
              PhotALPs_GMF.Channels (m00 meye) (m11 meye) (m22 meye)).
Proof.
  refine (proj1 (path_shorter_than_a_cell sample_deltas sample_field sample_simps
                   near_gmf 1 0 0 0 0 meye _ _ _)); simpl; lra.
Defined.

(** ** What [Pag] returns *)

Lemma interference_bound (t u : C) : re (Cconj u * t)%C ^ 2 <= Cnorm2 t * Cnorm2 u.
Proof.
  destruct t as [tr ti], u as [ur ui]; unfold Cnorm2; cbn [Cmul Cconj re im].
  pose proof (pow2_ge_0 (ur * ti - ui * tr)) as H.
  replace ((tr * tr + ti * ti) * (ur * ur + ui * ui))
    with ((ur * tr - - ui * ti) ^ 2 + (ur * ti - ui * tr) ^ 2) by ring.
  lra.
Qed.

(** X12.  On every path it can walk [Pag] returns a number that is not
    negative, whatever the quadrature rule does: the two integrals [It],
    [Iu] are squared moduli, and the interference term [ItIu] is bounded
    by them, [ItIu^2 <= It Iu]. *)
Theorem Pag_is_never_negative
  (deltas : DeltaProvider) (field : FieldModel) (simps : list R -> list R -> R)
  (self : PhotALPs_GMF.state) (E ra dec pt pu : R) :
  path_ok field self ra dec ->
  exists (self' : PhotALPs_GMF.state) (It Iu ItIu P : R) (w : list warning),
    PhotALPs_GMF.integrate_los deltas field simps self' = Returned (It, Iu, ItIu, w)
    /\ PhotALPs_GMF.Pag deltas field simps self E ra dec pt pu = Returned (self', P, w)
    /\ 0 <= It /\ 0 <= Iu /\ ItIu ^ 2 <= It * Iu
    /\ 0 <= P.
Proof.
  intros [HL Hn].
  destruct (Pag_entry deltas field simps self E ra dec pt pu)
    as (self' & Hsm & Hicm & ->).
  destruct (entry_state_frame field self E ra dec) as (F1 & F2 & _); cbv zeta in F1, F2.
  assert (HL' : PhotALPs_ICM.Lcoh (PhotALPs_GMF.icm self') <> 0)
    by (rewrite Hicm, F2; exact HL).
  pose proof (cells_returns self' HL') as Hc.
  assert (Hn' : (0 <= py_int (PhotALPs_GMF.smax self'
                              / PhotALPs_ICM.Lcoh (PhotALPs_GMF.icm self')))%Z)
    by (rewrite Hsm, Hicm, F1, F2; exact Hn).
  destruct (linspace_returns 0 (PhotALPs_GMF.smax self') _ true Hn') as (sa & Hsa).
  pose proof (integrate_los_value deltas field simps self' _ sa Hc Hsa) as Hlos.
  cbv zeta in Hlos.
  set (I_t := PhotALPs_GMF.los_integral simps _ sa) in Hlos.
  set (I_u := PhotALPs_GMF.los_integral simps _ sa) in Hlos.
  exists self'; do 5 eexists.
  split; [exact Hlos |].
  rewrite Hlos; cbn [bind].
  split; [reflexivity |].
  pose proof (Cnorm2_nonneg I_t) as Ht; pose proof (Cnorm2_nonneg I_u) as Hu.
  pose proof (interference_bound I_t I_u) as Hi.
  repeat split; try assumption.
  pose proof (pow2_ge_0 (PhotALPs_GMF.pol_t self'));
    pose proof (pow2_ge_0 (PhotALPs_GMF.pol_u self')).
  nra.
Qed.

Lemma Pag_is_never_negative_witness :
  exists (self' : PhotALPs_GMF.state) (P : R) (w : list warning),
    PhotALPs_GMF.Pag sample_deltas sample_field sample_simps sample_gmf 1 0 0 (-1) (-1)
    = Returned (self', P, w)
    /\ 0 <= P.
Proof.
  destruct (Pag_is_never_negative sample_deltas sample_field sample_simps sample_gmf
              1 0 0 (-1) (-1) (sample_path_ok 0 0))
    as (self' & It & Iu & ItIu & P & w & _ & Hret & _ & _ & _ & HP).
  exists self', P, w; split; [exact Hret | exact HP].
Defined.

Lemma los_integral_masked (simps : list R -> list R -> R) (kernel : list C) (sa : list R) :
  Forall (fun k => Cgtb (k * Cconj k)%C (RtoC 1e-20) = false) kernel ->
  PhotALPs_GMF.los_integral simps kernel sa = RtoC 0.
Proof.
  intros H; unfold PhotALPs_GMF.los_integral.
  assert (Hm : existsb (fun x : bool => x)
                 (map (fun k => Cgtb (k * Cconj k)%C (RtoC 1e-20)) kernel) = false).
  { induction H as [| k ks Hk _ IH]; [reflexivity |].
    cbn [map existsb]; rewrite Hk, IH; reflexivity. }
  rewrite Hm; reflexivity.
Qed.

(** A kernel value [Delta exp(i phase)] with [Delta^2 <= 1e-20] does not
    pass the mask of [integrate_los]. *)
Lemma weak_kernel_masked (D : R) (a : C) :
  re a = 0 -> D ^ 2 <= 1e-20 ->
  Cgtb ((RtoC D * Cexp a) * Cconj (RtoC D * Cexp a))%C (RtoC 1e-20) = false.
Proof.
  intros Ha HD; unfold Cgtb, Cexp; rewrite Ha, exp_0.
  cbn [Cmul Cconj RtoC re im].
  pose proof (cos_sin_unit (im a)) as Hcs.
  set (c := cos (im a)) in *; set (s := sin (im a)) in *.
  replace ((D * (1 * c) - 0 * (1 * s)) * (D * (1 * c) - 0 * (1 * s))
           - (D * (1 * s) + 0 * (1 * c)) * - (D * (1 * s) + 0 * (1 * c)))
    with (D ^ 2 * (c * c + s * s)) by ring.
  replace ((D * (1 * c) - 0 * (1 * s)) * - (D * (1 * s) + 0 * (1 * c))
           + (D * (1 * s) + 0 * (1 * c)) * (D * (1 * c) - 0 * (1 * s)))
    with 0 by ring.
  rewrite Hcs, Rmult_1_r.
  destruct (Rgt_dec (D ^ 2) 1e-20) as [H | _]; [lra |].
  destruct (Req_dec_T (D ^ 2) 1e-20) as [_ | _]; [| reflexivity].
  destruct (Rgt_dec 0 0) as [H | _]; [lra | reflexivity].
Qed.

Lemma los_sample_weak (deltas : DeltaProvider) (field : FieldModel)
  (x : PhotALPs_GMF.state) (s : R) :
  (forall B : R, Delta_ag_kpc deltas (PhotALPs_ICM.g (PhotALPs_GMF.icm x)) B ^ 2 <= 1e-20) ->
  let r := PhotALPs_GMF.los_sample deltas field x s in
  Cgtb (fst (fst r) * Cconj (fst (fst r)))%C (RtoC 1e-20) = false
  /\ Cgtb (snd (fst r) * Cconj (snd (fst r)))%C (RtoC 1e-20) = false
  /\ snd r = [].
Proof.
  intros Hweak; unfold PhotALPs_GMF.los_sample.
  destruct (PhotALPs_GMF.Bgmf_calc field x s 0 0) as [Bv Babs].
  destruct (GC2HCproj field Bv s _ _ _) as [[Bs Bt] Bu].
  cbv zeta; cbn [fst snd].
  pose proof (Hweak Bt) as Ht; pose proof (Hweak Bu) as Hu.
  split; [| split].
  - apply weak_kernel_masked; [apply re_i_times | exact Ht].
  - apply weak_kernel_masked; [apply re_i_times | exact Hu].
  - unfold pertubation.
    destruct (Rgt_dec _ 0.10) as [H | _]; [nra |].
    destruct (Rgt_dec _ 0.10) as [H | _]; [nra | reflexivity].
Qed.

Lemma gmf_set_E_g (x : PhotALPs_GMF.state) (E : R) :
  PhotALPs_ICM.g (PhotALPs_GMF.icm (PhotALPs_GMF.set_E x E))
  = PhotALPs_ICM.g (PhotALPs_GMF.icm x).
Proof. destruct x as [i ? ? ? ? ? ? ? ? ?]; destruct i; reflexivity. Qed.

(** X13.  A coupling term that never exceeds [1e-10] in modulus is treated
    as no coupling at all: every sample is masked out, the quadrature rule
    is not called, and [Pag] returns exactly zero without a warning. *)
Theorem Pag_ignores_couplings_below_threshold
  (deltas : DeltaProvider) (field : FieldModel) (simps : list R -> list R -> R)
  (self : PhotALPs_GMF.state) (E ra dec pt pu : R) :
  path_ok field self ra dec ->
  (forall B : R,
     Delta_ag_kpc deltas (PhotALPs_ICM.g (PhotALPs_GMF.icm self)) B ^ 2 <= 1e-20) ->
  exists self' : PhotALPs_GMF.state,
    PhotALPs_GMF.Pag deltas field simps self E ra dec pt pu = Returned (self', 0, []).
Proof.
  intros [HL Hn] Hweak.
  destruct (Pag_entry deltas field simps self E ra dec pt pu)
    as (self' & Hsm & Hicm & ->).
  destruct (entry_state_frame field self E ra dec) as (F1 & F2 & _); cbv zeta in F1, F2.
  assert (HL' : PhotALPs_ICM.Lcoh (PhotALPs_GMF.icm self') <> 0)
    by (rewrite Hicm, F2; exact HL).
  pose proof (cells_returns self' HL') as Hc.
  assert (Hn' : (0 <= py_int (PhotALPs_GMF.smax self'
                              / PhotALPs_ICM.Lcoh (PhotALPs_GMF.icm self')))%Z)
    by (rewrite Hsm, Hicm, F1, F2; exact Hn).
  destruct (linspace_returns 0 (PhotALPs_GMF.smax self') _ true Hn') as (sa & Hsa).
  rewrite (integrate_los_value deltas field simps self' _ sa Hc Hsa).
  assert (Hweak' : forall B : R,
             Delta_ag_kpc deltas (PhotALPs_ICM.g (PhotALPs_GMF.icm self')) B ^ 2 <= 1e-20).
  { rewrite Hicm, gmf_set_E_g, set_coordinates_icm; exact Hweak. }
  rewrite !los_integral_masked.
  2,3: apply Forall_forall; intros k Hk; apply in_map_iff in Hk;
       destruct Hk as (s & <- & _);
       apply (los_sample_weak deltas field self' s Hweak').
  assert (Hw : flat_map (fun s => snd (PhotALPs_GMF.los_sample deltas field self' s)) sa = []).
  { clear Hsa; induction sa as [| s sa IH]; [reflexivity |].
    cbn [flat_map]; rewrite IH.
    destruct (los_sample_weak deltas field self' s Hweak') as (_ & _ & ->); reflexivity. }
  rewrite Hw; exists self'; cbn [bind]; rewrite Cnorm2_zero; do 3 f_equal; ring.
Qed.

Lemma Pag_ignores_couplings_below_threshold_witness :
  exists self' : PhotALPs_GMF.state,
    PhotALPs_GMF.Pag faint_deltas sample_field sample_simps sample_gmf 1 0 0 (-1) (-1)
    = Returned (self', 0, []).
Proof.
  apply (Pag_ignores_couplings_below_threshold faint_deltas sample_field sample_simps
           sample_gmf 1 0 0 (-1) (-1) (sample_path_ok 0 0)).
  intros B; cbn [faint_deltas Delta_ag_kpc]; lra.
Defined.

(** ** What [Pag_TM] leaves in the instance *)

Lemma same_parameters_refl (x : PhotALPs_GMF.state) : same_parameters x x.
Proof. repeat split. Qed.

Lemma same_parameters_trans (x y z : PhotALPs_GMF.state) :
  same_parameters x y -> same_parameters y z -> same_parameters x z.
Proof.
  unfold same_parameters; intros H1 H2.
  repeat match goal with H : _ /\ _ |- _ => destruct H end.
  repeat split; congruence.
Qed.

Lemma set_domain_parameters (field : FieldModel) (x : PhotALPs_GMF.state) (s : R) :
  same_parameters x (PhotALPs_GMF.set_domain field x s).
Proof.
  unfold PhotALPs_GMF.set_domain.
  destruct (PhotALPs_GMF.Bgmf_calc field x s 0 0) as [Bv Babs].
  destruct (GC2HCproj field Bv s _ _ _) as [[Bs Bt] Bu].
  destruct x as [i ? ? ? ? ? ? ? ? ?]; destruct i.
  cbv zeta.
  destruct (Req_dec_T _ 0) as [_ | _]; [repeat split |].
  destruct (Rlt_dec Bu 0); repeat split.
Qed.

Lemma Pag_TM_step_parameters (deltas : DeltaProvider) (field : FieldModel)
  (x : PhotALPs_GMF.state) (U : Mat) (s : R) :
  same_parameters x (fst (PhotALPs_GMF.Pag_TM_step deltas field (x, U) s)).
Proof.
  rewrite Pag_TM_step_eq; cbn [fst].
  apply (same_parameters_trans _ _ _ (set_domain_parameters field x s)).
  set (y := PhotALPs_GMF.set_domain field x s).
  destruct (icm_SetDomainN_frame deltas (PhotALPs_GMF.icm y))
    as (FL & FE & _ & Fg & Fm & Fn & _); cbv zeta in FL, FE, Fg, Fm, Fn.
  destruct y as [i ? ? ? ? ? ? ? ? ?].
  cbn [PhotALPs_GMF.icm PhotALPs_GMF.set_icm] in *.
  unfold same_parameters;
    cbn [PhotALPs_GMF.icm PhotALPs_GMF.set_icm PhotALPs_GMF.l PhotALPs_GMF.b PhotALPs_GMF.smax
         PhotALPs_GMF.pol_t PhotALPs_GMF.pol_u PhotALPs_GMF.rho_max PhotALPs_GMF.zmax
         PhotALPs_GMF.galactic PhotALPs_GMF.d].
  rewrite FL, FE, Fg, Fm, Fn; repeat split.
Qed.

Lemma Pag_TM_loop_parameters (deltas : DeltaProvider) (field : FieldModel) (sa : list R) :
  forall (x : PhotALPs_GMF.state) (U : Mat),
    same_parameters x (fst (PhotALPs_GMF.Pag_TM_loop deltas field x sa U))
    /\ (T1_clean (PhotALPs_ICM.T1 (PhotALPs_GMF.icm x)) ->
        T1_clean (PhotALPs_ICM.T1 (PhotALPs_GMF.icm
                    (fst (PhotALPs_GMF.Pag_TM_loop deltas field x sa U))))).
Proof.
  induction sa as [| s sa IH]; intros x U.
  - split; [apply same_parameters_refl | intros H; exact H].
  - rewrite Pag_TM_loop_cons.
    destruct (IH (fst (PhotALPs_GMF.Pag_TM_step deltas field (x, U) s))
                 (snd (PhotALPs_GMF.Pag_TM_step deltas field (x, U) s))) as [IH1 IH2].
    split.
    + exact (same_parameters_trans _ _ _ (Pag_TM_step_parameters deltas field x U s) IH1).
    + intros H; apply IH2, Pag_TM_step_clean, H.
Qed.

Lemma smax_of_geometry (field : FieldModel) (x y : PhotALPs_GMF.state) (ra dec : R) :
  PhotALPs_GMF.galactic x = PhotALPs_GMF.galactic y ->
  PhotALPs_GMF.zmax x = PhotALPs_GMF.zmax y ->
  PhotALPs_GMF.rho_max x = PhotALPs_GMF.rho_max y ->
  PhotALPs_GMF.d x = PhotALPs_GMF.d y ->
  PhotALPs_GMF.smax (PhotALPs_GMF.set_coordinates field x ra dec)
  = PhotALPs_GMF.smax (PhotALPs_GMF.set_coordinates field y ra dec).
Proof.
  destruct x, y; unfold PhotALPs_GMF.set_coordinates.
  cbn [PhotALPs_GMF.set_lb PhotALPs_GMF.galactic PhotALPs_GMF.rho_max PhotALPs_GMF.zmax
       PhotALPs_GMF.d PhotALPs_GMF.l PhotALPs_GMF.b].
  intros -> -> -> ->.
  destruct (Rlt_dec _ 0); reflexivity.
Qed.

Lemma entry_state_geometry (field : FieldModel) (self : PhotALPs_GMF.state) (E ra dec : R) :
  let st := PhotALPs_GMF.set_E (PhotALPs_GMF.set_coordinates field self ra dec) E in
  PhotALPs_GMF.galactic st = PhotALPs_GMF.galactic self
  /\ PhotALPs_GMF.zmax st = PhotALPs_GMF.zmax self
  /\ PhotALPs_GMF.rho_max st = PhotALPs_GMF.rho_max self
  /\ PhotALPs_GMF.d st = PhotALPs_GMF.d self
  /\ PhotALPs_ICM.E (PhotALPs_GMF.icm st) = E.
Proof.
  destruct self as [i ? ? ? ? ? ? ? ? ?]; destruct i; unfold PhotALPs_GMF.set_coordinates.
  cbn [PhotALPs_GMF.set_lb PhotALPs_GMF.galactic].
  destruct (Rlt_dec _ 0); repeat split.
Qed.

(** X14.  A call of [Pag_TM] leaves an instance on which it can be called
    again: the five never-assigned entries of [T1] still hold zeros, the
    cell size, the ALP parameters, the weights and the geometry are those
    of the instance it started from (with the energy and coordinates of
    the call), and the same path can be walked again. *)
Theorem Pag_TM_keeps_the_instance_usable
  (deltas : DeltaProvider) (field : FieldModel)
  (self : PhotALPs_GMF.state) (E ra dec : R) (pol : Mat) :
  T1_clean (PhotALPs_ICM.T1 (PhotALPs_GMF.icm self)) ->
  path_ok field self ra dec ->
  exists (self' : PhotALPs_GMF.state) (r : PhotALPs_GMF.TM_result),
    PhotALPs_GMF.Pag_TM deltas field self E ra dec pol None = Returned (self', r)
    /\ same_parameters
         (PhotALPs_GMF.set_E (PhotALPs_GMF.set_coordinates field self ra dec) E) self'
    /\ PhotALPs_ICM.E (PhotALPs_GMF.icm self') = E
    /\ T1_clean (PhotALPs_ICM.T1 (PhotALPs_GMF.icm self'))
    /\ path_ok field self' ra dec.
Proof.
  intros Hclean Hok.
  destruct (Pag_TM_returns deltas field self E ra dec pol Hok)
    as (num & sa & _ & _ & Hret); cbv zeta in Hret.
  destruct (entry_state_frame field self E ra dec) as (F1 & F2 & F3); cbv zeta in F1, F2, F3.
  destruct (entry_state_geometry field self E ra dec) as (G1 & G2 & G3 & G4 & G5);
    cbv zeta in G1, G2, G3, G4, G5.
  set (st := PhotALPs_GMF.set_E (PhotALPs_GMF.set_coordinates field self ra dec) E) in *.
  destruct (Pag_TM_loop_parameters deltas field sa st meye) as [Hpar Hcl].
  do 2 eexists; split; [exact Hret |].
  split; [exact Hpar |].
  pose proof Hpar as Hp; unfold same_parameters in Hp.
  destruct Hp as (_ & _ & _ & _ & _ & P1 & P2 & P3 & P4 & P5 & P6 & _).
  split; [rewrite <- P6; exact G5 |].
  split; [apply Hcl; rewrite F3; exact Hclean |].
  destruct Hok as [HL Hn]; split.
  - rewrite <- P5, F2; exact HL.
  - rewrite <- P5, F2.
    rewrite (smax_of_geometry field _ self ra dec); [exact Hn | | | |]; congruence.
Qed.

Lemma Pag_TM_keeps_the_instance_usable_witness :
  exists (self' : PhotALPs_GMF.state) (r : PhotALPs_GMF.TM_result),
    PhotALPs_GMF.Pag_TM sample_deltas sample_field sample_gmf 1 0 0 meye None
    = Returned (self', r)
    /\ T1_clean (PhotALPs_ICM.T1 (PhotALPs_GMF.icm self'))
    /\ path_ok sample_field self' 0 0.
Proof.
  destruct (Pag_TM_keeps_the_instance_usable sample_deltas sample_field sample_gmf
              1 0 0 meye sample_gmf_clean (sample_path_ok 0 0))
    as (self' & r & Hret & _ & _ & Hc & Hok).
  exists self', r; split; [exact Hret | split; [exact Hc | exact Hok]].
Defined.

(** ** Propagation without coupling *)

Lemma decoupled_meye : decoupled meye.
Proof. repeat split; apply C_eq; simpl; ring. Qed.

Lemma decoupled_mdot (A B : Mat) : decoupled A -> decoupled B -> decoupled (mdot A B).
Proof.
  intros (A02 & A12 & A20 & A21 & A22) (B02 & B12 & B20 & B21 & B22).
  destruct A as [a00 a01 a02 a10 a11 a12 a20 a21 a22].
  destruct B as [b00 b01 b02 b10 b11 b12 b20 b21 b22].
  cbn [m02 m12 m20 m21 m22] in *; subst.
  unfold decoupled; cbn [mdot m00 m01 m02 m10 m11 m12 m20 m21 m22].
  repeat split; try ring.
  replace ((RtoC 0 * RtoC 0 + RtoC 0 * RtoC 0 + a22 * b22)
           * Cconj (RtoC 0 * RtoC 0 + RtoC 0 * RtoC 0 + a22 * b22))%C
    with ((a22 * Cconj a22) * (b22 * Cconj b22))%C
    by (apply C_eq; simpl; ring).
  rewrite A22, B22; ring.
Qed.

Lemma icm_mixing_angle (deltas : DeltaProvider) (y : PhotALPs_ICM.state) :
  PhotALPs_ICM.alph (PhotALPs_ICM.__setEW deltas y)
  = 0.5 * atan (2 * Delta_ag_kpc deltas (PhotALPs_ICM.g y) (PhotALPs_ICM.B y)
                / (Delta_pl_kpc deltas (PhotALPs_ICM.n y) (PhotALPs_ICM.E y)
                   + 3.5 * Delta_QED_kpc deltas (PhotALPs_ICM.B y) (PhotALPs_ICM.E y)
                   - Delta_a_kpc deltas (PhotALPs_ICM.m y) (PhotALPs_ICM.E y))).
Proof. destruct y; reflexivity. Qed.

(** Without coupling the mixing angle is zero and the domain matrix does
    not mix the photon block with the ALP. *)
Lemma icm_uncoupled_domain (deltas : DeltaProvider) (y : PhotALPs_ICM.state) :
  T1_clean (PhotALPs_ICM.T1 y) ->
  Delta_ag_kpc deltas (PhotALPs_ICM.g y) (PhotALPs_ICM.B y) = 0 ->
  Delta_pl_kpc deltas (PhotALPs_ICM.n y) (PhotALPs_ICM.E y)
  + 3.5 * Delta_QED_kpc deltas (PhotALPs_ICM.B y) (PhotALPs_ICM.E y)
  <> Delta_a_kpc deltas (PhotALPs_ICM.m y) (PhotALPs_ICM.E y) ->
  PhotALPs_ICM.alph (PhotALPs_ICM.__setEW deltas y) = 0
  /\ decoupled (snd (PhotALPs_ICM.SetDomainN deltas y)).
Proof.
  intros Hclean Hag Hne.
  assert (Ha : PhotALPs_ICM.alph (PhotALPs_ICM.__setEW deltas y) = 0).
  { rewrite icm_mixing_angle, Hag.
    replace (2 * 0 / _) with 0 by (field; lra).
    rewrite atan_0; ring. }
  split; [exact Ha |].
  destruct (icm_SetDomainN_closed deltas y Hclean) as [-> _].
  rewrite Ha, cos_0, sin_0.
  unfold decoupled; cbn [madd mscale basis1 basis2 basis3 m02 m12 m20 m21 m22].
  repeat split; try (apply C_eq; simpl; ring).
  rewrite <- (Cexp_phase (Ci * PhotALPs_ICM.EW2 (PhotALPs_ICM.__setEW deltas y)
                          * PhotALPs_ICM.Lcoh y)%C) by apply re_i_times.
  apply C_eq; simpl; ring.
Qed.

Lemma gmf_set_E_params (x : PhotALPs_GMF.state) (E : R) :
  PhotALPs_ICM.E (PhotALPs_GMF.icm (PhotALPs_GMF.set_E x E)) = E
  /\ PhotALPs_ICM.g (PhotALPs_GMF.icm (PhotALPs_GMF.set_E x E))
     = PhotALPs_ICM.g (PhotALPs_GMF.icm x)
  /\ PhotALPs_ICM.m (PhotALPs_GMF.icm (PhotALPs_GMF.set_E x E))
     = PhotALPs_ICM.m (PhotALPs_GMF.icm x)
  /\ PhotALPs_ICM.n (PhotALPs_GMF.icm (PhotALPs_GMF.set_E x E))
     = PhotALPs_ICM.n (PhotALPs_GMF.icm x).
Proof. destruct x as [i ? ? ? ? ? ? ? ? ?]; destruct i; repeat split. Qed.

Lemma Pag_TM_loop_decoupled (deltas : DeltaProvider) (field : FieldModel) (sa : list R) :
  forall (x : PhotALPs_GMF.state) (U : Mat),
    T1_clean (PhotALPs_ICM.T1 (PhotALPs_GMF.icm x)) ->
    uncoupled deltas (PhotALPs_GMF.icm x) ->
    decoupled U ->
    decoupled (snd (PhotALPs_GMF.Pag_TM_loop deltas field x sa U)).
Proof.
  induction sa as [| s sa IH]; intros x U Hclean Hun HU; [exact HU |].
  rewrite Pag_TM_loop_cons.
  pose proof (Pag_TM_step_parameters deltas field x U s) as Hpar.
  pose proof (Pag_TM_step_clean deltas field x U s Hclean) as Hcl.
  apply IH; [exact Hcl | |].
  - destruct Hpar as (_ & _ & _ & _ & _ & _ & _ & _ & _ & _ & PE & Pg & Pm & Pn).
    unfold uncoupled in *; rewrite <- PE, <- Pg, <- Pm, <- Pn; exact Hun.
  - rewrite Pag_TM_step_eq; cbn [snd].
    apply decoupled_mdot; [exact HU |].
    destruct (set_domain_parameters field x s)
      as (_ & _ & _ & _ & _ & _ & _ & _ & _ & _ & PE & Pg & Pm & Pn).
    destruct Hun as [Hag Hne].
    apply icm_uncoupled_domain.
    + rewrite set_domain_T1; exact Hclean.
    + rewrite <- Pg; apply Hag.
    + rewrite <- PE, <- Pm, <- Pn; apply Hne.
Qed.

Lemma decoupled_alp_channel (U pol : Mat) :
  decoupled U -> m22 (mdot U (mdot pol (mdagger U))) = m22 pol.
Proof.
  intros (U02 & U12 & U20 & U21 & U22).
  destruct U as [u00 u01 u02 u10 u11 u12 u20 u21 u22].
  destruct pol as [p00 p01 p02 p10 p11 p12 p20 p21 p22].
  cbn [m02 m12 m20 m21 m22] in *; subst.
  cbn [mdot mdagger m00 m01 m02 m10 m11 m12 m20 m21 m22].
  replace (RtoC 0 * (p00 * Cconj (RtoC 0) + p01 * Cconj (RtoC 0) + p02 * Cconj u22)
           + RtoC 0 * (p10 * Cconj (RtoC 0) + p11 * Cconj (RtoC 0) + p12 * Cconj u22)
           + u22 * (p20 * Cconj (RtoC 0) + p21 * Cconj (RtoC 0) + p22 * Cconj u22))%C
    with (p22 * (u22 * Cconj u22))%C by (apply C_eq; simpl; ring).
  rewrite U22; ring.
Qed.

(** X15.  When the coupling term vanishes for every field strength (for
    instance [g = 0]), [Pag_TM] converts nothing: the ALP channel it
    returns is the ALP entry [pol[2,2]] of the input density matrix, and
    the two photon channels add up to [pol[0,0] + pol[1,1]]. *)
Theorem Pag_TM_without_coupling_converts_nothing
  (deltas : DeltaProvider) (field : FieldModel)
  (self : PhotALPs_GMF.state) (E ra dec : R) (pol : Mat) :
  T1_clean (PhotALPs_ICM.T1 (PhotALPs_GMF.icm self)) ->
  path_ok field self ra dec ->
  (forall B : R, Delta_ag_kpc deltas (PhotALPs_ICM.g (PhotALPs_GMF.icm self)) B = 0) ->
  (forall B : R,
     Delta_pl_kpc deltas (PhotALPs_ICM.n (PhotALPs_GMF.icm self)) E
     + 3.5 * Delta_QED_kpc deltas B E
     <> Delta_a_kpc deltas (PhotALPs_ICM.m (PhotALPs_GMF.icm self)) E) ->
  exists (self' : PhotALPs_GMF.state) (Pt Pu Pa : C),
    PhotALPs_GMF.Pag_TM deltas field self E ra dec pol None
    = Returned (self', PhotALPs_GMF.Channels Pt Pu Pa)
    /\ Pa = m22 pol
    /\ (Pt + Pu)%C = (m00 pol + m11 pol)%C.
Proof.
  intros Hclean Hok Hag Hne.
  destruct (Pag_TM_returns deltas field self E ra dec pol Hok)
    as (num & sa & _ & _ & Hret); cbv zeta in Hret.
  destruct (entry_state_frame field self E ra dec) as (_ & _ & HT); cbv zeta in HT.
  set (st := PhotALPs_GMF.set_E (PhotALPs_GMF.set_coordinates field self ra dec) E) in *.
  assert (Hcl : T1_clean (PhotALPs_ICM.T1 (PhotALPs_GMF.icm st)))
    by (rewrite HT; exact Hclean).
  assert (Hun : uncoupled deltas (PhotALPs_GMF.icm st)).
  { unfold uncoupled, st.
    destruct (gmf_set_E_params (PhotALPs_GMF.set_coordinates field self ra dec) E)
      as (-> & -> & -> & ->).
    rewrite set_coordinates_icm; split; assumption. }
  pose proof (Pag_TM_loop_unitary deltas field sa st Hcl) as HU.
  pose proof (Pag_TM_loop_decoupled deltas field sa st meye Hcl Hun decoupled_meye) as HD.
  set (U := snd _) in *.
  do 4 eexists; split; [exact Hret |].
  pose proof (channel_sum U pol) as Hsum.
  rewrite mtrace_conjugation in Hsum by exact HU.
  destruct (channel_diagonal U pol) as (_ & _ & Ea).
  rewrite Ea, (decoupled_alp_channel U pol HD) in *.
  split; [reflexivity |].
  unfold mtrace in Hsum.
  match goal with
  | |- (?Pt + ?Pu)%C = _ =>
      transitivity ((Pt + Pu + m22 pol) - m22 pol)%C; [ring | rewrite Hsum; ring]
  end.
Qed.

Lemma Pag_TM_without_coupling_converts_nothing_witness :
  exists (self' : PhotALPs_GMF.state) (Pt Pu Pa : C),
    PhotALPs_GMF.Pag_TM free_deltas sample_field sample_gmf 1 0 0 meye None
    = Returned (self', PhotALPs_GMF.Channels Pt Pu Pa)
    /\ Pa = m22 meye
    /\ (Pt + Pu)%C = (m00 meye + m11 meye)%C.
Proof.
  apply (Pag_TM_without_coupling_converts_nothing free_deltas sample_field sample_gmf
           1 0 0 meye sample_gmf_clean (sample_path_ok 0 0)).
  - intros B; reflexivity.
  - intros B; cbn [free_deltas Delta_pl_kpc Delta_QED_kpc Delta_a_kpc sample_gmf
                   PhotALPs_GMF.icm PhotALPs_ICM.n PhotALPs_ICM.m].
    pose proof PI_RGT_0; lra.
Defined.

(** ** Reciprocity *)

Lemma mtranspose_mdot (A B : Mat) :
  mtranspose (mdot A B) = mdot (mtranspose B) (mtranspose A).
Proof.
  destruct A as [a00 a01 a02 a10 a11 a12 a20 a21 a22].
  destruct B as [b00 b01 b02 b10 b11 b12 b20 b21 b22].
  cbv [mtranspose mdot m00 m01 m02 m10 m11 m12 m20 m21 m22]; f_equal; ring.
Qed.

Lemma symmetric_meye : symmetric meye.
Proof. reflexivity. Qed.

Lemma symmetric_combination (a1 a2 a3 : C) (A1 A2 A3 : Mat) :
  symmetric A1 -> symmetric A2 -> symmetric A3 ->
  symmetric (madd (madd (mscale a1 A1) (mscale a2 A2)) (mscale a3 A3)).
Proof.
  unfold symmetric; intros H1 H2 H3.
  destruct A1 as [a00 a01 a02 a10 a11 a12 a20 a21 a22].
  destruct A2 as [b00 b01 b02 b10 b11 b12 b20 b21 b22].
  destruct A3 as [c00 c01 c02 c10 c11 c12 c20 c21 c22].
  cbv [mtranspose m00 m01 m02 m10 m11 m12 m20 m21 m22] in H1, H2, H3.
  injection H1 as ? ? ? ? ? ?; injection H2 as ? ? ? ? ? ?; injection H3 as ? ? ? ? ? ?.
  subst; reflexivity.
Qed.

Lemma icm_SetDomainN_symmetric (deltas : DeltaProvider) (self : PhotALPs_ICM.state) :
  T1_clean (PhotALPs_ICM.T1 self) ->
  symmetric (snd (PhotALPs_ICM.SetDomainN deltas self)).
Proof.
  intros Hclean.
  destruct (icm_SetDomainN_closed deltas self Hclean) as [-> _].
  apply symmetric_combination; reflexivity.
Qed.

(** X16.  Wherever its coefficients are defined (a domain of non-zero
    length with [4 dn^2 <> 1] for [PhotALPs], [Dpar <> Da] for
    [PhotALPs_ICM]) the transfer matrix of a domain is symmetric in both
    variants: the amplitude from photon to ALP is the amplitude from ALP
    to photon, and likewise between the two polarisations. *)
Theorem domain_matrices_are_symmetric
  (opt_depth : R -> R -> R) (deltas : DeltaProvider)
  (igm : PhotALPs.state) (n : Z) (icm : PhotALPs_ICM.state) :
  (T1_clean (PhotALPs.T1 igm) ->
   PhotALPs.dz igm <> 0 -> 1 + 1.45 * (IZR n - 1) * PhotALPs.dz igm <> 0 ->
   4 * PhotALPs.dn_of opt_depth igm n ^ 2 <> 1 ->
   exists igm' : PhotALPs.state,
     PhotALPs.SetDomainN opt_depth igm n = Returned (igm', PhotALPs.Un igm')
     /\ symmetric (PhotALPs.Un igm'))
  /\ (T1_clean (PhotALPs_ICM.T1 icm) ->
      mixing_defined deltas icm ->
      symmetric (snd (PhotALPs_ICM.SetDomainN deltas icm))).
Proof.
  split.
  - intros Hclean Hdz Hden _.
    pose proof (igm_mfn_nonzero opt_depth igm n Hdz Hden) as Hmfn.
    destruct (igm_SetDomainN_state opt_depth igm n Hclean Hden Hmfn)
      as (igm' & Hret & _ & _ & _ & _ & _ & _ & _ & _ & HT1 & HT2 & HT3 & HU).
    exists igm'; split; [exact Hret |].
    rewrite HU, HT1, HT2, HT3.
    apply symmetric_combination; reflexivity.
  - intros Hclean _; apply icm_SetDomainN_symmetric, Hclean.
Qed.

Lemma domain_matrices_are_symmetric_witness :
  (exists igm' : PhotALPs.state,
     PhotALPs.SetDomainN sample_tau sample_igm 1 = Returned (igm', PhotALPs.Un igm')
     /\ symmetric (PhotALPs.Un igm'))
  /\ symmetric (snd (PhotALPs_ICM.SetDomainN sample_deltas light_icm)).
Proof.
  destruct (domain_matrices_are_symmetric sample_tau sample_deltas sample_igm 1 light_icm)
    as [Higm Hicm].
  split.
  - apply (Higm T1_clean_mzeros sample_igm_dz sample_igm_den).
    pose proof sample_igm_dn_large; nra.
  - exact (Hicm T1_clean_mzeros light_icm_mixing_defined).
Defined.

Lemma mprod_app (l1 l2 : list Mat) : mprod (l1 ++ l2) = mdot (mprod l1) (mprod l2).
Proof.
  induction l1 as [| A l1 IH]; cbn [app mprod].
  - rewrite mdot_meye_l; reflexivity.
  - rewrite IH, mdot_assoc; reflexivity.
Qed.

Lemma mtranspose_mprod (l : list Mat) :
  Forall symmetric l -> mtranspose (mprod l) = mprod (rev l).
Proof.
  induction 1 as [| A l HA _ IH]; [reflexivity |].
  cbn [mprod rev]; rewrite mtranspose_mdot, mprod_app, IH, HA.
  cbn [mprod]; rewrite mdot_meye_r; reflexivity.
Qed.

Lemma domain_matrices_symmetric (deltas : DeltaProvider) (field : FieldModel) (sa : list R) :
  forall self : PhotALPs_GMF.state,
    T1_clean (PhotALPs_ICM.T1 (PhotALPs_GMF.icm self)) ->
    Forall symmetric (PhotALPs_GMF.domain_matrices deltas field self sa).
Proof.
  induction sa as [| s sa IH]; intros self Hclean; [constructor |].
  rewrite domain_matrices_cons; constructor.
  - apply icm_SetDomainN_symmetric; rewrite set_domain_T1; exact Hclean.
  - apply IH, Pag_TM_step_clean, Hclean.
Qed.

(** X17.  The matrix [Pag_TM] accumulates along a path, transposed, is
    the product of the same domain matrices taken in the opposite order:
    walking the cells from the sun outwards instead of inwards transposes
    the transfer matrix. *)
Theorem Pag_TM_reversed_path_is_transpose
  (deltas : DeltaProvider) (field : FieldModel)
  (self : PhotALPs_GMF.state) (sa : list R) :
  T1_clean (PhotALPs_ICM.T1 (PhotALPs_GMF.icm self)) ->
  mtranspose (snd (PhotALPs_GMF.Pag_TM_loop deltas field self sa meye))
  = mprod (rev (PhotALPs_GMF.domain_matrices deltas field self sa)).
Proof.
  intros Hclean.
  rewrite Pag_TM_loop_product, mdot_meye_l.
  apply mtranspose_mprod, domain_matrices_symmetric, Hclean.
Qed.

Lemma Pag_TM_reversed_path_is_transpose_witness :
  mtranspose (snd (PhotALPs_GMF.Pag_TM_loop sample_deltas sample_field sample_entry
                     [2; 1] meye))
  = mprod (rev (PhotALPs_GMF.domain_matrices sample_deltas sample_field sample_entry
                  [2; 1])).
Proof.
  apply (Pag_TM_reversed_path_is_transpose sample_deltas sample_field sample_entry [2; 1]).
  exact (proj2 (proj2 (proj2 (proj2 (proj2 sample_entry_on_path))))).
Defined.

(** ** The eigenvalues and basis matrices as a spectral decomposition *)

Lemma icm_setEW_fields (deltas : DeltaProvider) (y : PhotALPs_ICM.state) :
  let e := PhotALPs_ICM.__setEW deltas y in
  PhotALPs_ICM.alph e
  = 0.5 * atan (2 * PhotALPs_ICM.Dag e / (PhotALPs_ICM.Dpar e - PhotALPs_ICM.Da e))
  /\ PhotALPs_ICM.Dosc e
     = sqrt ((PhotALPs_ICM.Dpar e - PhotALPs_ICM.Da e) ^ 2 + 4 * PhotALPs_ICM.Dag e ^ 2)
  /\ PhotALPs_ICM.EW1 e = PhotALPs_ICM.Dperp e
  /\ PhotALPs_ICM.EW2 e
     = 0.5 * (PhotALPs_ICM.Dpar e + PhotALPs_ICM.Da e - PhotALPs_ICM.Dosc e)
  /\ PhotALPs_ICM.EW3 e
     = 0.5 * (PhotALPs_ICM.Dpar e + PhotALPs_ICM.Da e + PhotALPs_ICM.Dosc e).
Proof. destruct y; repeat split. Qed.

Lemma icm_SetDomainN_arrays (deltas : DeltaProvider) (self : PhotALPs_ICM.state) :
  T1_clean (PhotALPs_ICM.T1 self) ->
  let e := PhotALPs_ICM.__setEW deltas self in
  let x := fst (PhotALPs_ICM.SetDomainN deltas self) in
  let c := cos (PhotALPs_ICM.Psin self) in
  let s := sin (PhotALPs_ICM.Psin self) in
  let ca := cos (PhotALPs_ICM.alph e) in
  let sa := sin (PhotALPs_ICM.alph e) in
  PhotALPs_ICM.T1 x = basis1 c s /\ PhotALPs_ICM.T2 x = basis2 c s ca sa
  /\ PhotALPs_ICM.T3 x = basis3 c s ca sa
  /\ PhotALPs_ICM.EW1 x = PhotALPs_ICM.EW1 e /\ PhotALPs_ICM.EW2 x = PhotALPs_ICM.EW2 e
  /\ PhotALPs_ICM.EW3 x = PhotALPs_ICM.EW3 e.
Proof.
  intros Hclean e x c s ca sa; subst x c s ca sa.
  destruct (icm_setEW_frame deltas self) as (FP & FL & FT).
  fold e in FP, FL, FT.
  assert (He : T1_clean (PhotALPs_ICM.T1 e)) by (rewrite FT; exact Hclean).
  pose proof (icm_basis_closed e He) as (E1 & E2 & E3); cbv zeta in E1, E2, E3.
  pose proof (icm_basis_frame e) as (F1 & F2 & F3 & F4); cbv zeta in F1, F2, F3, F4.
  rewrite icm_SetDomainN_unfold; cbv zeta; fold e; unfold fst.
  set (x0 := PhotALPs_ICM.__setT3n _) in *.
  assert (HU : PhotALPs_ICM.T1 (PhotALPs_ICM.__setUn x0) = PhotALPs_ICM.T1 x0
               /\ PhotALPs_ICM.T2 (PhotALPs_ICM.__setUn x0) = PhotALPs_ICM.T2 x0
               /\ PhotALPs_ICM.T3 (PhotALPs_ICM.__setUn x0) = PhotALPs_ICM.T3 x0
               /\ PhotALPs_ICM.EW1 (PhotALPs_ICM.__setUn x0) = PhotALPs_ICM.EW1 x0
               /\ PhotALPs_ICM.EW2 (PhotALPs_ICM.__setUn x0) = PhotALPs_ICM.EW2 x0
               /\ PhotALPs_ICM.EW3 (PhotALPs_ICM.__setUn x0) = PhotALPs_ICM.EW3 x0)
    by (destruct x0; repeat split).
  destruct HU as (-> & -> & -> & -> & -> & ->).
  rewrite E1, E2, E3, F1, F2, F3, FP; repeat split.
Qed.

(** The double mixing angle: [Dosc cos(2 alph) = |Dpar - Da|] and
    [Dosc sin(2 alph) = 2 Dag] up to the sign of [Dpar - Da]. *)
Lemma double_mixing_angle (Dag delta : R) :
  delta <> 0 ->
  let alph := 0.5 * atan (2 * Dag / delta) in
  let Dosc := sqrt (delta ^ 2 + 4 * Dag ^ 2) in
  Dosc * (cos alph * cos alph - sin alph * sin alph) = Rabs delta
  /\ Dosc * (2 * sin alph * cos alph) * delta = 2 * Dag * Rabs delta.
Proof.
  intros Hd alph Dosc; subst alph Dosc.
  set (x := 2 * Dag / delta).
  assert (H2a : 2 * (0.5 * atan x) = atan x) by lra.
  assert (Hpos : 0 < 1 + x²) by (unfold Rsqr; nra).
  assert (Hsq : 0 < sqrt (1 + x²)) by (apply sqrt_lt_R0; exact Hpos).
  assert (HD : sqrt (delta ^ 2 + 4 * Dag ^ 2) = Rabs delta * sqrt (1 + x²)).
  { replace (delta ^ 2 + 4 * Dag ^ 2) with (delta² * (1 + x²))
      by (unfold x, Rsqr; field; exact Hd).
    rewrite sqrt_mult by (try apply Rle_0_sqr; lra).
    rewrite sqrt_Rsqr_abs; reflexivity. }
  rewrite <- cos_2a, <- sin_2a, H2a, cos_atan, sin_atan, HD.
  split; [field; lra |].
  transitivity (Rabs delta * (x * delta)); [field; lra |].
  unfold x; field; exact Hd.
Qed.

(** The generator on the closed forms, from the two relations of the
    double mixing angle. *)
Lemma icm_generator_closed (c s ca sa Dperp Dpar Dag Da Dosc : R) :
  c * c + s * s = 1 -> ca * ca + sa * sa = 1 ->
  Dosc * (ca * ca - sa * sa) = Dpar - Da ->
  Dosc * (2 * sa * ca) = 2 * Dag ->
  generator (RtoC Dperp) (RtoC (0.5 * (Dpar + Da - Dosc))) (RtoC (0.5 * (Dpar + Da + Dosc)))
            (basis1 c s) (basis2 c s ca sa) (basis3 c s ca sa)
  = mixing_matrix c s Dperp Dpar Dag Da.
Proof.
  intros Hcs Ha K1 K2.
  assert (Hh : exists h, h = 0.5 /\ 2 * h = 1) by (exists 0.5; split; lra).
  destruct Hh as (h & <- & Hh).
  unfold generator, mixing_matrix.
  cbv [madd mscale basis1 basis2 basis3 m00 m01 m02 m10 m11 m12 m20 m21 m22].
  f_equal; apply C_eq; cbn [Cadd Cmul RtoC re im]; nsatz.
Qed.

(** X18.  The eigenvalues and basis matrices [PhotALPs_ICM.SetDomainN]
    leaves in the instance are a spectral decomposition of the mixing
    matrix: [EW1 T1 + EW2 T2 + EW3 T3] is the mixing matrix with the terms
    [Dperp], [Dpar], [Dag], [Da] when [Dpar > Da].  When [Dpar < Da] the
    principal branch of [arctan] exchanges the roles of [Dpar] and [Da] and
    flips the sign of [Dag]. *)
Theorem icm_eigenvalues_rebuild_mixing_matrix
  (deltas : DeltaProvider) (self : PhotALPs_ICM.state) :
  T1_clean (PhotALPs_ICM.T1 self) ->
  let e := PhotALPs_ICM.__setEW deltas self in
  let x := fst (PhotALPs_ICM.SetDomainN deltas self) in
  let c := cos (PhotALPs_ICM.Psin self) in
  let s := sin (PhotALPs_ICM.Psin self) in
  let G := generator (RtoC (PhotALPs_ICM.EW1 x)) (RtoC (PhotALPs_ICM.EW2 x))
                     (RtoC (PhotALPs_ICM.EW3 x))
                     (PhotALPs_ICM.T1 x) (PhotALPs_ICM.T2 x) (PhotALPs_ICM.T3 x) in
  (PhotALPs_ICM.Da e < PhotALPs_ICM.Dpar e ->
   G = mixing_matrix c s (PhotALPs_ICM.Dperp e) (PhotALPs_ICM.Dpar e)
                     (PhotALPs_ICM.Dag e) (PhotALPs_ICM.Da e))
  /\ (PhotALPs_ICM.Dpar e < PhotALPs_ICM.Da e ->
      G = mixing_matrix c s (PhotALPs_ICM.Dperp e) (PhotALPs_ICM.Da e)
                        (- PhotALPs_ICM.Dag e) (PhotALPs_ICM.Dpar e)).
Proof.
  intros Hclean e x c s G; subst G x c s e.
  destruct (icm_SetDomainN_arrays deltas self Hclean) as (-> & -> & -> & -> & -> & ->).
  destruct (icm_setEW_fields deltas self) as (Halph & Hosc & -> & -> & ->).
  set (e := PhotALPs_ICM.__setEW deltas self) in *.
  pose proof (cos_sin_unit (PhotALPs_ICM.Psin self)) as Hcs.
  pose proof (cos_sin_unit (PhotALPs_ICM.alph e)) as Ha.
  set (Dpar := PhotALPs_ICM.Dpar e) in *; set (Da := PhotALPs_ICM.Da e) in *.
  set (Dag := PhotALPs_ICM.Dag e) in *; set (Dosc := PhotALPs_ICM.Dosc e) in *.
  split; intros Hlt.
  - assert (Hd : Dpar - Da <> 0) by lra.
    destruct (double_mixing_angle Dag (Dpar - Da) Hd) as [K1 K2]; cbv zeta in K1, K2.
    rewrite <- Halph, <- Hosc in K1, K2.
    rewrite Rabs_pos_eq in K1, K2 by lra.
    apply icm_generator_closed; try assumption.
    apply (Rmult_eq_reg_r (Dpar - Da)); [| exact Hd]; lra.
  - assert (Hd : Dpar - Da <> 0) by lra.
    destruct (double_mixing_angle Dag (Dpar - Da) Hd) as [K1 K2]; cbv zeta in K1, K2.
    rewrite <- Halph, <- Hosc in K1, K2.
    rewrite Rabs_left in K1, K2 by lra.
    replace (Dpar + Da - Dosc) with (Da + Dpar - Dosc) by ring.
    replace (Dpar + Da + Dosc) with (Da + Dpar + Dosc) by ring.
    apply icm_generator_closed; try assumption; [lra |].
    apply (Rmult_eq_reg_r (Dpar - Da)); [| exact Hd]; lra.
Qed.

Lemma light_icm_terms :
  PhotALPs_ICM.Da (PhotALPs_ICM.__setEW sample_deltas light_icm)
  < PhotALPs_ICM.Dpar (PhotALPs_ICM.__setEW sample_deltas light_icm).
Proof. simpl; lra. Qed.

Lemma icm_eigenvalues_rebuild_mixing_matrix_witness :
  let e := PhotALPs_ICM.__setEW sample_deltas light_icm in
  let x := fst (PhotALPs_ICM.SetDomainN sample_deltas light_icm) in
  generator (RtoC (PhotALPs_ICM.EW1 x)) (RtoC (PhotALPs_ICM.EW2 x))
            (RtoC (PhotALPs_ICM.EW3 x))
            (PhotALPs_ICM.T1 x) (PhotALPs_ICM.T2 x) (PhotALPs_ICM.T3 x)
  = mixing_matrix (cos (PhotALPs_ICM.Psin light_icm)) (sin (PhotALPs_ICM.Psin light_icm))
                  (PhotALPs_ICM.Dperp e) (PhotALPs_ICM.Dpar e)
                  (PhotALPs_ICM.Dag e) (PhotALPs_ICM.Da e).
Proof.
  exact (proj1 (icm_eigenvalues_rebuild_mixing_matrix sample_deltas light_icm
                  T1_clean_mzeros) light_icm_terms).
Defined.

Lemma igm_generator_shape (cC sC m1 h q dC D k : C) :
  (cC * cC + sC * sC)%C = RtoC 1 -> (m1 + RtoC 1)%C = RtoC 0 ->
  (h + h)%C = RtoC 1 -> (D * k)%C = RtoC 1 ->
  generator (q + q)%C (q * (RtoC 1 + D))%C (q * (RtoC 1 - D))%C
    (mkMat (cC * cC)%C (m1 * sC * cC)%C (RtoC 0)
           (m1 * sC * cC)%C (sC * sC)%C (RtoC 0)
           (RtoC 0) (RtoC 0) (RtoC 0))
    (mkMat (h * (RtoC 1 + D) * k * sC * sC)%C (h * (RtoC 1 + D) * k * sC * cC)%C
           (- Ci * dC * k * sC)%C
           (h * (RtoC 1 + D) * k * sC * cC)%C (h * (RtoC 1 + D) * k * cC * cC)%C
           (- Ci * dC * k * cC)%C
           (- Ci * dC * k * sC)%C (- Ci * dC * k * cC)%C (h * (m1 + D) * k)%C)
    (mkMat (h * (m1 + D) * k * sC * sC)%C (h * (m1 + D) * k * sC * cC)%C
           (Ci * dC * k * sC)%C
           (h * (m1 + D) * k * sC * cC)%C (h * (m1 + D) * k * cC * cC)%C
           (Ci * dC * k * cC)%C
           (Ci * dC * k * sC)%C (Ci * dC * k * cC)%C (h * (RtoC 1 + D) * k)%C)
  = mkMat (q + q)%C (RtoC 0) (- Ci * (q + q) * dC * sC)%C
          (RtoC 0) (q + q)%C (- Ci * (q + q) * dC * cC)%C
          (- Ci * (q + q) * dC * sC)%C (- Ci * (q + q) * dC * cC)%C (RtoC 0).
Proof.
  intros Hcs Hm Hh Hk.
  cbv [generator madd mscale m00 m01 m02 m10 m11 m12 m20 m21 m22].
  f_equal; nsatz.
Qed.

Lemma igm_basis1_shape (c s : R) :
  igm_basis1 c s
  = mkMat (RtoC c * RtoC c)%C (RtoC (-1) * RtoC s * RtoC c)%C (RtoC 0)
          (RtoC (-1) * RtoC s * RtoC c)%C (RtoC s * RtoC s)%C (RtoC 0)
          (RtoC 0) (RtoC 0) (RtoC 0).
Proof. unfold igm_basis1; f_equal; apply C_eq; simpl; ring. Qed.

(** X19.  The eigenvalues and basis matrices [PhotALPs.SetDomainN] leaves
    in the instance are a spectral decomposition of the matrix of
    absorption and mixing: [EW1n T1 + EW2n T2 + EW3n T3] has [-1/(2 mfn)]
    on both photon entries, zero on the ALP entry, and couples the
    polarisation along the field to the ALP with [i dn / (2 mfn)]. *)
Theorem igm_eigenvalues_rebuild_absorption_matrix
  (opt_depth : R -> R -> R) (self : PhotALPs.state) (n : Z) :
  T1_clean (PhotALPs.T1 self) ->
  PhotALPs.dz self <> 0 ->
  1 + 1.45 * (IZR n - 1) * PhotALPs.dz self <> 0 ->
  4 * PhotALPs.dn_of opt_depth self n ^ 2 <> 1 ->
  exists self' : PhotALPs.state,
    PhotALPs.SetDomainN opt_depth self n = Returned (self', PhotALPs.Un self')
    /\ generator (RtoC (PhotALPs.EW1n self')) (PhotALPs.EW2n self') (PhotALPs.EW3n self')
                 (PhotALPs.T1 self') (PhotALPs.T2 self') (PhotALPs.T3 self')
       = absorption_matrix (cos (PhotALPs.Psin self)) (sin (PhotALPs.Psin self))
                           (PhotALPs.mfn_at opt_depth self n) (PhotALPs.dn self').
Proof.
  intros Hclean Hdz Hden Hdn.
  pose proof (igm_mfn_nonzero opt_depth self n Hdz Hden) as Hmfn.
  destruct (igm_SetDomainN_state opt_depth self n Hclean Hden Hmfn)
    as (self' & Hret & _ & _ & Hd & HD & H1 & H2 & H3 & _ & HT1 & HT2 & HT3 & _).
  exists self'; split; [exact Hret |].
  assert (Hx : 1 - 4 * PhotALPs.dn self' ^ 2 <> 0) by (rewrite Hd; lra).
  assert (HD0 : PhotALPs.Dn self' <> RtoC 0) by (rewrite HD; apply Csqrt_real_nonzero, Hx).
  pose proof (Cinv_r _ HD0) as Hk.
  rewrite HT1, HT2, HT3, H1, H2, H3.
  set (mfn := PhotALPs.mfn_at opt_depth self n) in *.
  set (c := cos (PhotALPs.Psin self)); set (s := sin (PhotALPs.Psin self)).
  set (d := PhotALPs.dn self') in *; set (D := PhotALPs.Dn self') in *.
  replace (RtoC (-0.5 / mfn)) with (RtoC (-0.25 / mfn) + RtoC (-0.25 / mfn))%C
    by (apply C_eq; simpl; lra).
  rewrite igm_basis1_shape; unfold igm_basis2, igm_basis3, Cdiv.
  rewrite igm_generator_shape.
  - replace (-0.25) with (- (1 / 4)) by lra.
    unfold absorption_matrix; f_equal; apply C_eq; simpl; field; exact Hmfn.
  - pose proof (cos_sin_unit (PhotALPs.Psin self)) as Hcs; fold c s in Hcs.
    apply C_eq; cbn [Cadd Cmul RtoC re im]; lra.
  - apply C_eq; simpl; lra.
  - apply C_eq; simpl; lra.
  - exact Hk.
Qed.

Lemma igm_eigenvalues_rebuild_absorption_matrix_witness :
  exists self' : PhotALPs.state,
    PhotALPs.SetDomainN sample_tau sample_igm 1 = Returned (self', PhotALPs.Un self')
    /\ generator (RtoC (PhotALPs.EW1n self')) (PhotALPs.EW2n self') (PhotALPs.EW3n self')
                 (PhotALPs.T1 self') (PhotALPs.T2 self') (PhotALPs.T3 self')
       = absorption_matrix (cos (PhotALPs.Psin sample_igm)) (sin (PhotALPs.Psin sample_igm))
                           (PhotALPs.mfn_at sample_tau sample_igm 1) (PhotALPs.dn self').
Proof.
  apply (igm_eigenvalues_rebuild_absorption_matrix sample_tau sample_igm 1).
  - exact T1_clean_mzeros.
  - exact sample_igm_dz.
  - exact sample_igm_den.
  - pose proof sample_igm_dn_large; nra.
Defined.

(** ** Successive calls on one instance *)

Lemma gmf_init_clean (h pt pu g m n gal rho z d Lcoh : R) (self : PhotALPs_GMF.state) :
  PhotALPs_GMF.init h pt pu g m n gal rho z d Lcoh = Returned self ->
  T1_clean (PhotALPs_ICM.T1 (PhotALPs_GMF.icm self))
  /\ PhotALPs_ICM.Lcoh (PhotALPs_GMF.icm self) = Lcoh /\ Lcoh <> 0
  /\ PhotALPs_GMF.galactic self = gal.
Proof.
  unfold PhotALPs_GMF.init, PhotALPs_ICM.init, pydiv.
  destruct (Req_dec_T Lcoh 0) as [H0 | H0]; cbn [bind]; [discriminate |].
  intros H; injection H as <-.
  repeat split; exact H0.
Qed.

(** One call of [Pag_TM]: what it returns and the instance it leaves. *)
Lemma Pag_TM_call (deltas : DeltaProvider) (field : FieldModel)
  (self : PhotALPs_GMF.state) (E ra dec : R) (pol : Mat) :
  T1_clean (PhotALPs_ICM.T1 (PhotALPs_GMF.icm self)) ->
  path_ok field self ra dec ->
  exists (self' : PhotALPs_GMF.state) (Pt Pu Pa : C),
    PhotALPs_GMF.Pag_TM deltas field self E ra dec pol None
    = Returned (self', PhotALPs_GMF.Channels Pt Pu Pa)
    /\ (Pt + Pu + Pa)%C = mtrace pol
    /\ T1_clean (PhotALPs_ICM.T1 (PhotALPs_GMF.icm self'))
    /\ forall ra' dec' : R, path_ok field self ra' dec' -> path_ok field self' ra' dec'.
Proof.
  intros Hclean Hok.
  destruct (Pag_TM_returns deltas field self E ra dec pol Hok)
    as (num & sa & _ & _ & Hret); cbv zeta in Hret.
  destruct (entry_state_frame field self E ra dec) as (F1 & F2 & F3); cbv zeta in F1, F2, F3.
  destruct (entry_state_geometry field self E ra dec) as (G1 & G2 & G3 & G4 & _);
    cbv zeta in G1, G2, G3, G4.
  set (st := PhotALPs_GMF.set_E (PhotALPs_GMF.set_coordinates field self ra dec) E) in *.
  assert (Hcl : T1_clean (PhotALPs_ICM.T1 (PhotALPs_GMF.icm st)))
    by (rewrite F3; exact Hclean).
  pose proof (Pag_TM_loop_unitary deltas field sa st Hcl) as HU.
  destruct (Pag_TM_loop_parameters deltas field sa st meye) as [Hpar Hcl'].
  do 4 eexists; split; [exact Hret |].
  split; [rewrite channel_sum, mtrace_conjugation by exact HU; reflexivity |].
  split; [exact (Hcl' Hcl) |].
  destruct Hpar as (_ & _ & _ & _ & _ & P1 & P2 & P3 & P4 & P5 & _).
  intros ra' dec' [HL Hn]; split.
  - rewrite <- P5, F2; exact HL.
  - rewrite <- P5, F2.
    rewrite (smax_of_geometry field _ self ra' dec'); [exact Hn | | | |]; congruence.
Qed.

(** X20.  On an instance the constructor has returned, two successive
    calls of [Pag_TM] (with any energies off the resonance [Dpar = Da],
    and any coordinates and input matrices whose paths can be walked) both
    return, and both conserve the trace:
    what the first call leaves in the shared arrays, in the field angle,
    in the energy and in the coordinates does not disturb the second. *)
Theorem Pag_TM_twice_on_a_fresh_instance
  (deltas : DeltaProvider) (field : FieldModel)
  (h pt pu g m n gal rho z d Lcoh : R) (self : PhotALPs_GMF.state)
  (E1 ra1 dec1 E2 ra2 dec2 : R) (pol1 pol2 : Mat) :
  PhotALPs_GMF.init h pt pu g m n gal rho z d Lcoh = Returned self ->
  path_ok field self ra1 dec1 ->
  path_ok field self ra2 dec2 ->
  off_resonance deltas (PhotALPs_GMF.icm self) E1 ->
  off_resonance deltas (PhotALPs_GMF.icm self) E2 ->
  exists (self1 self2 : PhotALPs_GMF.state) (Pt1 Pu1 Pa1 Pt2 Pu2 Pa2 : C),
    PhotALPs_GMF.Pag_TM deltas field self E1 ra1 dec1 pol1 None
    = Returned (self1, PhotALPs_GMF.Channels Pt1 Pu1 Pa1)
    /\ (Pt1 + Pu1 + Pa1)%C = mtrace pol1
    /\ PhotALPs_GMF.Pag_TM deltas field self1 E2 ra2 dec2 pol2 None
       = Returned (self2, PhotALPs_GMF.Channels Pt2 Pu2 Pa2)
    /\ (Pt2 + Pu2 + Pa2)%C = mtrace pol2.
Proof.
  intros Hinit Hok1 Hok2 _ _.
  destruct (gmf_init_clean _ _ _ _ _ _ _ _ _ _ _ _ Hinit) as (Hclean & _).
  destruct (Pag_TM_call deltas field self E1 ra1 dec1 pol1 Hclean Hok1)
    as (self1 & Pt1 & Pu1 & Pa1 & Hret1 & Hsum1 & Hclean1 & Hpath1).
  destruct (Pag_TM_call deltas field self1 E2 ra2 dec2 pol2 Hclean1 (Hpath1 _ _ Hok2))
    as (self2 & Pt2 & Pu2 & Pa2 & Hret2 & Hsum2 & _).
  exists self1, self2, Pt1, Pu1, Pa1, Pt2, Pu2, Pa2.
  repeat split; assumption.
Qed.

Lemma Pag_TM_twice_on_a_fresh_instance_witness :
  exists (self1 self2 : PhotALPs_GMF.state) (Pt1 Pu1 Pa1 Pt2 Pu2 Pa2 : C),
    PhotALPs_GMF.Pag_TM sample_deltas sample_field sample_gmf 1 0 0 meye None
    = Returned (self1, PhotALPs_GMF.Channels Pt1 Pu1 Pa1)
    /\ (Pt1 + Pu1 + Pa1)%C = mtrace meye
    /\ PhotALPs_GMF.Pag_TM sample_deltas sample_field self1 2 1 1 meye None
       = Returned (self2, PhotALPs_GMF.Channels Pt2 Pu2 Pa2)
    /\ (Pt2 + Pu2 + Pa2)%C = mtrace meye.
Proof.
  exact (Pag_TM_twice_on_a_fresh_instance sample_deltas sample_field
           0.72 (1 / sqrt 2) (1 / sqrt 2) (2 * PI) 0 (3 * PI) 2 20 50 (-8.5) 1
           sample_gmf 1 0 0 2 1 1 meye meye
           sample_gmf_init (sample_path_ok 0 0) (sample_path_ok 1 1)
           (sample_gmf_off_resonance 1 Rlt_0_1) (sample_gmf_off_resonance 2 Rlt_0_2)).
Defined.

(** ** A cell size of zero *)

Lemma entry_state_galactic (field : FieldModel) (self : PhotALPs_GMF.state) (E ra dec : R) :
  let st := PhotALPs_GMF.set_E (PhotALPs_GMF.set_coordinates field self ra dec) E in
  PhotALPs_GMF.galactic st = PhotALPs_GMF.galactic self.
Proof. exact (proj1 (entry_state_geometry field self E ra dec)). Qed.

Lemma cells_zero_cell_size (x : PhotALPs_GMF.state) :
  PhotALPs_ICM.Lcoh (PhotALPs_GMF.icm x) = 0 -> 0 <= PhotALPs_GMF.galactic x ->
  PhotALPs_GMF.cells x = Raised ZeroDivisionError.
Proof.
  intros HL Hg; unfold PhotALPs_GMF.cells.
  destruct (Req_dec_T _ 0) as [_ | H]; [| contradiction].
  destruct (Rlt_dec _ 0) as [H | _]; [lra | reflexivity].
Qed.

(** X21.  When the cell size [Lcoh] of an instance has been set to zero,
    both entry points raise [ZeroDivisionError] on a galactic source,
    before any field is evaluated. *)
Theorem zero_cell_size_raises
  (deltas : DeltaProvider) (field : FieldModel) (simps : list R -> list R -> R)
  (self : PhotALPs_GMF.state) (E ra dec pt pu : R) (pol : Mat) :
  PhotALPs_ICM.Lcoh (PhotALPs_GMF.icm self) = 0 ->
  0 <= PhotALPs_GMF.galactic self ->
  PhotALPs_GMF.Pag_TM deltas field self E ra dec pol None = Raised ZeroDivisionError
  /\ PhotALPs_GMF.Pag deltas field simps self E ra dec pt pu = Raised ZeroDivisionError.
Proof.
  intros HL Hg.
  destruct (entry_state_frame field self E ra dec) as (_ & F2 & _); cbv zeta in F2.
  pose proof (entry_state_galactic field self E ra dec) as G1; cbv zeta in G1.
  split.
  - unfold PhotALPs_GMF.Pag_TM; cbv zeta.
    rewrite cells_zero_cell_size; [reflexivity | rewrite F2; exact HL | rewrite G1; exact Hg].
  - unfold PhotALPs_GMF.Pag; cbv zeta.
    set (st := PhotALPs_GMF.set_E (PhotALPs_GMF.set_coordinates field self ra dec) E) in *.
    assert (Hc : forall x : PhotALPs_GMF.state,
               PhotALPs_GMF.icm x = PhotALPs_GMF.icm st ->
               PhotALPs_GMF.galactic x = PhotALPs_GMF.galactic st ->
               PhotALPs_GMF.integrate_los deltas field simps x = Raised ZeroDivisionError).
    { intros x Hi Hgx; unfold PhotALPs_GMF.integrate_los.
      rewrite cells_zero_cell_size; [reflexivity | rewrite Hi, F2; exact HL |].
      rewrite Hgx, G1; exact Hg. }
    destruct (Rgt_dec pt 0), (Rgt_dec pu 0);
      rewrite Hc; try reflexivity; destruct st; reflexivity.
Qed.

Lemma zero_cell_size_raises_witness :
  PhotALPs_GMF.Pag_TM sample_deltas sample_field
    (PhotALPs_GMF.set_icm sample_gmf (with_Lcoh (PhotALPs_GMF.icm sample_gmf) 0))
    1 0 0 meye None
  = Raised ZeroDivisionError.
Proof.
  refine (proj1 (zero_cell_size_raises sample_deltas sample_field sample_simps
                   (PhotALPs_GMF.set_icm sample_gmf
                      (with_Lcoh (PhotALPs_GMF.icm sample_gmf) 0))
                   1 0 0 0 0 meye _ _)).
  - reflexivity.
  - simpl; lra.
Defined.

(** ** The fitted optical depth *)

Lemma anomal_positive (z : R) :
  0 <= z ->
  0 < 1003.34072943900 + 1744.79443325556 * z
      + -3950.79983395431 * z ^ 2 + 3095.04470168520 * z ^ 3.
Proof.
  intros Hz.
  assert (Hq : 0 < 1744 - 3951 * z + 3095 * (z * z)).
  { pose proof (Rle_0_sqr (3095 * z - 1975.5)) as Hs; unfold Rsqr in Hs; nra. }
  nra.
Qed.

Lemma Tau_Giorgio_unfold (z E : R) :
  Tau_Giorgio z E
  = (1003.34072943900 + 1744.79443325556 * z
     + -3950.79983395431 * z ^ 2 + 3095.04470168520 * z ^ 3)
    * z * Rpower 10 (Tau_Giorgio_exponent z E).
Proof. reflexivity. Qed.

(** X22.  For a redshift [z >= 0] and an energy [E > 0] at which the
    exponent of ten stays within the range of a double
    ([-300 <= exponent <= 300], which bounds the energy on both sides),
    the fitted optical depth [Tau_Giorgio(z, E)] is never negative, and it
    vanishes exactly at [z = 0]. *)
Theorem Tau_Giorgio_is_an_optical_depth (z E : R) :
  0 <= z -> 0 < E ->
  -300 <= Tau_Giorgio_exponent z E <= 300 ->
  0 <= Tau_Giorgio z E
  /\ (Tau_Giorgio z E = 0 <-> z = 0)
  /\ Rpower 10 (-300) <= Rpower 10 (Tau_Giorgio_exponent z E) <= Rpower 10 300.
Proof.
  intros Hz HE [Hlo Hhi]; rewrite Tau_Giorgio_unfold.
  set (x := Tau_Giorgio_exponent z E) in *.
  assert (Hp : 0 < Rpower 10 x) by apply exp_pos.
  pose proof (anomal_positive z Hz) as Ha.
  set (a := _ + _ * z ^ 3) in *.
  assert (H10 : 1 < 10) by lra.
  split; [| split; [split |]].
  - apply Rmult_le_pos; [apply Rmult_le_pos |]; lra.
  - intros H0.
    apply Rmult_integral in H0; destruct H0 as [H0 | H0]; [| lra].
    apply Rmult_integral in H0; destruct H0 as [H0 | H0]; lra.
  - intros ->; ring.
  - split; apply Rle_Rpower; lra.
Qed.

Lemma Tau_Giorgio_sample_exponent :
  Tau_Giorgio_exponent 0.001 1 = -32422784703033 / 15625000000000.
Proof.
  unfold Tau_Giorgio_exponent; cbv zeta.
  replace (0.999 + 0.001) with 1 by lra.
  assert (H1 : Rpower 1 (-0.6) = 1) by (unfold Rpower; rewrite ln_1, Rmult_0_r; apply exp_0).
  rewrite H1.
  replace (1 * 1e12 / 1) with (10 ^ 12) by lra.
  assert (Hln : 0 < ln 10) by (rewrite <- ln_1; apply ln_increasing; lra).
  rewrite ln_pow by lra.
  replace (INR 12 * ln 10 / ln 10) with 12
    by (change (INR 12) with (IZR (Z.of_nat 12)) || idtac; simpl; field; lra).
  lra.
Qed.

Lemma Tau_Giorgio_is_an_optical_depth_witness :
  0 <= Tau_Giorgio 0.001 1 /\ (Tau_Giorgio 0.001 1 = 0 <-> 0.001 = 0).
Proof.
  destruct (Tau_Giorgio_is_an_optical_depth 0.001 1) as (H0 & Hiff & _).
  - lra.
  - lra.
  - rewrite Tau_Giorgio_sample_exponent; lra.
  - split; [exact H0 | exact Hiff].
Defined.
